(** * The operator registry and the plain net of paddle/framework

    A shallow embedding of [paddle/framework/op_registry.h] and
    [paddle/framework/net.cc].

    Conventions of the embedding.
    - A C++ [int] is a [Z]. Signed overflow is undefined behaviour in the
      source, so no wrap-around is written for it; the only unsigned
      counter, [gUniqId] (a [std::atomic<size_t>]), is an [N] whose
      [fetch_add] wraps modulo [2^64].
    - [std::string] is [string], [std::vector<T>] is [list T],
      [std::unordered_map<std::string, T>] is [gmap string T] and
      [std::unordered_set<std::string>] is [gset string].
    - A C++ exception is the [Throw] alternative of [result]. The static
      tables of [OpRegistry] and the counter are the fields of [Globals];
      code that reads or writes them lives in the monad [M], which threads
      the tables and keeps what was written before a throw. *)

From Stdlib Require Import ZArith NArith String Ascii List Lia.
From stdpp Require Import base option list strings gmap pretty.

Open Scope string_scope.
Open Scope list_scope.
Open Scope Z_scope.

(** ** Exceptions and results *)

(** [PADDLE_ENFORCE(cond, fmt, args...)] throws [EnforceNotMet] carrying the
    formatted message; [std::unordered_map::at] throws [std::out_of_range];
    [boost::get<T>] on another alternative throws [boost::bad_get]. *)
Inductive exn : Type :=
| EnforceNotMet (msg : string)
| out_of_range
| bad_get.

Inductive result (A : Type) : Type :=
| Ok (a : A)
| Throw (e : exn).
Arguments Ok {A} a.
Arguments Throw {A} e.

Global Instance result_ret : MRet result := fun A a => Ok a.
Global Instance result_bind : MBind result := fun A B f r =>
  match r with
  | Ok a => f a
  | Throw e => Throw e
  end.

Definition PADDLE_ENFORCE (cond : bool) (msg : string) : result unit :=
  if cond then Ok tt else Throw (EnforceNotMet msg).

Definition is_Ok {A} (r : result A) : bool :=
  match r with Ok _ => true | Throw _ => false end.

(** ** Attribute values *)

(** A C++ [float] is carried around and never computed with: it is
    represented by its 32 bit pattern. *)
Definition float : Type := Z.

(** Modelled from the spec: the [Attribute] variant is declared in
    attr_checker.h, which is not among the sources. Section 3 of the spec
    gives its alternatives (int, float, string and the three lists);
    [GetAttrValue] below also returns [boost::blank()]. *)
Inductive Attribute : Type :=
| blank
| of_int (v : Z)
| of_float (v : float)
| of_string (v : string)
| of_ints (v : list Z)
| of_floats (v : list float)
| of_strings (v : list string).

Abbreviation AttributeMap := (gmap string Attribute).

(** The enumerators of [paddle::framework::AttrType]. *)
Inductive AttrType : Type := INT | FLOAT | STRING | INTS | FLOATS | STRINGS.

(** The value of an [AttrType] field of a message: one of the enumerators,
    or another integer, which a C++ enum object can hold and which the
    [switch] of [GetAttrValue] has no case for. *)
Inductive AttrTypeValue : Type :=
| enumerator (t : AttrType)
| unrecognized (v : Z).

(** [boost::get<T>]: the alternative of an [Attribute] holding a [T]. *)
Definition holds (t : AttrType) (a : Attribute) : bool :=
  match t, a with
  | INT, of_int _ | FLOAT, of_float _ | STRING, of_string _
  | INTS, of_ints _ | FLOATS, of_floats _ | STRINGS, of_strings _ => true
  | _, _ => false
  end.

(** ** Protocol buffer messages (op_desc.proto, op_proto.proto)

    The generated headers are not among the sources; the fields are the
    ones the accessors used in op_registry.h name. *)

Module AttrDesc.
Record t : Type := mk {
  name : string;
  type : AttrTypeValue;
  i : Z;
  f : float;
  s : string;
  ints : list Z;
  floats : list float;
  strings : list string
}.
End AttrDesc.

Module OpDesc.
Record t : Type := mk {
  inputs : list string;
  outputs : list string;
  type : string;
  attrs : list AttrDesc.t
}.
End OpDesc.

Module VarProto.
Record t : Type := mk {
  name : string;
  comment : string;
  multiple : bool;
  temporary : bool
}.
End VarProto.

Module AttrProto.
Record t : Type := mk {
  name : string;
  type : AttrType;
  comment : string;
  generated : bool
}.
End AttrProto.

(** [comment] and [type] are unset in a fresh message, which
    [IsInitialized] reports. *)
Module OpProto.
Record t : Type := mk {
  inputs : list VarProto.t;
  outputs : list VarProto.t;
  attrs : list AttrProto.t;
  comment : option string;
  type : option string
}.
Definition empty : t := mk [] [] [] None None.
Definition inputs_size (p : t) : nat := length (inputs p).
Definition outputs_size (p : t) : nat := length (outputs p).
Definition input_names (p : t) : list string := VarProto.name <$> inputs p.
Definition output_names (p : t) : list string := VarProto.name <$> outputs p.
Definition attr_names (p : t) : list string := AttrProto.name <$> attrs p.
Definition IsInitialized (p : t) : bool :=
  bool_decide (is_Some (comment p)) && bool_decide (is_Some (type p)).
End OpProto.

(** ** AttrTypeHelper *)

(** [std::vector<T> val(n); for (int i = 0; i < n; ++i) val[i] = src(i);] *)
Definition copy_repeated {A} (dflt : A) (src : list A) : list A :=
  foldl (fun val i => <[i := default dflt (src !! i)]> val)
        (replicate (length src) dflt) (seq 0 (length src)).

Definition GetAttrValue (attr_desc : AttrDesc.t) : result Attribute :=
  match AttrDesc.type attr_desc with
  | enumerator INT => Ok (of_int (AttrDesc.i attr_desc))
  | enumerator FLOAT => Ok (of_float (AttrDesc.f attr_desc))
  | enumerator STRING => Ok (of_string (AttrDesc.s attr_desc))
  | enumerator INTS => Ok (of_ints (copy_repeated 0 (AttrDesc.ints attr_desc)))
  | enumerator FLOATS =>
      Ok (of_floats (copy_repeated 0 (AttrDesc.floats attr_desc)))
  | enumerator STRINGS =>
      Ok (of_strings (copy_repeated "" (AttrDesc.strings attr_desc)))
  | unrecognized _ =>
      _ ← PADDLE_ENFORCE false "Unknown OpDesc::AttrDesc::type !";
      Ok blank
  end.

(** ** Attribute checkers *)

(** Modelled from the spec: [TypedAttrChecker] and [OpAttrChecker] are
    declared in attr_checker.h, which is not among the sources. Section 4.1
    of the spec: a checker is declared for a named attribute of a static
    type, may be given a default value and value predicates, and [Check]
    validates a bound map against all declared checkers, failing with a
    validation error if a required attribute is missing, has the wrong type,
    or violates a predicate. A missing attribute with a default is bound to
    the default. The spec does not give the texts of the messages; nothing
    below depends on them. *)
Record TypedAttrChecker : Type := mkTypedAttrChecker {
  attr_name_ : string;
  attr_type_ : AttrType;
  default_value_ : option Attribute;
  value_checkers_ : list (Attribute -> bool)
}.

Abbreviation OpAttrChecker := (list TypedAttrChecker).

(** [op_checker->AddAttrChecker<T>(name)]: a new checker at the back; the
    reference it returns is the last element. *)
Definition AddAttrChecker (T : AttrType) (attr_name : string)
    (op_checker : OpAttrChecker) : OpAttrChecker :=
  op_checker ++ [mkTypedAttrChecker attr_name T None []].

(** A call chained on the reference that [AddAttrChecker] returned. *)
Definition on_back {A} (f : A -> A) (l : list A) : list A :=
  match reverse l with
  | [] => []
  | x :: r => reverse (f x :: r)
  end.

Definition SetDefault (default_value : Attribute) (c : TypedAttrChecker)
    : TypedAttrChecker :=
  mkTypedAttrChecker (attr_name_ c) (attr_type_ c) (Some default_value)
                     (value_checkers_ c).

Definition AddCustomChecker (checker : Attribute -> bool)
    (c : TypedAttrChecker) : TypedAttrChecker :=
  mkTypedAttrChecker (attr_name_ c) (attr_type_ c) (default_value_ c)
                     (value_checkers_ c ++ [checker]).

Definition TypedAttrChecker_call (c : TypedAttrChecker)
    (attr_map : AttributeMap) : result AttributeMap :=
  attr_map ← match attr_map !! attr_name_ c with
             | Some _ => Ok attr_map
             | None =>
                 match default_value_ c with
                 | Some val => Ok (<[attr_name_ c := val]> attr_map)
                 | None =>
                     Throw (EnforceNotMet
                       ("Attribute '" +:+ attr_name_ c +:+ "' is required!"))
                 end
             end;
  match attr_map !! attr_name_ c with
  | Some attr =>
      if negb (holds (attr_type_ c) attr) then
        Throw (EnforceNotMet
          ("Attribute '" +:+ attr_name_ c +:+ "' has the wrong type"))
      else if forallb (fun checker => checker attr) (value_checkers_ c) then
        Ok attr_map
      else
        Throw (EnforceNotMet
          ("Attribute '" +:+ attr_name_ c +:+ "' violates a constraint"))
  | None => Throw out_of_range
  end.

Fixpoint Check (op_checker : OpAttrChecker) (attr_map : AttributeMap)
    : result AttributeMap :=
  match op_checker with
  | [] => Ok attr_map
  | checker :: rest =>
      attr_map ← TypedAttrChecker_call checker attr_map;
      Check rest attr_map
  end.

(** ** OpProtoAndCheckerMaker *)

(** [proto_] and [op_checker_] point into the tables of the registry; the
    builder is modelled with the pointees, which [RegisterOp] stores back. *)
Record OpProtoAndCheckerMaker : Type := mkMaker {
  proto_ : OpProto.t;
  op_checker_ : OpAttrChecker;
  validated_ : bool;
  has_multiple_input_ : bool;
  has_multiple_output_ : bool;
  has_temporary_output_ : bool
}.

Definition new_OpProtoAndCheckerMaker (proto : OpProto.t)
    (op_checker : OpAttrChecker) : OpProtoAndCheckerMaker :=
  mkMaker proto op_checker false false false false.

Definition set_proto_ (p : OpProto.t) (m : OpProtoAndCheckerMaker) :=
  mkMaker p (op_checker_ m) (validated_ m) (has_multiple_input_ m)
          (has_multiple_output_ m) (has_temporary_output_ m).

Definition set_op_checker_ (c : OpAttrChecker) (m : OpProtoAndCheckerMaker) :=
  mkMaker (proto_ m) c (validated_ m) (has_multiple_input_ m)
          (has_multiple_output_ m) (has_temporary_output_ m).

Definition set_validated_ (b : bool) (m : OpProtoAndCheckerMaker) :=
  mkMaker (proto_ m) (op_checker_ m) b (has_multiple_input_ m)
          (has_multiple_output_ m) (has_temporary_output_ m).

Definition set_has_multiple_input_ (b : bool) (m : OpProtoAndCheckerMaker) :=
  mkMaker (proto_ m) (op_checker_ m) (validated_ m) b
          (has_multiple_output_ m) (has_temporary_output_ m).

Definition set_has_multiple_output_ (b : bool) (m : OpProtoAndCheckerMaker) :=
  mkMaker (proto_ m) (op_checker_ m) (validated_ m) (has_multiple_input_ m)
          b (has_temporary_output_ m).

Definition set_has_temporary_output_ (b : bool) (m : OpProtoAndCheckerMaker) :=
  mkMaker (proto_ m) (op_checker_ m) (validated_ m) (has_multiple_input_ m)
          (has_multiple_output_ m) b.

(** [AddAttr<T>(name, comment, generated)]: appends the attribute to the
    schema and its checker to the checker list. The C++ function returns a
    reference to that checker; calls chained on it are written with
    [chained]. *)
Definition AddAttr (T : AttrType) (name comment : string) (generated : bool)
    (m : OpProtoAndCheckerMaker) : OpProtoAndCheckerMaker :=
  let p := proto_ m in
  let attr := AttrProto.mk name T comment generated in
  let m := set_proto_ (OpProto.mk (OpProto.inputs p) (OpProto.outputs p)
                         (OpProto.attrs p ++ [attr]) (OpProto.comment p)
                         (OpProto.type p)) m in
  set_op_checker_ (AddAttrChecker T name (op_checker_ m)) m.

Definition chained (f : TypedAttrChecker -> TypedAttrChecker)
    (m : OpProtoAndCheckerMaker) : OpProtoAndCheckerMaker :=
  set_op_checker_ (on_back f (op_checker_ m)) m.

Definition AddComment (comment : string) (m : OpProtoAndCheckerMaker)
    : OpProtoAndCheckerMaker :=
  let p := proto_ m in
  set_proto_ (OpProto.mk (OpProto.inputs p) (OpProto.outputs p)
                (OpProto.attrs p) (Some comment) (OpProto.type p)) m.

Definition dquote : string := String (ascii_of_nat 34) EmptyString.
Definition newline : string := String (ascii_of_nat 10) EmptyString.

(** The documentation string of the two format attributes (the raw string
    literal of [SetHasMultiple]). *)
Definition format_DOC : string :=
  newline +:+
  "This attribute is used by Paddle core framework. Paddle's Op support each input" +:+ newline +:+
  "or output could be a list of variable. This attribute is used to show how that" +:+ newline +:+
  "list organized." +:+ newline +:+
  newline +:+
  "e.g." +:+ newline +:+
  "  input = [" +:+ dquote +:+ "a" +:+ dquote +:+ ", " +:+ dquote +:+ "b"
    +:+ dquote +:+ ", " +:+ dquote +:+ "c" +:+ dquote +:+ ", " +:+ dquote
    +:+ "d" +:+ dquote +:+ ", " +:+ dquote +:+ "e" +:+ dquote +:+ ", "
    +:+ dquote +:+ "f" +:+ dquote +:+ "]" +:+ newline +:+
  "  input_format = [0, 4, 5, 6]" +:+ newline +:+
  newline +:+
  "means" +:+ newline +:+
  "  The number of all input variables this op is six, and they are segmented into" +:+ newline +:+
  "  three inputs." +:+ newline +:+
  newline +:+
  "  The first input is input[0:4], second is input[4:5], third is input[5:6]." +:+ newline.

Definition temporary_index_DOC : string :=
  "The temporary index of output." +:+ newline +:+
  newline +:+
  "Not all output of Paddle Op is used by user. For faster computation, each op" +:+ newline +:+
  "could output some its internal state to other op, other op could take that" +:+ newline +:+
  "output to make compute faster." +:+ newline +:+
  newline +:+
  "Add a mark to which output is temporary is helpful for future optimization." +:+ newline.

(** [SetHasMultiple(in_out, flag)], with the flag passed as its getter and
    setter. No default is chained on the format attribute. *)
Definition SetHasMultiple (in_out : string)
    (flag : OpProtoAndCheckerMaker -> bool)
    (set_flag : bool -> OpProtoAndCheckerMaker -> OpProtoAndCheckerMaker)
    (m : OpProtoAndCheckerMaker) : OpProtoAndCheckerMaker :=
  if negb (flag m) then
    let m := AddAttr INTS (in_out +:+ "_format")
               ("The multiple index of " +:+ in_out +:+ newline +:+ format_DOC)
               true m in
    set_flag true m
  else m.

Definition SetHasMultipleInput : OpProtoAndCheckerMaker -> OpProtoAndCheckerMaker :=
  SetHasMultiple "input" has_multiple_input_ set_has_multiple_input_.

Definition SetHasMultipleOutput : OpProtoAndCheckerMaker -> OpProtoAndCheckerMaker :=
  SetHasMultiple "output" has_multiple_output_ set_has_multiple_output_.

Definition SetHasTemporaryOutput (m : OpProtoAndCheckerMaker)
    : OpProtoAndCheckerMaker :=
  if negb (has_temporary_output_ m) then
    let m := chained (SetDefault (of_ints []))
               (AddAttr INTS "temporary_index" temporary_index_DOC true m) in
    set_has_temporary_output_ true m
  else m.

Definition AddInput (name comment : string) (multiple : bool)
    (m : OpProtoAndCheckerMaker) : OpProtoAndCheckerMaker :=
  let p := proto_ m in
  let input := VarProto.mk name comment multiple false in
  let m := set_proto_ (OpProto.mk (OpProto.inputs p ++ [input])
                         (OpProto.outputs p) (OpProto.attrs p)
                         (OpProto.comment p) (OpProto.type p)) m in
  if multiple then SetHasMultipleInput m else m.

Definition AddInputs (name comment : string) :=
  AddInput name comment true.

Definition AddOutput (name comment : string) (temporary multiple : bool)
    (m : OpProtoAndCheckerMaker) : OpProtoAndCheckerMaker :=
  let p := proto_ m in
  let output := VarProto.mk name comment multiple temporary in
  let m := set_proto_ (OpProto.mk (OpProto.inputs p)
                         (OpProto.outputs p ++ [output]) (OpProto.attrs p)
                         (OpProto.comment p) (OpProto.type p)) m in
  let m := if multiple then SetHasMultipleOutput m else m in
  if temporary then SetHasTemporaryOutput m else m.

Definition AddOutputs (name comment : string) (temporary : bool) :=
  AddOutput name comment temporary true.

(** [CheckNoDuplicatedInOutAttrs]: the lambda [checker] over the set
    [names], run over the attributes, then the inputs, then the outputs. *)
Definition checker (names : gset string) (name : string)
    : result (gset string) :=
  _ ← PADDLE_ENFORCE (negb (bool_decide (name ∈ names)))
        ("[" +:+ name +:+ "] is duplicated");
  Ok ({[name]} ∪ names).

Fixpoint for_each_checker (l : list string) (names : gset string)
    : result (gset string) :=
  match l with
  | [] => Ok names
  | name :: rest =>
      names ← checker names name;
      for_each_checker rest names
  end.

Definition CheckNoDuplicatedInOutAttrs (m : OpProtoAndCheckerMaker)
    : result unit :=
  names ← for_each_checker (OpProto.attr_names (proto_ m)) ∅;
  names ← for_each_checker (OpProto.input_names (proto_ m)) names;
  names ← for_each_checker (OpProto.output_names (proto_ m)) names;
  Ok tt.

(** [Validate()]: the flag is set before the check, so it stays set when
    the check throws. *)
Definition Validate (m : OpProtoAndCheckerMaker)
    : OpProtoAndCheckerMaker * result unit :=
  let m := set_validated_ true m in
  (m, CheckNoDuplicatedInOutAttrs m).

(** The destructor, as [RegisterOp] reaches it: with [validated_] set, the
    [PADDLE_ENFORCE] passes and the destructor returns. The destructor is
    implicitly [noexcept]: with [validated_] unset the exception would not
    leave it and [std::terminate] would end the program, an end that
    [result] has no alternative for and that the [Throw] stands for here;
    no theorem is about that case. *)
Definition destroy_OpProtoAndCheckerMaker (m : OpProtoAndCheckerMaker)
    : result unit :=
  PADDLE_ENFORCE (validated_ m) "should call Validate after build".

(** What a maker chains on the checker that [AddAttr] returns:
    [SetDefault], or a value constraint ([InEnum], [LargerThan] and
    [AddCustomChecker] all add one). *)
Inductive chained_call : Type :=
| call_SetDefault (default_value : Attribute)
| call_AddCustomChecker (checker : Attribute -> bool).

Definition chained_call_fun (c : chained_call)
    : TypedAttrChecker -> TypedAttrChecker :=
  match c with
  | call_SetDefault v => SetDefault v
  | call_AddCustomChecker checker => AddCustomChecker checker
  end.

(** A schema maker class derives from [OpProtoAndCheckerMaker] and calls its
    protected members from its constructor: it is the list of those calls.
    [call_AddAttr] carries what is chained on the returned checker. *)
Inductive declaration : Type :=
| call_AddInput (name comment : string) (multiple : bool)
| call_AddInputs (name comment : string)
| call_AddOutput (name comment : string) (temporary multiple : bool)
| call_AddOutputs (name comment : string) (temporary : bool)
| call_AddAttr (T : AttrType) (name comment : string) (generated : bool)
    (chain : list chained_call)
| call_AddComment (comment : string).

Definition declare (m : OpProtoAndCheckerMaker) (d : declaration)
    : OpProtoAndCheckerMaker :=
  match d with
  | call_AddInput name comment multiple => AddInput name comment multiple m
  | call_AddInputs name comment => AddInputs name comment m
  | call_AddOutput name comment temporary multiple =>
      AddOutput name comment temporary multiple m
  | call_AddOutputs name comment temporary =>
      AddOutputs name comment temporary m
  | call_AddAttr T name comment generated chain =>
      foldl (fun m c => chained (chained_call_fun c) m)
            (AddAttr T name comment generated m) chain
  | call_AddComment comment => AddComment comment m
  end.

Abbreviation ProtoMakerType := (list declaration).

Definition construct (maker : ProtoMakerType) (proto : OpProto.t)
    (op_checker : OpAttrChecker) : OpProtoAndCheckerMaker :=
  foldl declare (new_OpProtoAndCheckerMaker proto op_checker) maker.

(** ** Operator nodes *)

Abbreviation VarIndexMap := (gmap string Z).
Abbreviation VarNameList := (list string).

(** The data members of [OperatorBase] that the registry touches;
    [in_out_idxs_] is a [std::shared_ptr], unset in a fresh node. The maps
    it points to are never written after they are attached, so the pointee
    stands for the pointer. *)
Record OperatorBase : Type := mkOperatorBase {
  type_ : string;
  inputs_ : VarNameList;
  outputs_ : VarNameList;
  attrs_ : AttributeMap;
  in_out_idxs_ : option VarIndexMap
}.

Definition set_type_ (v : string) (op : OperatorBase) : OperatorBase :=
  mkOperatorBase v (inputs_ op) (outputs_ op) (attrs_ op) (in_out_idxs_ op).
Definition set_inputs_ (v : VarNameList) (op : OperatorBase) : OperatorBase :=
  mkOperatorBase (type_ op) v (outputs_ op) (attrs_ op) (in_out_idxs_ op).
Definition set_outputs_ (v : VarNameList) (op : OperatorBase) : OperatorBase :=
  mkOperatorBase (type_ op) (inputs_ op) v (attrs_ op) (in_out_idxs_ op).
Definition set_attrs_ (v : AttributeMap) (op : OperatorBase) : OperatorBase :=
  mkOperatorBase (type_ op) (inputs_ op) (outputs_ op) v (in_out_idxs_ op).
Definition set_in_out_idxs_ (v : option VarIndexMap) (op : OperatorBase)
    : OperatorBase :=
  mkOperatorBase (type_ op) (inputs_ op) (outputs_ op) (attrs_ op) v.

(** Modelled from the spec: the two reserved names are static members of
    [OperatorBase] in operator.h, which is not among the sources. Section 8
    of the spec writes the gradient suffix [@GRAD]; the auto-temporary
    sentinel is reserved in section 6 without being spelled, and nothing
    below depends on its characters. *)
Definition GRAD_VAR_SUFFIX : string := "@GRAD".
Definition TMP_VAR_NAME : string := "@TEMP@".

(** Modelled from the spec: [OperatorBase::GetAttr<std::vector<int>>], of
    operator.h. The attribute must be bound and hold a list of integers. *)
Definition GetAttr_ints (op : OperatorBase) (name : string)
    : result (list Z) :=
  match attrs_ op !! name with
  | None =>
      Throw (EnforceNotMet (name +:+ " should be in AttributeMap"))
  | Some (of_ints v) => Ok v
  | Some _ => Throw bad_get
  end.

(** An operator class, as the template argument [OpType] of [RegisterOp]
    and [RegisterGradOp]: the registry stores [[] { return new OpType; }]
    and later calls the virtual [Init] of the object. [new OpType] default
    initialises the members above; [Init] is the kind's own code and is a
    parameter of the model (it is empty in [OperatorBase]). *)
Record OpType : Type := mkOpType {
  Init : OperatorBase -> result OperatorBase
}.

Definition new (c : OpType) : OperatorBase :=
  mkOperatorBase "" [] [] ∅ None.

Definition OperatorBase_Init : OperatorBase -> result OperatorBase := Ok.

(** ** The static tables of OpRegistry *)

Record Globals : Type := mkGlobals {
  creators : gmap string OpType;
  op_checkers : gmap string OpAttrChecker;
  protos : gmap string OpProto.t;
  VarIndexMaps : gmap string VarIndexMap;
  grad_creators : gmap string OpType;
  gUniqId : N
}.

Definition at_startup : Globals := mkGlobals ∅ ∅ ∅ ∅ ∅ 0%N.

Definition set_creators v (G : Globals) : Globals :=
  mkGlobals v (op_checkers G) (protos G) (VarIndexMaps G) (grad_creators G)
            (gUniqId G).
Definition set_op_checkers v (G : Globals) : Globals :=
  mkGlobals (creators G) v (protos G) (VarIndexMaps G) (grad_creators G)
            (gUniqId G).
Definition set_protos v (G : Globals) : Globals :=
  mkGlobals (creators G) (op_checkers G) v (VarIndexMaps G) (grad_creators G)
            (gUniqId G).
Definition set_VarIndexMaps v (G : Globals) : Globals :=
  mkGlobals (creators G) (op_checkers G) (protos G) v (grad_creators G)
            (gUniqId G).
Definition set_grad_creators v (G : Globals) : Globals :=
  mkGlobals (creators G) (op_checkers G) (protos G) (VarIndexMaps G) v
            (gUniqId G).
Definition set_gUniqId v (G : Globals) : Globals :=
  mkGlobals (creators G) (op_checkers G) (protos G) (VarIndexMaps G)
            (grad_creators G) v.

(** Code over the tables: the tables go in, the tables and a value or an
    exception come out. *)
Definition M (A : Type) : Type := Globals -> Globals * result A.

Global Instance M_ret : MRet M := fun A a G => (G, Ok a).
Global Instance M_bind : MBind M := fun A B f m G =>
  match m G with
  | (G', Ok a) => f a G'
  | (G', Throw e) => (G', Throw e)
  end.

Definition lift {A} (r : result A) : M A := fun G => (G, r).
Definition read {A} (f : Globals -> A) : M A := fun G => (G, Ok (f G)).
Definition write (f : Globals -> Globals) : M unit := fun G => (f G, Ok tt).

(** [table()[key]] of [std::unordered_map]: a missing key is inserted with
    a default constructed value. *)
Definition index_protos (key : string) : M OpProto.t := fun G =>
  match protos G !! key with
  | Some p => (G, Ok p)
  | None => (set_protos (<[key := OpProto.empty]> (protos G)) G,
             Ok OpProto.empty)
  end.

Definition index_op_checkers (key : string) : M OpAttrChecker := fun G =>
  match op_checkers G !! key with
  | Some c => (G, Ok c)
  | None => (set_op_checkers (<[key := []]> (op_checkers G)) G, Ok [])
  end.

(** [table().at(key)]. *)
Definition at_key {A} (table : Globals -> gmap string A) (key : string)
    : M A := fun G =>
  match table G !! key with
  | Some v => (G, Ok v)
  | None => (G, Throw out_of_range)
  end.

(** [for (auto& var : vars) { varmap[var.name()] = idx++; }] *)
Fixpoint assign_offsets (names : list string) (varmap : VarIndexMap)
    (idx : Z) : VarIndexMap * Z :=
  match names with
  | [] => (varmap, idx)
  | name :: rest => assign_offsets rest (<[name := idx]> varmap) (idx + 1)
  end.

Definition InitializationErrorString (p : OpProto.t) : string :=
  match OpProto.comment p, OpProto.type p with
  | None, None => "comment, type"
  | None, Some _ => "comment"
  | Some _, None => "type"
  | Some _, Some _ => ""
  end.

(** [RegisterOp<OpType, ProtoMakerType>(op_type)]. The maker writes through
    its two pointers, so the entries of [op_checkers] and [protos] hold what
    it declared also when [Validate] throws. *)
Definition RegisterOp (c : OpType) (maker_class : ProtoMakerType)
    (op_type : string) : M unit :=
  _ ← write (fun G => set_creators (<[op_type := c]> (creators G)) G);
  op_checker ← index_op_checkers op_type;
  op_proto ← index_protos op_type;
  let maker := construct maker_class op_proto op_checker in
  let '(maker, validated) := Validate maker in
  _ ← write (fun G =>
         set_op_checkers (<[op_type := op_checker_ maker]> (op_checkers G))
           (set_protos (<[op_type := proto_ maker]> (protos G)) G));
  _ ← lift validated;
  let p := proto_ maker in
  let op_proto := OpProto.mk (OpProto.inputs p) (OpProto.outputs p)
                    (OpProto.attrs p) (OpProto.comment p) (Some op_type) in
  _ ← write (fun G => set_protos (<[op_type := op_proto]> (protos G)) G);
  _ ← lift (PADDLE_ENFORCE (OpProto.IsInitialized op_proto)
              ("Fail to initialize " +:+ op_type +:+ "'s OpProto, because "
               +:+ InitializationErrorString op_proto
               +:+ " is not initialized"));
  let varmap : VarIndexMap := ∅ in
  let idx := 0 in
  let '(varmap, idx) :=
    assign_offsets (OpProto.input_names op_proto) varmap idx in
  let idx := 0 in
  let '(varmap, idx) :=
    assign_offsets (OpProto.output_names op_proto) varmap idx in
  _ ← write (fun G =>
         set_VarIndexMaps (<[op_type := varmap]> (VarIndexMaps G)) G);
  lift (destroy_OpProtoAndCheckerMaker maker).

Definition RegisterGradOp (c : OpType) (op_type : string) : M unit :=
  write (fun G => set_grad_creators (<[op_type := c]> (grad_creators G)) G).

(** [OpRegisterHelper<OpType, ProtoMakerType>(op_type)] and
    [GradOpRegisterHelper<OpType>(op_type)]: the constructors of the
    objects of static storage that [REGISTER_OP] and
    [REGISTER_GRADIENT_OP] define; each makes one call. *)
Definition OpRegisterHelper (c : OpType) (maker_class : ProtoMakerType)
    (op_type : string) : M unit :=
  RegisterOp c maker_class op_type.

Definition GradOpRegisterHelper (c : OpType) (op_type : string) : M unit :=
  RegisterGradOp c op_type.

(** ** Creating an operator *)

(** [gUniqId.fetch_add(1)] on a [std::atomic<size_t>]: the old value is
    returned and the counter wraps at [2^64]. *)
Definition size_t_modulus : N := (2 ^ 64)%N.

Definition fetch_add_gUniqId : M N := fun G =>
  (set_gUniqId ((gUniqId G + 1) mod size_t_modulus)%N G, Ok (gUniqId G)).

(** [std::to_string] of a [size_t] is its decimal numeral. *)
Definition to_string (n : N) : string := pretty n.

(** The body of the loop of [GenerateTempVariableName], for one element of
    [op->outputs_]. *)
Definition rename_temporary (type outname : string) : M string :=
  if decide (outname = TMP_VAR_NAME) then
    id ← fetch_add_gUniqId;
    mret (((outname +:+ type) +:+ "@") +:+ to_string id)
  else mret outname.

Fixpoint rename_temporaries (type : string) (outputs : VarNameList)
    : M VarNameList :=
  match outputs with
  | [] => mret []
  | outname :: rest =>
      outname ← rename_temporary type outname;
      rest ← rename_temporaries type rest;
      mret (outname :: rest)
  end.

Definition GenerateTempVariableName (op : OperatorBase) : M OperatorBase :=
  outputs ← rename_temporaries (type_ op) (outputs_ op);
  mret (set_outputs_ outputs op).

(** [CreateOp(type, inputs, outputs, attrs)]. [Check] works on
    [op->attrs_] in place. *)
Definition CreateOp (type : string) (inputs outputs : VarNameList)
    (attrs : AttributeMap) : M OperatorBase :=
  op_create_it ← read (fun G => creators G !! type);
  match op_create_it with
  | None =>
      lift (Throw (EnforceNotMet
                     ("Operator " +:+ type +:+ " cannot be found.")))
  | Some create =>
      let op := new create in
      let op := set_type_ type op in
      let op := set_inputs_ inputs op in
      let op := set_outputs_ outputs op in
      let op := set_attrs_ attrs op in
      op_checker ← at_key op_checkers type;
      attrs ← lift (Check op_checker (attrs_ op));
      let op := set_attrs_ attrs op in
      op ← GenerateTempVariableName op;
      var_index_it ← read (fun G => VarIndexMaps G !! type);
      let op := match var_index_it with
                | Some idxs => set_in_out_idxs_ (Some idxs) op
                | None => op
                end in
      lift (Init create op)
  end.

(** The loop of [CreateOp(op_desc)] that decodes the attributes:
    [attrs[attr.name()] = AttrTypeHelper::GetAttrValue(attr)]. *)
Fixpoint decode_attrs (descs : list AttrDesc.t) (attrs : AttributeMap)
    : result AttributeMap :=
  match descs with
  | [] => Ok attrs
  | attr :: rest =>
      v ← GetAttrValue attr;
      decode_attrs rest (<[AttrDesc.name attr := v]> attrs)
  end.

Definition CreateOp_desc (op_desc : OpDesc.t) : M OperatorBase :=
  let inputs := [] ++ OpDesc.inputs op_desc in
  let outputs := [] ++ OpDesc.outputs op_desc in
  attrs ← lift (decode_attrs (OpDesc.attrs op_desc) ∅);
  CreateOp (OpDesc.type op_desc) inputs outputs attrs.

(** ** Deriving the gradient operator *)

Definition grad_name (name : string) : string := name +:+ GRAD_VAR_SUFFIX.

(** [AssembleGradInOut(op, grad_op)]: two [std::copy] through a
    [back_inserter], then two loops of [emplace_back]. *)
Definition AssembleGradInOut (op grad_op : OperatorBase) : OperatorBase :=
  let grad_op := set_inputs_ (inputs_ grad_op ++ inputs_ op) grad_op in
  let grad_op := set_inputs_ (inputs_ grad_op ++ outputs_ op) grad_op in
  let grad_op :=
    foldl (fun g name => set_inputs_ (inputs_ g ++ [grad_name name]) g)
          grad_op (outputs_ op) in
  foldl (fun g name => set_outputs_ (outputs_ g ++ [grad_name name]) g)
        grad_op (inputs_ op).

(** [GenerateGradArgOffset(op, grad_op)]: one map, written by four loops;
    [idx] runs on through the first three and restarts for the fourth.
    [fill_grad_varmap] is the function body once [op_proto] is bound. *)
Definition fill_grad_varmap (op_proto : OpProto.t) : VarIndexMap :=
  let grad_varmap : VarIndexMap := ∅ in
  let idx := 0 in
  let '(grad_varmap, idx) :=
    assign_offsets (OpProto.input_names op_proto) grad_varmap idx in
  let '(grad_varmap, idx) :=
    assign_offsets (OpProto.output_names op_proto) grad_varmap idx in
  let '(grad_varmap, idx) :=
    assign_offsets (grad_name <$> OpProto.output_names op_proto)
                   grad_varmap idx in
  let idx := 0 in
  let '(grad_varmap, idx) :=
    assign_offsets (grad_name <$> OpProto.input_names op_proto)
                   grad_varmap idx in
  grad_varmap.

Definition GenerateGradArgOffset (op grad_op : OperatorBase)
    : M OperatorBase :=
  op_proto ← index_protos (type_ op);
  let grad_varmap := fill_grad_varmap op_proto in
  mret (set_in_out_idxs_ (Some grad_varmap) grad_op).

(** [std::iota(first, last, value)]. *)
Fixpoint iota (l : list Z) (value : Z) : list Z :=
  match l with
  | [] => []
  | _ :: rest => value :: iota rest (value + 1)
  end.

(** [for (const int& idx : src) { dst.emplace_back(idx + base); }] *)
Definition emplace_back_shifted (src : list Z) (base : Z) (dst : list Z)
    : list Z :=
  foldl (fun dst idx => dst ++ [idx + base]) dst src.

(** [GenerateGradAttr(op, grad_op)]; [fill_grad_attrs] is the function
    body once [op_proto] is bound.

    The statement that fills [old_in_format] is
    [has_in_format ? old_in_format = GetAttr(...) : old_in_format =
    std::vector<int>(n), std::iota(begin, end, 0);]. The comma operator
    binds weaker than the conditional operator, so it is the conditional
    expression followed by the call of [std::iota]: the call runs in both
    cases, also after the attribute was read. The same holds for
    [old_out_format]. *)
Definition fill_grad_attrs (op_proto : OpProto.t) (op grad_op : OperatorBase)
    : result OperatorBase :=
  let grad_op := set_attrs_ (attrs_ op) grad_op in
  let grad_op := set_attrs_ (delete "input_format" (attrs_ grad_op)) grad_op in
  let grad_op := set_attrs_ (delete "output_format" (attrs_ grad_op)) grad_op in
  let has_in_format := bool_decide (is_Some (attrs_ op !! "input_format")) in
  let has_out_format := bool_decide (is_Some (attrs_ op !! "output_format")) in
  if has_in_format || has_out_format then
    old_in_format ←
      (if has_in_format then GetAttr_ints op "input_format"
       else Ok (replicate (OpProto.inputs_size op_proto) 0));
    let old_in_format := iota old_in_format 0 in
    old_out_format ←
      (if has_out_format then GetAttr_ints op "output_format"
       else Ok (replicate (OpProto.outputs_size op_proto) 0));
    let old_out_format := iota old_out_format 0 in
    let in_format : list Z := [] in
    let base := 0 in
    let in_format := emplace_back_shifted old_in_format base in_format in
    let base := base + Z.of_nat (length (inputs_ op)) in
    let in_format := emplace_back_shifted old_out_format base in_format in
    let base := base + Z.of_nat (length (outputs_ op)) in
    let in_format := emplace_back_shifted old_in_format base in_format in
    let grad_op :=
      set_attrs_ (<["input_format" := of_ints in_format]> (attrs_ grad_op))
                 grad_op in
    if has_in_format then
      let out_format : list Z := [] ++ old_in_format in
      Ok (set_attrs_
            (<["output_format" := of_ints out_format]> (attrs_ grad_op))
            grad_op)
    else Ok grad_op
  else Ok grad_op.

Definition GenerateGradAttr (op grad_op : OperatorBase) : M OperatorBase :=
  op_proto ← index_protos (type_ op);
  lift (fill_grad_attrs op_proto op grad_op).

(** [CreateGradOp(op)]. *)
Definition CreateGradOp (op : OperatorBase) : M OperatorBase :=
  create ← at_key grad_creators (type_ op);
  let grad_op := new create in
  let grad_op := set_type_ (type_ op) grad_op in
  let grad_op := AssembleGradInOut op grad_op in
  grad_op ← GenerateGradArgOffset op grad_op;
  grad_op ← GenerateGradAttr op grad_op;
  lift (Init create grad_op).

(** ** Concurrent calls of GenerateTempVariableName

    Calls of [CreateOp] on several threads share nothing that is written
    except [gUniqId], and [fetch_add] on the atomic is indivisible. A call of
    [GenerateTempVariableName] in flight is the vector it rewrites in place
    and the position its loop has reached; one step of the system is one
    thread running the loop body [rename_temporary] on its next element.
    [th_generated] lists the names the call made in the temporary branch. *)
Record temp_call : Type := mkTempCall {
  th_type : string;
  th_outputs_ : VarNameList;
  th_next : nat;
  th_generated : list string
}.

Definition start_call (type : string) (outputs : VarNameList) : temp_call :=
  mkTempCall type outputs 0 [].

Inductive call_step : temp_call * Globals -> temp_call * Globals -> Prop :=
| call_step_body th G outname name G' :
    th_outputs_ th !! th_next th = Some outname ->
    rename_temporary (th_type th) outname G = (G', Ok name) ->
    call_step (th, G)
      (mkTempCall (th_type th) (<[th_next th := name]> (th_outputs_ th))
         (S (th_next th))
         (th_generated th ++
            (if decide (outname = TMP_VAR_NAME) then [name] else [])),
       G').

Inductive system_step : list temp_call * Globals ->
                        list temp_call * Globals -> Prop :=
| system_step_thread ths G i th th' G' :
    ths !! i = Some th ->
    call_step (th, G) (th', G') ->
    system_step (ths, G) (<[i := th']> ths, G').

(** Every name generated so far, over all the calls. *)
Definition all_generated (ths : list temp_call) : list string :=
  ths ≫= th_generated.

(** How many elements of a vector ask for a temporary. *)
Definition count_temporaries (outputs : VarNameList) : nat :=
  length (filter (fun outname => outname = TMP_VAR_NAME) outputs).

(** ** PlainNet (net.cc)

    net.h is not among the sources: the element type of [ops_], its two
    member functions, the scope and the device context are parameters. A
    member function of a node acts on the state of the program that it
    reaches by itself ([World]) and may throw. [InferShape] is called
    without arguments and [Run] with the context; the scope that the net
    receives is passed to neither. The calls made are recorded in the
    order they are made. *)
Section PlainNet.

Context {Operator Scope DeviceContext World : Type}.
Variable Operator_InferShape : Operator -> World -> World * result unit.
Variable Operator_Run :
  Operator -> DeviceContext -> World -> World * result unit.

Inductive member_call : Type :=
| call_InferShape (op : Operator)
| call_Run (op : Operator) (ctx : DeviceContext).

Record PlainNet : Type := mkPlainNet { ops_ : list Operator }.

Definition Pass (A : Type) : Type :=
  World * list member_call -> (World * list member_call) * result A.

Definition invoke_InferShape (op : Operator) : Pass unit := fun st =>
  let '(w, r) := Operator_InferShape op (fst st) in
  ((w, snd st ++ [call_InferShape op]), r).

Definition invoke_Run (op : Operator) (ctx : DeviceContext) : Pass unit :=
  fun st =>
  let '(w, r) := Operator_Run op ctx (fst st) in
  ((w, snd st ++ [call_Run op ctx]), r).

(** [for (auto& op : ops_) { body(op); }] *)
Fixpoint for_each_op (body : Operator -> Pass unit) (ops : list Operator)
    : Pass unit :=
  match ops with
  | [] => fun st => (st, Ok tt)
  | op :: rest => fun st =>
      match body op st with
      | (st, Ok _) => for_each_op body rest st
      | (st, Throw e) => (st, Throw e)
      end
  end.

(** The two member functions return the net as they leave it. *)
Definition PlainNet_InferShape (this : PlainNet) (scope : Scope)
    : Pass PlainNet := fun st =>
  match for_each_op invoke_InferShape (ops_ this) st with
  | (st, Ok _) => (st, Ok this)
  | (st, Throw e) => (st, Throw e)
  end.

Definition PlainNet_Run (this : PlainNet) (scope : Scope)
    (ctx : DeviceContext) : Pass PlainNet := fun st =>
  match for_each_op (fun op => invoke_Run op ctx) (ops_ this) st with
  | (st, Ok _) => (st, Ok this)
  | (st, Throw e) => (st, Throw e)
  end.

(** A loop body that makes exactly the call [mk op] on the node it is
    given. *)
Definition calls_once (body : Operator -> Pass unit)
    (mk : Operator -> member_call) : Prop :=
  forall op st, (body op st).1.2 = st.2 ++ [mk op].

(** The calls after a pass are the calls before it followed by the call
    [mk] of every node, once each, in the order of the list. *)
Definition visited_in_order (mk : Operator -> member_call)
    (ops : list Operator) (before after : list member_call) : Prop :=
  after = before ++ (mk <$> ops).

(** The same for a pass that a throwing node has stopped: the calls are
    those of the first [k] nodes. *)
Definition visited_a_prefix (mk : Operator -> member_call)
    (ops : list Operator) (before after : list member_call) : Prop :=
  exists k, (k <= length ops)%nat /\ after = before ++ (mk <$> take k ops).

(** The nodes of [ops] run one after the other from the state [w]: each
    returns, the first works on [w] and every other on the state that the
    node before it left; [ws] lists the states that they leave. *)
Fixpoint run_in_turn (f : Operator -> World -> World * result unit)
    (ops : list Operator) (w : World) (ws : list World) : Prop :=
  match ops, ws with
  | [], [] => True
  | op :: ops, w' :: ws => f op w = (w', Ok tt) /\ run_in_turn f ops w' ws
  | _, _ => False
  end.

(** What a pass does, [f] being the member function that it calls on a
    node and [mk] the call that it makes. A pass that returns has run all
    the nodes in turn, once each and in the order of the list, leaves the
    state that the last node left and the net as it was, and has made the
    calls of the nodes in that order. A pass that throws has run in turn
    the nodes before some node of the list, which has thrown, on the state
    that they left, what the pass throws; the pass leaves the state that
    this node left, and the last call made is the call of this node. *)
Definition pass_visits (f : Operator -> World -> World * result unit)
    (mk : Operator -> member_call) (this : PlainNet)
    (st : World * list member_call)
    (out : (World * list member_call) * result PlainNet) : Prop :=
  match out.2 with
  | Ok net =>
      net = this /\
      exists ws,
        run_in_turn f (ops_ this) st.1 ws /\
        out.1.1 = default st.1 (last ws) /\
        out.1.2 = st.2 ++ (mk <$> ops_ this)
  | Throw e =>
      exists k op ws,
        ops_ this !! k = Some op /\
        run_in_turn f (take k (ops_ this)) st.1 ws /\
        f op (default st.1 (last ws)) = (out.1.1, Throw e) /\
        out.1.2 = st.2 ++ (mk <$> take (S k) (ops_ this))
  end.

(** The pass [InferShape] as the specification words it: the shape
    inference of every node is invoked against the store that the pass
    has received, [InferShape_against] being the shape inference of a node
    against a store. *)
Fixpoint claimed_InferShape
    (InferShape_against : Operator -> Scope -> World -> World * result unit)
    (ops : list Operator) (scope : Scope) (w : World) : World * result unit :=
  match ops with
  | [] => (w, Ok tt)
  | op :: rest =>
      match InferShape_against op scope w with
      | (w, Ok _) => claimed_InferShape InferShape_against rest scope w
      | (w, Throw e) => (w, Throw e)
      end
  end.

End PlainNet.

(** * What the theorems say

    The definitions of this part state properties; none of them is part of
    the embedding of the code. *)

(** ** Schema validation *)

(** The names that [CheckNoDuplicatedInOutAttrs] walks over, in its order. *)
Definition declared_names (m : OpProtoAndCheckerMaker) : list string :=
  OpProto.attr_names (proto_ m) ++ OpProto.input_names (proto_ m)
    ++ OpProto.output_names (proto_ m).

Definition occurs_twice (name : string) (l : list string) : Prop :=
  exists i j : nat, i <> j /\ l !! i = Some name /\ l !! j = Some name.

Definition duplicated_error (name : string) : exn :=
  EnforceNotMet ("[" +:+ name +:+ "] is duplicated").

(** ** Bookkeeping attributes of a schema *)

Definition declares_multiple_input (d : declaration) : bool :=
  match d with
  | call_AddInput _ _ multiple => multiple
  | call_AddInputs _ _ => true
  | _ => false
  end.

Definition declares_multiple_output (d : declaration) : bool :=
  match d with
  | call_AddOutput _ _ _ multiple => multiple
  | call_AddOutputs _ _ _ => true
  | _ => false
  end.

Definition declares_temporary_output (d : declaration) : bool :=
  match d with
  | call_AddOutput _ _ temporary _ => temporary
  | call_AddOutputs _ _ temporary => temporary
  | _ => false
  end.

(** The maker itself declares an attribute called [name]. *)
Definition declares_attr (name : string) (d : declaration) : bool :=
  match d with
  | call_AddAttr _ n _ _ _ => bool_decide (n = name)
  | _ => false
  end.

Definition attrs_named (name : string) (m : OpProtoAndCheckerMaker)
    : list AttrProto.t :=
  filter (fun a => AttrProto.name a = name) (OpProto.attrs (proto_ m)).

Definition indicator (b : bool) : nat := if b then 1 else 0.

(** The attributes that the builder injects, and their checkers. *)
Definition format_attr (in_out : string) : AttrProto.t :=
  AttrProto.mk (in_out +:+ "_format") INTS
    ("The multiple index of " +:+ in_out +:+ newline +:+ format_DOC) true.

Definition temporary_index_attr : AttrProto.t :=
  AttrProto.mk "temporary_index" INTS temporary_index_DOC true.

Definition format_checker (in_out : string) : TypedAttrChecker :=
  mkTypedAttrChecker (in_out +:+ "_format") INTS None [].

Definition temporary_index_checker : TypedAttrChecker :=
  mkTypedAttrChecker "temporary_index" INTS (Some (of_ints [])) [].

(** The bookkeeping attribute [name], injected by the declarations that
    [declares] recognises, is in the schema built by [maker] once when one
    of them was made and not at all otherwise: the attributes of that name
    are the ones the schema had, the ones the maker declares under that
    name itself, and the injected one. When it is injected, the schema
    holds [attr] and the checker list holds [chk]. *)
Definition injected_once (name : string) (declares : declaration -> bool)
    (attr : AttrProto.t) (chk : TypedAttrChecker)
    (maker : ProtoMakerType) (proto : OpProto.t) (op_checker : OpAttrChecker)
    : Prop :=
  length (attrs_named name (construct maker proto op_checker)) =
    (length (filter (fun a => AttrProto.name a = name) (OpProto.attrs proto))
     + length (filter (fun d => declares_attr name d) maker)
     + indicator (existsb declares maker))%nat /\
  (existsb declares maker = true ->
   attr ∈ OpProto.attrs (proto_ (construct maker proto op_checker)) /\
   chk ∈ op_checker_ (construct maker proto op_checker)).

(** What one declaration appends to the schema and to the checker list. *)
Definition when {A} (b : bool) (x : A) : list A := if b then [x] else [].

Definition attrs_added (m : OpProtoAndCheckerMaker) (d : declaration)
    : list AttrProto.t :=
  when (declares_multiple_input d && negb (has_multiple_input_ m))
       (format_attr "input") ++
  when (declares_multiple_output d && negb (has_multiple_output_ m))
       (format_attr "output") ++
  when (declares_temporary_output d && negb (has_temporary_output_ m))
       temporary_index_attr ++
  match d with
  | call_AddAttr T n c g _ => [AttrProto.mk n T c g]
  | _ => []
  end.

Definition checkers_added (m : OpProtoAndCheckerMaker) (d : declaration)
    : list TypedAttrChecker :=
  when (declares_multiple_input d && negb (has_multiple_input_ m))
       (format_checker "input") ++
  when (declares_multiple_output d && negb (has_multiple_output_ m))
       (format_checker "output") ++
  when (declares_temporary_output d && negb (has_temporary_output_ m))
       temporary_index_checker ++
  match d with
  | call_AddAttr T n c g chain =>
      [foldl (fun k c => chained_call_fun c k)
             (mkTypedAttrChecker n T None []) chain]
  | _ => []
  end.

(** ** Errors of the registry *)

Definition not_found (type : string) : exn :=
  EnforceNotMet ("Operator " +:+ type +:+ " cannot be found.").

Definition unknown_type_tag : exn :=
  EnforceNotMet "Unknown OpDesc::AttrDesc::type !".

(** ** Temporary names *)

(** The name that the temporary branch makes for a node of kind [type]
    when the counter reads [id]. *)
Definition temp_name (type : string) (id : N) : string :=
  ((TMP_VAR_NAME +:+ type) +:+ "@") +:+ to_string id.

Fixpoint mentions (c : ascii) (s : string) : bool :=
  match s with
  | EmptyString => false
  | String c' s' => Ascii.eqb c' c || mentions c s'
  end.

(** The tables after [k] more calls of [fetch_add]. *)
Definition advance (k : nat) (G : Globals) : Globals :=
  set_gUniqId ((gUniqId G + N.of_nat k) mod size_t_modulus)%N G.

(** What the loop of [GenerateTempVariableName] leaves at position [j] of a
    vector that held [o] there, when the counter read [id] at the start:
    the elements before [j] that asked for a temporary have each taken one
    value. *)
Definition renamed_at (type : string) (id : N) (outputs : VarNameList)
    (j : nat) (o : string) : string :=
  if decide (o = TMP_VAR_NAME)
  then temp_name type
         ((id + N.of_nat (count_temporaries (take j outputs)))
            mod size_t_modulus)%N
  else o.

(** The names made for nodes of the kinds [types], listed in the order of
    the modifications of the atomic, when the counter started at [g0]. *)
Definition names_of (g0 : N) (types : list string) : list string :=
  imap (fun k type =>
          temp_name type ((g0 + N.of_nat k) mod size_t_modulus)%N) types.

Definition generated_invariant (g0 : N) (s : list temp_call * Globals)
    : Prop :=
  exists types,
    all_generated s.1 ≡ₚ names_of g0 types /\
    gUniqId s.2 = ((g0 + N.of_nat (length types)) mod size_t_modulus)%N.

(** ** Gradient nodes *)

(** The tables after [protos()[key]], and the schema that it yields. *)
Definition touch_protos (key : string) (G : Globals) : Globals :=
  match protos G !! key with
  | Some _ => G
  | None => set_protos (<[key := OpProto.empty]> (protos G)) G
  end.

Definition proto_of (G : Globals) (key : string) : OpProto.t :=
  default OpProto.empty (protos G !! key).

(** Each format attribute of the node, when bound, holds a list of
    integers (what [GetAttr<std::vector<int>>] needs). *)
Definition int_list_or_absent (a : option Attribute) : Prop :=
  match a with
  | None | Some (of_ints _) => True
  | Some _ => False
  end.

Definition format_attrs_typed (op : OperatorBase) : Prop :=
  int_list_or_absent (attrs_ op !! "input_format") /\
  int_list_or_absent (attrs_ op !! "output_format").

(** The wiring of a gradient node. *)
Definition grad_wiring (op grad_op : OperatorBase) : Prop :=
  inputs_ grad_op =
    inputs_ op ++ outputs_ op ++ (grad_name <$> outputs_ op) /\
  outputs_ grad_op = grad_name <$> inputs_ op.

(** The node that [CreateGradOp] has assembled when it reaches
    [GenerateGradAttr]. *)
Definition wired_grad_op (op : OperatorBase) (op_proto : OpProto.t)
    : OperatorBase :=
  mkOperatorBase (type_ op)
    (inputs_ op ++ outputs_ op ++ (grad_name <$> outputs_ op))
    (grad_name <$> inputs_ op) ∅ (Some (fill_grad_varmap op_proto)).

(** The offsets that [GenerateGradAttr] works with for one side of the
    forward node after its two statements of filling; [n] is the number of
    declared slots. *)
Definition old_format (fmt : option (list Z)) (n : nat) : list Z :=
  iota (default (replicate n 0) fmt) 0.

Definition shifted (base : Z) (s : list Z) : list Z :=
  (fun idx => idx + base) <$> s.

Definition grad_in_format (old_in_format old_out_format : list Z)
    (op : OperatorBase) : list Z :=
  old_in_format
  ++ shifted (Z.of_nat (length (inputs_ op))) old_out_format
  ++ shifted (Z.of_nat (length (inputs_ op))
              + Z.of_nat (length (outputs_ op))) old_in_format.

(** The attribute map that [GenerateGradAttr] leaves in the gradient node
    when the format attributes of the forward node are [fi] and [fo]. *)
Definition derived_attrs (op_proto : OpProto.t) (op : OperatorBase)
    (fi fo : option (list Z)) : AttributeMap :=
  let attrs := delete "output_format" (delete "input_format" (attrs_ op)) in
  let old_in := old_format fi (OpProto.inputs_size op_proto) in
  let old_out := old_format fo (OpProto.outputs_size op_proto) in
  match fi, fo with
  | None, None => attrs
  | Some _, _ =>
      <["output_format" := of_ints old_in]>
        (<["input_format" := of_ints (grad_in_format old_in old_out op)]>
           attrs)
  | None, Some _ =>
      <["input_format" := of_ints (grad_in_format old_in old_out op)]> attrs
  end.

(** The node that [CreateGradOp] hands to [Init]. *)
Definition derived_grad_op (G : Globals) (op : OperatorBase)
    (fi fo : option (list Z)) : OperatorBase :=
  set_attrs_ (derived_attrs (proto_of G (type_ op)) op fi fo)
             (wired_grad_op op (proto_of G (type_ op))).

(** The gradient [input_format] as the specification words it: three
    copies of the forward input offsets, the second shifted by the number
    [p] of forward inputs and the third by [p] plus the number [q] of
    forward outputs. *)
Definition claimed_grad_input_format (fmt : list Z) (p q : Z) : list Z :=
  fmt ++ shifted p fmt ++ shifted (p + q) fmt.

(** An offset array that stands for the format [fmt] of one side of the
    forward node: when the side has no format attribute it is
    [0, 1, ..., n-1] for the [n] declared slots; when it has one, it has as
    many entries. *)
Definition offsets_like (fmt : option (list Z)) (n : nat) (s : list Z)
    : Prop :=
  match fmt with
  | Some l => length s = length l
  | None => s = seqZ 0 (Z.of_nat n)
  end.

(** The format attributes of a gradient node [grad_op] derived from [op],
    whose format attributes are [fi] and [fo]: every other attribute is
    copied; without [fi] and [fo] there is no format attribute; otherwise
    [input_format] is made of three segments, offsets for the forward
    inputs, offsets for the forward outputs shifted by the number of bound
    inputs, and the first segment again shifted by the number of bound
    inputs and outputs, and [output_format] is there exactly when [fi] is,
    and is the first segment. *)
Definition derived_format_attrs (op_proto : OpProto.t)
    (op grad_op : OperatorBase) (fi fo : option (list Z)) : Prop :=
  let p := Z.of_nat (length (inputs_ op)) in
  let q := Z.of_nat (length (outputs_ op)) in
  (forall name, name <> "input_format" -> name <> "output_format" ->
     attrs_ grad_op !! name = attrs_ op !! name) /\
  match fi, fo with
  | None, None =>
      attrs_ grad_op !! "input_format" = None /\
      attrs_ grad_op !! "output_format" = None
  | _, _ =>
      exists s1 s2,
        offsets_like fi (OpProto.inputs_size op_proto) s1 /\
        offsets_like fo (OpProto.outputs_size op_proto) s2 /\
        attrs_ grad_op !! "input_format" =
          Some (of_ints (s1 ++ shifted p s2 ++ shifted (p + q) s1)) /\
        attrs_ grad_op !! "output_format" =
          match fi with Some _ => Some (of_ints s1) | None => None end
  end.

(** The index of a gradient node as the specification describes it: the
    slots of the forward inputs at [0..p-1], of the forward outputs at
    [p..p+q-1], the gradients of the outputs at [p+q..p+2q-1], and the
    gradients of the inputs at [0..p-1] again. *)
Definition continuous_offsets (op_proto : OpProto.t) (idxs : VarIndexMap)
    : Prop :=
  let ins := OpProto.input_names op_proto in
  let outs := OpProto.output_names op_proto in
  let p := length ins in
  let q := length outs in
  (forall i x, ins !! i = Some x ->
     idxs !! x = Some (Z.of_nat i) /\
     idxs !! grad_name x = Some (Z.of_nat i)) /\
  (forall j y, outs !! j = Some y ->
     idxs !! y = Some (Z.of_nat (p + j)) /\
     idxs !! grad_name y = Some (Z.of_nat (p + q + j))).

(** No slot of the schema is named like the gradient of a slot. *)
Definition no_slot_named_like_a_gradient (op_proto : OpProto.t) : Prop :=
  let names :=
    OpProto.input_names op_proto ++ OpProto.output_names op_proto in
  Forall (fun x => Forall (fun y => x <> grad_name y) names) names.

(** ** What a maker declares *)

(** The slot that a declaration appends to the inputs, and to the outputs,
    of the schema; the comment it sets; the name it adds. *)
Definition input_declared (d : declaration) : option VarProto.t :=
  match d with
  | call_AddInput name comment multiple =>
      Some (VarProto.mk name comment multiple false)
  | call_AddInputs name comment => Some (VarProto.mk name comment true false)
  | _ => None
  end.

Definition output_declared (d : declaration) : option VarProto.t :=
  match d with
  | call_AddOutput name comment temporary multiple =>
      Some (VarProto.mk name comment multiple temporary)
  | call_AddOutputs name comment temporary =>
      Some (VarProto.mk name comment true temporary)
  | _ => None
  end.

Definition comment_declared (d : declaration) : option string :=
  match d with
  | call_AddComment comment => Some comment
  | _ => None
  end.

Definition name_declared (d : declaration) : option string :=
  match d with
  | call_AddInput name _ _ | call_AddInputs name _
  | call_AddOutput name _ _ _ | call_AddOutputs name _ _
  | call_AddAttr _ name _ _ _ => Some name
  | call_AddComment _ => None
  end.

(** The names of a schema, in the order [CheckNoDuplicatedInOutAttrs] walks
    over them. *)
Definition schema_names (p : OpProto.t) : list string :=
  OpProto.attr_names p ++ OpProto.input_names p ++ OpProto.output_names p.

(** The first name of a list that occurs earlier in it. *)
Definition first_repeated (name : string) (l : list string) : Prop :=
  exists i : nat,
    l !! i = Some name /\ name ∈ take i l /\ NoDup (take i l).

(** The maker declares, by itself, an attribute under the name of a
    bookkeeping attribute that one of its slots makes the builder inject. *)
Definition declares_a_reserved_name (maker : ProtoMakerType) : bool :=
  existsb declares_multiple_input maker
    && existsb (declares_attr "input_format") maker
  || existsb declares_multiple_output maker
    && existsb (declares_attr "output_format") maker
  || existsb declares_temporary_output maker
    && existsb (declares_attr "temporary_index") maker.

(** ** Registration *)

(** The builder that [RegisterOp] validates: the maker, run on the entries
    that the tables hold for the kind, or on fresh ones. *)
Definition schema_built (maker : ProtoMakerType) (op_type : string)
    (G : Globals) : OpProtoAndCheckerMaker :=
  construct maker (proto_of G op_type) (default [] (op_checkers G !! op_type)).

Definition with_type (op_type : string) (p : OpProto.t) : OpProto.t :=
  OpProto.mk (OpProto.inputs p) (OpProto.outputs p) (OpProto.attrs p)
             (OpProto.comment p) (Some op_type).

(** The index that the two loops of [RegisterOp] fill. *)
Definition forward_index (p : OpProto.t) : VarIndexMap :=
  (assign_offsets (OpProto.output_names p)
     (assign_offsets (OpProto.input_names p) ∅ 0).1 0).1.

Definition not_initialized (op_type : string) (p : OpProto.t) : exn :=
  EnforceNotMet ("Fail to initialize " +:+ op_type +:+ "'s OpProto, because "
                 +:+ InitializationErrorString p +:+ " is not initialized").

(** The tables that [RegisterOp] leaves when [Validate] throws: the
    constructor, the checker list and the schema are stored, the index is
    not. *)
Definition half_registered (c : OpType) (maker : ProtoMakerType)
    (op_type : string) (G : Globals) : Globals :=
  let m := schema_built maker op_type G in
  mkGlobals (<[op_type := c]> (creators G))
            (<[op_type := op_checker_ m]> (op_checkers G))
            (<[op_type := proto_ m]> (protos G))
            (VarIndexMaps G) (grad_creators G) (gUniqId G).

(** An index that maps every input slot of the schema to its position
    among the inputs, every output slot to its position among the outputs,
    and nothing else. *)
Definition positions_of_slots (p : OpProto.t) (idxs : VarIndexMap) : Prop :=
  (forall i x, OpProto.input_names p !! i = Some x ->
     idxs !! x = Some (Z.of_nat i)) /\
  (forall j y, OpProto.output_names p !! j = Some y ->
     idxs !! y = Some (Z.of_nat j)) /\
  (forall z, is_Some (idxs !! z) ->
     z ∈ OpProto.input_names p \/ z ∈ OpProto.output_names p).

(** What a [RegisterOp] that returned has left for the kind: the schema,
    with the slots that the maker declared after those it held, in the
    order of the declarations, and with its kind name; the index of the
    positions; and nodes that [CreateOp] makes with that index. *)
Definition registered_with_index (c : OpType) (maker : ProtoMakerType)
    (op_type : string) (G G' : Globals) : Prop :=
  exists p idxs,
    protos G' !! op_type = Some p /\
    VarIndexMaps G' !! op_type = Some idxs /\
    OpProto.type p = Some op_type /\
    OpProto.input_names p =
      OpProto.input_names (proto_of G op_type)
        ++ (VarProto.name <$> omap input_declared maker) /\
    OpProto.output_names p =
      OpProto.output_names (proto_of G op_type)
        ++ (VarProto.name <$> omap output_declared maker) /\
    positions_of_slots p idxs /\
    forall inputs outputs attrs attrs',
      Check (op_checker_ (schema_built maker op_type G)) attrs = Ok attrs' ->
      exists G'' op,
        CreateOp op_type inputs outputs attrs G' = (G'', Init c op) /\
        in_out_idxs_ op = Some idxs.

(** What a [RegisterOp] that threw has left for the kind: everything but
    the index, so that [CreateOp] makes nodes of the kind, with the index
    the kind had before, if any. *)
Definition registered_without_index (c : OpType) (maker : ProtoMakerType)
    (op_type : string) (G G' : Globals) : Prop :=
  let m := schema_built maker op_type G in
  creators G' !! op_type = Some c /\
  op_checkers G' !! op_type = Some (op_checker_ m) /\
  (exists p, protos G' !! op_type = Some p /\
             with_type op_type p = with_type op_type (proto_ m)) /\
  VarIndexMaps G' = VarIndexMaps G /\
  grad_creators G' = grad_creators G /\
  gUniqId G' = gUniqId G /\
  forall inputs outputs attrs attrs',
    Check (op_checker_ m) attrs = Ok attrs' ->
    exists G'' op,
      CreateOp op_type inputs outputs attrs G' = (G'', Init c op) /\
      type_ op = op_type /\ inputs_ op = inputs /\ attrs_ op = attrs' /\
      in_out_idxs_ op = VarIndexMaps G !! op_type.

(** ** The tables of a running program *)

(** A call of a public member of [OpRegistry], and the tables it leaves,
    whether it returns or throws. *)
Inductive registry_call : Type :=
| run_RegisterOp (c : OpType) (maker : ProtoMakerType) (op_type : string)
| run_RegisterGradOp (c : OpType) (op_type : string)
| run_CreateOp (type : string) (inputs outputs : VarNameList)
    (attrs : AttributeMap)
| run_CreateOp_desc (op_desc : OpDesc.t)
| run_CreateGradOp (op : OperatorBase).

Definition tables_after_call (G : Globals) (call : registry_call) : Globals :=
  match call with
  | run_RegisterOp c maker op_type => (RegisterOp c maker op_type G).1
  | run_RegisterGradOp c op_type => (RegisterGradOp c op_type G).1
  | run_CreateOp type inputs outputs attrs =>
      (CreateOp type inputs outputs attrs G).1
  | run_CreateOp_desc op_desc => (CreateOp_desc op_desc G).1
  | run_CreateGradOp op => (CreateGradOp op G).1
  end.

(** The tables that a program can be in: those of the start, after any
    calls in any order. *)
Definition reachable (G : Globals) : Prop :=
  exists calls, G = foldl tables_after_call at_startup calls.

(** The kinds with a constructor are the kinds with a checker list, they
    have a schema, the kinds with an index have a constructor, and the
    counter is in the range of [size_t]. *)
Definition tables_consistent (G : Globals) : Prop :=
  (forall type,
     is_Some (creators G !! type) <-> is_Some (op_checkers G !! type)) /\
  (forall type, is_Some (creators G !! type) -> is_Some (protos G !! type)) /\
  (forall type,
     is_Some (VarIndexMaps G !! type) -> is_Some (creators G !! type)) /\
  (gUniqId G < size_t_modulus)%N.

(** [CreateOp] of a kind with a constructor finds the checker list of the
    kind: it throws what [Check] throws, or reaches [Init] with the checked
    attributes and the index of the kind, the counter advanced by the
    number of sentinels. *)
Definition CreateOp_finds_the_checker (G : Globals) : Prop :=
  forall type inputs outputs attrs c,
    creators G !! type = Some c ->
    exists chk,
      op_checkers G !! type = Some chk /\
      match Check chk attrs with
      | Throw e => CreateOp type inputs outputs attrs G = (G, Throw e)
      | Ok attrs' =>
          exists op,
            CreateOp type inputs outputs attrs G =
              (advance (count_temporaries outputs) G, Init c op) /\
            attrs_ op = attrs' /\ in_out_idxs_ op = VarIndexMaps G !! type
      end.

(** ** Descriptors *)

(** The value that an attribute of a descriptor stands for, the field that
    its type tag selects; and the attribute of a descriptor that binds
    [name], the last one of that name. *)
Definition field_selected (attr : AttrDesc.t) : option Attribute :=
  match AttrDesc.type attr with
  | enumerator INT => Some (of_int (AttrDesc.i attr))
  | enumerator FLOAT => Some (of_float (AttrDesc.f attr))
  | enumerator STRING => Some (of_string (AttrDesc.s attr))
  | enumerator INTS => Some (of_ints (AttrDesc.ints attr))
  | enumerator FLOATS => Some (of_floats (AttrDesc.floats attr))
  | enumerator STRINGS => Some (of_strings (AttrDesc.strings attr))
  | unrecognized _ => None
  end.

Definition last_named (name : string) (descs : list AttrDesc.t)
    : option AttrDesc.t :=
  last (filter (fun attr => AttrDesc.name attr = name) descs).

(** ** The index and the wiring of a gradient node *)

(** The variable that an index finds for a slot in a list of bound names:
    the element at the offset of the slot. *)
Definition found_at (idxs : VarIndexMap) (bound : VarNameList)
    (slot v : string) : Prop :=
  exists k : nat, idxs !! slot = Some (Z.of_nat k) /\ bound !! k = Some v.

(** The index of a gradient node finds, for every slot of the forward
    schema, the variable that the forward node binds to the slot, and its
    gradient, in the lists of the gradient node. *)
Definition index_matches_wiring (op_proto : OpProto.t)
    (op grad_op : OperatorBase) (idxs : VarIndexMap) : Prop :=
  (forall i x v,
     OpProto.input_names op_proto !! i = Some x -> inputs_ op !! i = Some v ->
     found_at idxs (inputs_ grad_op) x v /\
     found_at idxs (outputs_ grad_op) (grad_name x) (grad_name v)) /\
  (forall j y w,
     OpProto.output_names op_proto !! j = Some y ->
     outputs_ op !! j = Some w ->
     found_at idxs (inputs_ grad_op) y w /\
     found_at idxs (inputs_ grad_op) (grad_name y) (grad_name w)).

(** * Registries used by the examples *)

Definition plain_op : OpType := mkOpType OperatorBase_Init.

Definition tables_after (startup : M unit) : Globals := (startup at_startup).1.

Definition node_of (r : Globals * result OperatorBase) : OperatorBase :=
  match r.2 with
  | Ok op => op
  | Throw _ => new plain_op
  end.

(** A kind with inputs [a], [b] and output [c]. *)
Definition two_one_maker : ProtoMakerType :=
  [ call_AddInput "a" "first input" false;
    call_AddInput "b" "second input" false;
    call_AddOutput "c" "the output" false false;
    call_AddComment "two inputs, one output" ].

Definition two_one_tables : Globals :=
  tables_after (_ ← RegisterOp plain_op two_one_maker "two_one";
                RegisterGradOp plain_op "two_one").

Definition two_one_op : OperatorBase :=
  node_of (CreateOp "two_one" ["x"; "y"] ["z"] ∅ two_one_tables).

(** A kind with two grouped inputs [X], [Y] and one output. *)
Definition grouped_maker : ProtoMakerType :=
  [ call_AddInputs "X" "the first group";
    call_AddInputs "Y" "the second group";
    call_AddOutput "Out" "the output" false false;
    call_AddComment "grouped inputs" ].

Definition grouped_tables : Globals :=
  tables_after (_ ← RegisterOp plain_op grouped_maker "grouped";
                RegisterGradOp plain_op "grouped").

(** One variable in each group: the groups start at 0 and 1 and end at 2. *)
Definition grouped_op_1_1 : OperatorBase :=
  node_of (CreateOp "grouped" ["x"; "y"] ["out"]
             {[ "input_format" := of_ints [0; 1; 2] ]} grouped_tables).

(** Groups of two and three variables, as in section 8 of the spec. *)
Definition grouped_op_2_3 : OperatorBase :=
  node_of (CreateOp "grouped" ["x1"; "x2"; "y1"; "y2"; "y3"] ["out"]
             {[ "input_format" := of_ints [0; 2; 5] ]} grouped_tables).

(** A kind whose output slot is named like the gradient of its input. *)
Definition colliding_maker : ProtoMakerType :=
  [ call_AddInput "x" "the input" false;
    call_AddOutput "x@GRAD" "an output named like a gradient" false false;
    call_AddComment "colliding slot names" ].

Definition colliding_tables : Globals :=
  tables_after (_ ← RegisterOp plain_op colliding_maker "colliding";
                RegisterGradOp plain_op "colliding").

Definition colliding_op : OperatorBase :=
  node_of (CreateOp "colliding" ["u"] ["v"] ∅ colliding_tables).

(** A maker that declares one name twice: [RegisterOp] throws in
    [Validate], after the constructor and the checker were stored and
    before the index is. *)
Definition twice_maker : ProtoMakerType :=
  [ call_AddInput "a" "an input" false;
    call_AddOutput "a" "an output of the same name" false false;
    call_AddComment "a duplicated name" ].

Definition twice_tables : Globals :=
  tables_after (RegisterOp plain_op twice_maker "twice").

(** A checker that accepts no attribute map. *)
Definition strict_checker : OpAttrChecker :=
  [mkTypedAttrChecker "scale" FLOAT None []].

Definition two_one_proto : OpProto.t := proto_of two_one_tables "two_one".

Definition grouped_grad_1_1 : OperatorBase :=
  node_of (CreateGradOp grouped_op_1_1 grouped_tables).

Definition grouped_grad_2_3 : OperatorBase :=
  node_of (CreateGradOp grouped_op_2_3 grouped_tables).

Definition colliding_proto : OpProto.t :=
  proto_of colliding_tables "colliding".

Definition colliding_grad : OperatorBase :=
  node_of (CreateGradOp colliding_op colliding_tables).

Definition colliding_idxs : VarIndexMap :=
  default ∅ (in_out_idxs_ colliding_grad).

(** Two calls in flight: a node of kind [t1] with the outputs
    [@TEMP@], [keep], [@TEMP@] and a node of kind [t2] with the output
    [@TEMP@]; and the two calls when the first has made one step, the
    second one, and the first two more. *)
Definition two_calls : list (string * VarNameList) :=
  [("t1", [TMP_VAR_NAME; "keep"; TMP_VAR_NAME]); ("t2", [TMP_VAR_NAME])].

Definition two_calls_end : list temp_call :=
  [ mkTempCall "t1" ["@TEMP@t1@0"; "keep"; "@TEMP@t1@2"] 3
      ["@TEMP@t1@0"; "@TEMP@t1@2"];
    mkTempCall "t2" ["@TEMP@t2@1"] 1 ["@TEMP@t2@1"] ].

(** The tables after the registration of [two_one] alone, and the calls
    that lead to [two_one_tables]. *)
Definition two_one_registered : Globals :=
  tables_after (OpRegisterHelper plain_op two_one_maker "two_one").

Definition two_one_startup : list registry_call :=
  [ run_RegisterOp plain_op two_one_maker "two_one";
    run_RegisterGradOp plain_op "two_one" ].

(** A kind with a gradient constructor and no registration of its own, and
    a forward node of that kind. *)
Definition only_grad_tables : Globals :=
  tables_after (GradOpRegisterHelper plain_op "only_grad").

Definition only_grad_op : OperatorBase :=
  mkOperatorBase "only_grad" ["x"] ["y"] ∅ None.

(** A descriptor of a node of kind [two_one] that binds [scale] twice. *)
Definition two_one_desc : OpDesc.t :=
  OpDesc.mk ["x"; "y"] ["z"] "two_one"
    [ AttrDesc.mk "scale" (enumerator INT) 1 0 "" [7] [] [];
      AttrDesc.mk "scale" (enumerator INTS) 0 0 "" [2; 3] [] [] ].

(** A maker that declares a grouped input and, by itself, an attribute
    called [input_format]. *)
Definition reserved_maker : ProtoMakerType :=
  [ call_AddInputs "X" "a group";
    call_AddAttr INTS "input_format" "the maker's own" false [];
    call_AddComment "a reserved name" ].

(** A maker that declares the input [b] twice and then the output [a]
    under the name of its first input. *)
Definition repeating_maker : ProtoMakerType :=
  [ call_AddInput "a" "an input" false;
    call_AddInput "b" "an input" false;
    call_AddInput "b" "the same name" false;
    call_AddOutput "a" "an output named like an input" false false;
    call_AddComment "two repeated names" ].

(** A net of three nodes, the second of which throws; a node counts the
    calls in the state it works on. *)
Definition counting_InferShape (op : bool) (w : nat) : nat * result unit :=
  (S w, if op then Throw (EnforceNotMet "no shape") else Ok tt).

Definition counting_Run (op : bool) (ctx : unit) (w : nat)
    : nat * result unit :=
  (S w, if op then Throw (EnforceNotMet "no kernel") else Ok tt).

Definition stopping_net : PlainNet := mkPlainNet [false; true; false].

(** A net of one node, and a shape inference against a store for it: the
    store holds one dimension, which the node writes to the state. *)
Definition one_node_net : PlainNet := mkPlainNet [tt].

Definition store_reading_InferShape (op : unit) (scope : nat) (w : nat)
    : nat * result unit :=
  (scope, Ok tt).

(** * Theorems *)

Ltac unfold_M :=
  unfold mbind, M_bind, mret, M_ret, lift, read, write, at_key in *.

(** ** Validate and CheckNoDuplicatedInOutAttrs *)

Lemma checker_fresh names name :
  name ∉ names -> checker names name = Ok ({[name]} ∪ names).
Proof.
  intros Hn. unfold checker.
  rewrite bool_decide_eq_false_2 by done. reflexivity.
Qed.

Lemma checker_seen names name :
  name ∈ names -> checker names name = Throw (duplicated_error name).
Proof.
  intros Hn. unfold checker.
  rewrite bool_decide_eq_true_2 by done. reflexivity.
Qed.

Lemma for_each_checker_app l1 l2 names :
  for_each_checker (l1 ++ l2) names =
  for_each_checker l1 names ≫= for_each_checker l2.
Proof.
  revert names. induction l1 as [|x l1 IH]; intros names; simpl; [done|].
  destruct (checker names x) as [s|e]; simpl; [apply IH|done].
Qed.

Lemma for_each_checker_NoDup l names :
  NoDup l -> (forall x, x ∈ l -> x ∉ names) ->
  for_each_checker l names = Ok (list_to_set l ∪ names).
Proof.
  revert names. induction l as [|x l IH]; intros names Hnd Hdisj; simpl.
  - f_equal. by rewrite (left_id_L ∅ (∪)).
  - apply NoDup_cons in Hnd as [Hx Hnd].
    rewrite checker_fresh by (apply Hdisj; left). simpl.
    rewrite IH; [|done|].
    + f_equal. rewrite (assoc_L (∪)). f_equal. apply (comm_L (∪)).
    + intros y Hy. specialize (Hdisj y (list_elem_of_further _ _ _ Hy)).
      intros [Hyx|Hyn]%elem_of_union; [|done].
      apply elem_of_singleton in Hyx. by subst y.
Qed.

Lemma for_each_checker_disjoint l names s :
  for_each_checker l names = Ok s -> forall x, x ∈ l -> x ∉ names.
Proof.
  revert names. induction l as [|x l IH]; intros names; simpl.
  - intros _ y Hy. by apply elem_of_nil in Hy.
  - destruct (decide (x ∈ names)) as [Hin|Hin].
    + rewrite checker_seen by done. done.
    + rewrite checker_fresh by done. simpl. intros H y Hy.
      apply elem_of_cons in Hy as [->|Hy]; [done|].
      specialize (IH _ H y Hy). intros Hyn. apply IH.
      apply elem_of_union. by right.
Qed.

Lemma for_each_checker_Ok l names s :
  for_each_checker l names = Ok s -> NoDup l.
Proof.
  revert names. induction l as [|x l IH]; intros names; simpl.
  - intros _. constructor.
  - destruct (decide (x ∈ names)) as [Hin|Hin].
    + rewrite checker_seen by done. done.
    + rewrite checker_fresh by done. simpl. intros H.
      constructor; [|by eapply IH].
      intros Hx.
      destruct (for_each_checker_disjoint l ({[x]} ∪ names) s H x Hx).
      apply elem_of_union. left. by apply elem_of_singleton.
Qed.

Lemma for_each_checker_Throw l names e :
  for_each_checker l names = Throw e ->
  exists name, e = duplicated_error name /\
    ((name ∈ names /\ name ∈ l) \/ occurs_twice name l).
Proof.
  revert names. induction l as [|x l IH]; intros names; simpl; [done|].
  destruct (decide (x ∈ names)) as [Hin|Hin].
  - rewrite checker_seen by done. simpl. intros [= <-].
    exists x. split; [done|]. left. split; [done|left].
  - rewrite checker_fresh by done. simpl. intros H.
    apply IH in H as (name & -> & [[Hn Hl]|(i & j & Hij & Hi & Hj)]).
    + exists name. split; [done|].
      apply elem_of_union in Hn as [Hn|Hn].
      * apply elem_of_singleton in Hn as ->. right.
        apply list_elem_of_lookup in Hl as [k Hk].
        exists 0%nat, (S k). split; [lia|]. split; [done|exact Hk].
      * left. split; [done|by right].
    + exists name. split; [done|]. right.
      exists (S i), (S j). split; [lia|done].
Qed.

Lemma occurs_twice_not_NoDup name l : occurs_twice name l -> ~ NoDup l.
Proof.
  intros (i & j & Hij & Hi & Hj) Hnd.
  apply Hij. eapply NoDup_lookup; eauto.
Qed.

Lemma CheckNoDuplicatedInOutAttrs_eq m :
  CheckNoDuplicatedInOutAttrs m =
  for_each_checker (declared_names m) ∅ ≫= fun _ => Ok tt.
Proof.
  unfold CheckNoDuplicatedInOutAttrs, declared_names.
  rewrite for_each_checker_app.
  destruct (for_each_checker _ ∅) as [s1|]; simpl; [|done].
  rewrite for_each_checker_app.
  destruct (for_each_checker _ s1) as [s2|]; simpl; [|done].
  done.
Qed.

Lemma Validate_throws m e :
  (Validate m).2 = Throw e ->
  exists name, occurs_twice name (declared_names m) /\
               e = duplicated_error name.
Proof.
  unfold Validate. simpl. rewrite CheckNoDuplicatedInOutAttrs_eq.
  change (declared_names (set_validated_ true m)) with (declared_names m).
  destruct (for_each_checker _ ∅) as [s|e'] eqn:E; simpl; [done|].
  intros [= <-].
  apply for_each_checker_Throw in E as (name & -> & [[H _]|H]).
  - by apply not_elem_of_empty in H.
  - eauto.
Qed.

Lemma Validate_returns m :
  NoDup (declared_names m) -> Validate m = (set_validated_ true m, Ok tt).
Proof.
  intros Hnd. unfold Validate. f_equal.
  rewrite CheckNoDuplicatedInOutAttrs_eq.
  change (declared_names (set_validated_ true m)) with (declared_names m).
  rewrite for_each_checker_NoDup; [done|done|].
  intros x _. apply not_elem_of_empty.
Qed.

(** C6. [Validate] throws exactly when a name occurs twice among the
    attributes, inputs and outputs of the schema, the attributes that the
    builder injected included; what it throws is the [PADDLE_ENFORCE]
    failure that names a duplicated name. When the names are distinct it
    returns and the builder is marked validated; the mark is set in every
    case, since the flag is written before the check. *)
Theorem Validate_iff_duplicated (m : OpProtoAndCheckerMaker) :
  ((exists e, (Validate m).2 = Throw e) <->
   (exists name, occurs_twice name (declared_names m))) /\
  (forall e, (Validate m).2 = Throw e ->
     exists name, occurs_twice name (declared_names m) /\
                  e = duplicated_error name) /\
  (NoDup (declared_names m) ->
   Validate m = (set_validated_ true m, Ok tt)) /\
  validated_ (Validate m).1 = true.
Proof.
  split; [|split; [exact (Validate_throws m)|split;
                   [exact (Validate_returns m)|done]]].
  split.
  - intros [e He]. apply Validate_throws in He as (name & H & _). eauto.
  - intros [name Hname].
    destruct (Validate m).2 as [[]|e] eqn:E; [|eauto].
    exfalso. revert E. unfold Validate. simpl.
    rewrite CheckNoDuplicatedInOutAttrs_eq.
    change (declared_names (set_validated_ true m)) with (declared_names m).
    destruct (for_each_checker _ ∅) as [s|e'] eqn:E'; simpl; [|done].
    intros _. apply for_each_checker_Ok in E'.
    by apply (occurs_twice_not_NoDup _ _ Hname).
Qed.

(** ** The bookkeeping attributes of the builder *)

Lemma on_back_snoc {A} (f : A -> A) l x : on_back f (l ++ [x]) = l ++ [f x].
Proof.
  unfold on_back. rewrite reverse_snoc. rewrite reverse_cons.
  by rewrite reverse_involutive.
Qed.

(** The calls chained on a declared attribute work on its own checker. *)
Lemma chained_fold chain p ks k v f1 f2 f3 :
  foldl (fun m c => chained (chained_call_fun c) m)
        (mkMaker p (ks ++ [k]) v f1 f2 f3) chain =
  mkMaker p (ks ++ [foldl (fun k c => chained_call_fun c k) k chain])
          v f1 f2 f3.
Proof.
  revert k. induction chain as [|c chain IH]; intros k; simpl; [done|].
  unfold chained at 2, set_op_checker_. simpl.
  rewrite on_back_snoc. apply IH.
Qed.

(** One declaration: what it appends and how it moves the three flags. *)
Lemma declare_step m d :
  OpProto.attrs (proto_ (declare m d)) =
    OpProto.attrs (proto_ m) ++ attrs_added m d /\
  op_checker_ (declare m d) = op_checker_ m ++ checkers_added m d /\
  has_multiple_input_ (declare m d) =
    has_multiple_input_ m || declares_multiple_input d /\
  has_multiple_output_ (declare m d) =
    has_multiple_output_ m || declares_multiple_output d /\
  has_temporary_output_ (declare m d) =
    has_temporary_output_ m || declares_temporary_output d.
Proof.
  destruct m as [[ins outs ats cm ty] ks v f1 f2 f3].
  destruct d as [n c mu|n c|n c te mu|n c te|T n c g chain|c];
    unfold attrs_added, checkers_added, declare, AddInputs, AddOutputs,
      AddInput, AddOutput, AddComment, SetHasMultipleInput,
      SetHasMultipleOutput, SetHasMultiple, SetHasTemporaryOutput; simpl.
  all: try (destruct mu); try (destruct te);
    try (destruct f1); try (destruct f2); try (destruct f3); simpl;
    try (unfold AddAttr, set_op_checker_, set_proto_, AddAttrChecker; simpl;
         rewrite chained_fold; simpl);
    rewrite ?app_nil_r, ?orb_true_r, ?orb_false_r, <-?app_assoc;
    repeat split; try done;
    unfold AddAttrChecker; rewrite on_back_snoc, <-?app_assoc; done.
Qed.

Lemma filter_when {A} (P : A -> Prop) `{forall x, Decision (P x)} b x :
  length (filter P (when b x)) = indicator (b && bool_decide (P x)).
Proof.
  destruct b; simpl; [|done].
  rewrite filter_cons. destruct (decide (P x)).
  - by rewrite bool_decide_eq_true_2.
  - by rewrite bool_decide_eq_false_2.
Qed.

Lemma filter_user_attr name d :
  length (filter (fun a => AttrProto.name a = name)
            match d with
            | call_AddAttr T n c g _ => [AttrProto.mk n T c g]
            | _ => []
            end) = indicator (declares_attr name d).
Proof.
  destruct d as [| | | |T n c g chain|]; simpl; try done.
  rewrite filter_cons. simpl. destruct (decide (n = name)).
  - by rewrite bool_decide_eq_true_2.
  - by rewrite bool_decide_eq_false_2.
Qed.

Section bookkeeping.

(** One bookkeeping attribute: the flag of the builder that guards it, the
    declarations that ask for it, its name, its schema entry and its
    checker. *)
Variable flag : OpProtoAndCheckerMaker -> bool.
Variable declares : declaration -> bool.
Variable name : string.
Variable attr : AttrProto.t.
Variable chk : TypedAttrChecker.

Hypothesis flag_step : forall m d, flag (declare m d) = flag m || declares d.
Hypothesis attrs_step : forall m d,
  length (filter (fun a => AttrProto.name a = name) (attrs_added m d)) =
  (indicator (declares d && negb (flag m))
   + indicator (declares_attr name d))%nat.
Hypothesis attr_step : forall m d,
  declares d && negb (flag m) = true ->
  attr ∈ attrs_added m d /\ chk ∈ checkers_added m d.
Hypothesis flag_new : forall proto op_checker,
  flag (new_OpProtoAndCheckerMaker proto op_checker) = false.

Lemma count_foldl ds m :
  length (attrs_named name (foldl declare m ds)) =
  (length (attrs_named name m)
   + length (filter (fun d => declares_attr name d) ds)
   + indicator (negb (flag m) && existsb declares ds))%nat.
Proof.
  revert m. induction ds as [|d ds IH]; intros m; simpl.
  - rewrite andb_false_r. simpl. lia.
  - rewrite IH. unfold attrs_named at 1.
    destruct (declare_step m d) as (-> & _).
    rewrite filter_app, length_app, attrs_step, flag_step.
    fold (attrs_named name m).
    rewrite filter_cons.
    destruct (flag m), (declares d), (declares_attr name d),
      (existsb declares ds); simpl; lia.
Qed.

(** Later declarations keep what is in the schema and in the checker list. *)
Lemma kept_foldl ds m :
  (forall a, a ∈ OpProto.attrs (proto_ m) ->
             a ∈ OpProto.attrs (proto_ (foldl declare m ds))) /\
  (forall k, k ∈ op_checker_ m -> k ∈ op_checker_ (foldl declare m ds)).
Proof.
  revert m. induction ds as [|d ds IH]; intros m; simpl; [done|].
  destruct (IH (declare m d)) as [IHa IHk].
  destruct (declare_step m d) as (Ha & Hk & _).
  split.
  - intros a Hin. apply IHa. rewrite Ha. apply elem_of_app. by left.
  - intros k Hin. apply IHk. rewrite Hk. apply elem_of_app. by left.
Qed.

Lemma injected_foldl ds m :
  flag m = false -> existsb declares ds = true ->
  attr ∈ OpProto.attrs (proto_ (foldl declare m ds)) /\
  chk ∈ op_checker_ (foldl declare m ds).
Proof.
  revert m. induction ds as [|d ds IH]; intros m Hflag Hex; simpl in *;
    [done|].
  destruct (declares d) eqn:Hd.
  - destruct (attr_step m d) as [Ha Hk]; [by rewrite Hd, Hflag|].
    destruct (kept_foldl ds (declare m d)) as [Ka Kk].
    destruct (declare_step m d) as (Ea & Ek & _).
    split.
    + apply Ka. rewrite Ea. apply elem_of_app. by right.
    + apply Kk. rewrite Ek. apply elem_of_app. by right.
  - apply IH; [|done]. by rewrite flag_step, Hflag, Hd.
Qed.

Lemma injected_once_of maker proto op_checker :
  injected_once name declares attr chk maker proto op_checker.
Proof.
  unfold injected_once, construct. split.
  - rewrite count_foldl, flag_new. done.
  - intros Hex. apply injected_foldl; [apply flag_new|done].
Qed.

End bookkeeping.

Ltac count_added :=
  intros m d; unfold attrs_added;
  rewrite !filter_app, !length_app, !filter_when, filter_user_attr;
  repeat match goal with
         | |- context [bool_decide ?P] =>
             first [ rewrite (bool_decide_eq_true_2 P) by reflexivity
                   | rewrite (bool_decide_eq_false_2 P) by discriminate ]
         end;
  rewrite ?andb_true_r, ?andb_false_r; simpl; lia.

Ltac member_added :=
  intros m d H; unfold attrs_added, checkers_added; rewrite H;
  split; rewrite !elem_of_app; unfold when;
  [ repeat first [ left; apply list_elem_of_singleton; reflexivity | right ]
  | repeat first [ left; apply list_elem_of_singleton; reflexivity | right ] ].

Lemma input_format_added m d :
  length (filter (fun a => AttrProto.name a = "input_format")
                 (attrs_added m d)) =
  (indicator (declares_multiple_input d && negb (has_multiple_input_ m))
   + indicator (declares_attr "input_format" d))%nat.
Proof. revert m d. count_added. Qed.

Lemma output_format_added m d :
  length (filter (fun a => AttrProto.name a = "output_format")
                 (attrs_added m d)) =
  (indicator (declares_multiple_output d && negb (has_multiple_output_ m))
   + indicator (declares_attr "output_format" d))%nat.
Proof. revert m d. count_added. Qed.

Lemma temporary_index_added m d :
  length (filter (fun a => AttrProto.name a = "temporary_index")
                 (attrs_added m d)) =
  (indicator (declares_temporary_output d && negb (has_temporary_output_ m))
   + indicator (declares_attr "temporary_index" d))%nat.
Proof. revert m d. count_added. Qed.

Lemma input_format_member m d :
  declares_multiple_input d && negb (has_multiple_input_ m) = true ->
  format_attr "input" ∈ attrs_added m d /\
  format_checker "input" ∈ checkers_added m d.
Proof. revert m d. member_added. Qed.

Lemma output_format_member m d :
  declares_multiple_output d && negb (has_multiple_output_ m) = true ->
  format_attr "output" ∈ attrs_added m d /\
  format_checker "output" ∈ checkers_added m d.
Proof. revert m d. member_added. Qed.

Lemma temporary_index_member m d :
  declares_temporary_output d && negb (has_temporary_output_ m) = true ->
  temporary_index_attr ∈ attrs_added m d /\
  temporary_index_checker ∈ checkers_added m d.
Proof. revert m d. member_added. Qed.

(** C5, as amended. For every maker, run on a fresh builder over any schema
    and checker list: [input_format] is injected once if the maker declares
    a multiple input and not at all otherwise, however many it declares,
    and the injected attribute is a list of integers with [generated] set
    whose checker has no default, so the attribute is required; the same
    holds for [output_format] and the multiple outputs; [temporary_index]
    is injected once if the maker declares a temporary output, and its
    checker has the empty list as default. *)
Theorem bookkeeping_attrs_injected_once (maker : ProtoMakerType)
    (proto : OpProto.t) (op_checker : OpAttrChecker) :
  injected_once "input_format" declares_multiple_input
    (format_attr "input") (format_checker "input") maker proto op_checker /\
  injected_once "output_format" declares_multiple_output
    (format_attr "output") (format_checker "output") maker proto op_checker /\
  injected_once "temporary_index" declares_temporary_output
    temporary_index_attr temporary_index_checker maker proto op_checker.
Proof.
  split; [|split].
  - apply (injected_once_of has_multiple_input_); try done.
    + intros m d. apply declare_step.
    + apply input_format_added.
    + apply input_format_member.
  - apply (injected_once_of has_multiple_output_); try done.
    + intros m d. apply declare_step.
    + apply output_format_added.
    + apply output_format_member.
  - apply (injected_once_of has_temporary_output_); try done.
    + intros m d. apply declare_step.
    + apply temporary_index_added.
    + apply temporary_index_member.
Qed.

(** C5 as the specification words it fails: the schema built by
    [grouped_maker] has the checker of [input_format] that [SetHasMultiple]
    adds, which has no default, and no checker of that name with the empty
    list as default; an attribute map without [input_format] is rejected. *)
Lemma input_format_has_no_default :
  op_checker_ (construct grouped_maker OpProto.empty []) =
    [mkTypedAttrChecker "input_format" INTS None []] /\
  ~ (exists k,
       k ∈ op_checker_ (construct grouped_maker OpProto.empty []) /\
       attr_name_ k = "input_format" /\
       default_value_ k = Some (of_ints [])) /\
  is_Ok (Check (op_checker_ (construct grouped_maker OpProto.empty [])) ∅)
    = false.
Proof.
  assert (E : op_checker_ (construct grouped_maker OpProto.empty []) =
              [mkTypedAttrChecker "input_format" INTS None []])
    by reflexivity.
  rewrite E. split; [done|]. split.
  - intros (k & Hk & _ & Hd).
    apply list_elem_of_singleton in Hk as ->. discriminate Hd.
  - reflexivity.
Qed.

(** ** Temporary names *)

Lemma mentions_app c s1 s2 :
  mentions c (s1 +:+ s2) = mentions c s1 || mentions c s2.
Proof.
  induction s1 as [|c' s1 IH]; simpl; [done|].
  by rewrite IH, orb_assoc.
Qed.

Lemma pretty_N_char_digit x : Ascii.eqb (pretty_N_char x) "@" = false.
Proof. unfold pretty_N_char. by repeat case_match. Qed.

Lemma pretty_N_go_mentions x s :
  mentions "@" s = false -> mentions "@" (pretty_N_go x s) = false.
Proof.
  revert s. induction (N.lt_wf_0 x) as [x _ IH]; intros s Hs.
  destruct (decide (x = 0%N)) as [->|Hx].
  - by rewrite pretty_N_go_0.
  - rewrite pretty_N_go_step by lia.
    apply IH; [apply N.div_lt; lia|].
    simpl. by rewrite pretty_N_char_digit, Hs.
Qed.

Lemma to_string_digits n : mentions "@" (to_string n) = false.
Proof.
  unfold to_string, pretty, pretty_N. case_decide; [done|].
  by apply pretty_N_go_mentions.
Qed.

(** The last [@] of a string splits it in one way only. *)
Lemma split_at_last s1 s2 d1 d2 :
  mentions "@" d1 = false -> mentions "@" d2 = false ->
  s1 +:+ String "@" d1 = s2 +:+ String "@" d2 -> s1 = s2 /\ d1 = d2.
Proof.
  intros H1 H2. revert s2.
  induction s1 as [|c s1 IH]; intros [|c' s2]; simpl.
  - by intros [= ->].
  - intros [= <- ->]. rewrite mentions_app in H1. simpl in H1.
    by rewrite orb_true_r in H1.
  - intros [= -> <-]. rewrite mentions_app in H2. simpl in H2.
    by rewrite orb_true_r in H2.
  - intros [= -> H]. apply IH in H as [-> ->]. done.
Qed.

Lemma append_assoc s1 s2 s3 : (s1 +:+ s2) +:+ s3 = s1 +:+ (s2 +:+ s3).
Proof.
  induction s1 as [|c s1 IH]; [done|].
  change (String c ((s1 +:+ s2) +:+ s3) = String c (s1 +:+ s2 +:+ s3)).
  by f_equal.
Qed.

Lemma append_inv_head s s1 s2 : s +:+ s1 = s +:+ s2 -> s1 = s2.
Proof. induction s as [|c s IH]; simpl; [done|]. intros [= H]. auto. Qed.

Lemma temp_name_inj t1 t2 i1 i2 :
  temp_name t1 i1 = temp_name t2 i2 -> t1 = t2 /\ i1 = i2.
Proof.
  unfold temp_name. rewrite !append_assoc. simpl.
  intros H. apply append_inv_head in H.
  apply split_at_last in H as [-> H]; [|apply to_string_digits..].
  split; [done|]. by apply (inj pretty).
Qed.

Lemma size_t_modulus_pos : (0 < size_t_modulus)%N.
Proof. reflexivity. Qed.

Lemma advance_0 G : (gUniqId G < size_t_modulus)%N -> advance 0 G = G.
Proof.
  intros H. unfold advance. rewrite N.add_0_r, N.mod_small by done.
  by destruct G.
Qed.

Lemma advance_advance j k G : advance k (advance j G) = advance (j + k) G.
Proof.
  unfold advance, set_gUniqId. simpl. f_equal.
  rewrite N.Div0.add_mod_idemp_l. f_equal. lia.
Qed.

Lemma gUniqId_advance_lt k G : (gUniqId (advance k G) < size_t_modulus)%N.
Proof. simpl. apply N.mod_lt. done. Qed.

Lemma rename_temporary_eq type outname G :
  rename_temporary type outname G =
  if decide (outname = TMP_VAR_NAME)
  then (advance 1 G, Ok (temp_name type (gUniqId G)))
  else (G, Ok outname).
Proof. unfold rename_temporary. case_decide; [subst|]; reflexivity. Qed.

Lemma count_temporaries_cons o outputs :
  count_temporaries (o :: outputs) =
  ((if decide (o = TMP_VAR_NAME) then 1 else 0)
   + count_temporaries outputs)%nat.
Proof.
  unfold count_temporaries. rewrite filter_cons. by case_decide.
Qed.

Lemma rename_temporaries_cons type o outputs G :
  rename_temporaries type (o :: outputs) G =
  match rename_temporary type o G with
  | (G1, Ok name) =>
      match rename_temporaries type outputs G1 with
      | (G2, Ok rest) => (G2, Ok (name :: rest))
      | (G2, Throw e) => (G2, Throw e)
      end
  | (G1, Throw e) => (G1, Throw e)
  end.
Proof.
  simpl. unfold mbind, M_bind.
  destruct (rename_temporary type o G) as [G1 [name|e]]; [|done].
  destruct (rename_temporaries type outputs G1) as [G2 [rest|e]]; done.
Qed.

Lemma rename_temporaries_run type outputs G :
  (gUniqId G < size_t_modulus)%N ->
  exists outputs',
    rename_temporaries type outputs G =
      (advance (count_temporaries outputs) G, Ok outputs') /\
    length outputs' = length outputs /\
    forall j o, outputs !! j = Some o ->
      outputs' !! j = Some (renamed_at type (gUniqId G) outputs j o).
Proof.
  revert G. induction outputs as [|o outputs IH]; intros G HG.
  - exists []. split; [|done]. simpl. by rewrite advance_0.
  - rewrite rename_temporaries_cons, rename_temporary_eq, count_temporaries_cons.
    destruct (decide (o = TMP_VAR_NAME)) as [->|Ho].
    + destruct (IH (advance 1 G) (gUniqId_advance_lt _ _))
        as (rest & -> & Hlen & Hrest).
      eexists. split; [by rewrite advance_advance|].
      split; [simpl; by rewrite Hlen|].
      intros [|j] o Hj; simpl in *.
      * injection Hj as <-. unfold renamed_at.
        rewrite decide_True by done.
        change (count_temporaries []) with 0%nat.
        by rewrite N.add_0_r, N.mod_small.
      * rewrite (Hrest _ _ Hj). f_equal. unfold renamed_at.
        case_decide; [|done]. f_equal.
        rewrite firstn_cons, count_temporaries_cons, decide_True by done.
        rewrite N.Div0.add_mod_idemp_l. f_equal. lia.
    + destruct (IH G HG) as (rest & -> & Hlen & Hrest).
      eexists. split; [done|].
      split; [simpl; by rewrite Hlen|].
      intros [|j] o' Hj; simpl in *.
      * injection Hj as <-. unfold renamed_at. by rewrite decide_False.
      * rewrite (Hrest _ _ Hj). f_equal. unfold renamed_at.
        case_decide; [|done].
        by rewrite firstn_cons, count_temporaries_cons, decide_False.
Qed.

Lemma mod_size_t_inj g0 (i j : nat) :
  (N.of_nat i < size_t_modulus)%N -> (N.of_nat j < size_t_modulus)%N ->
  ((g0 + N.of_nat i) mod size_t_modulus =
   (g0 + N.of_nat j) mod size_t_modulus)%N -> i = j.
Proof.
  intros Hi Hj H.
  pose proof (N.Div0.div_mod (g0 + N.of_nat i) size_t_modulus) as Ei.
  pose proof (N.Div0.div_mod (g0 + N.of_nat j) size_t_modulus) as Ej.
  rewrite H in Ei.
  revert Hi Hj Ei Ej.
  generalize ((g0 + N.of_nat i) / size_t_modulus)%N.
  generalize ((g0 + N.of_nat j) / size_t_modulus)%N.
  generalize ((g0 + N.of_nat j) mod size_t_modulus)%N.
  unfold size_t_modulus. change (2 ^ 64)%N with 18446744073709551616%N.
  intros r q1 q2. lia.
Qed.

Lemma names_of_NoDup g0 types :
  (N.of_nat (length types) <= size_t_modulus)%N -> NoDup (names_of g0 types).
Proof.
  intros Hlen. apply NoDup_alt. intros i j x. unfold names_of.
  rewrite !list_lookup_imap.
  destruct (types !! i) as [ti|] eqn:Ei; [|done].
  destruct (types !! j) as [tj|] eqn:Ej; [|done].
  simpl. intros H1 H2. rewrite <-H1 in H2. apply (inj Some) in H2.
  apply temp_name_inj in H2 as [_ H]. symmetry in H.
  apply lookup_lt_Some in Ei, Ej.
  apply mod_size_t_inj in H; [done|lia..].
Qed.

Lemma names_of_snoc g0 types type :
  names_of g0 (types ++ [type]) =
  names_of g0 types ++
    [temp_name type ((g0 + N.of_nat (length types)) mod size_t_modulus)%N].
Proof.
  unfold names_of. rewrite imap_app. simpl. by rewrite Nat.add_0_r.
Qed.

Lemma all_generated_insert ths i th th' extra :
  ths !! i = Some th ->
  th_generated th' = th_generated th ++ extra ->
  all_generated (<[i := th']> ths) ≡ₚ all_generated ths ++ extra.
Proof.
  unfold all_generated. revert i.
  induction ths as [|t ths IH]; intros [|i] Hi Hgen; simplify_eq/=.
  - rewrite Hgen. rewrite <-!app_assoc. f_equiv. apply Permutation_app_comm.
  - rewrite <-app_assoc. f_equiv. by apply IH.
Qed.

Lemma system_step_invariant g0 s s' :
  system_step s s' -> generated_invariant g0 s -> generated_invariant g0 s'.
Proof.
  intros Hstep (types & Hperm & Hid).
  destruct Hstep as [ths G i th th' G' Hi Hcall].
  inversion Hcall as [th0 G0 outname name G0' Hout Hbody]; subst.
  rewrite rename_temporary_eq in Hbody. simpl in *.
  destruct (decide (outname = TMP_VAR_NAME)) as [->|Hne].
  - injection Hbody as <- <-.
    exists (types ++ [th_type th]). simpl. split.
    + rewrite names_of_snoc, <-Hid, <-Hperm.
      by eapply all_generated_insert.
    + rewrite Hid, length_app, N.Div0.add_mod_idemp_l. simpl.
      f_equal. lia.
  - injection Hbody as <- <-.
    exists types. simpl. split; [|done].
    rewrite <-Hperm, <-(app_nil_r (all_generated ths)).
    by eapply all_generated_insert.
Qed.

Lemma system_steps_invariant g0 s s' :
  rtc system_step s s' -> generated_invariant g0 s ->
  generated_invariant g0 s'.
Proof.
  induction 1 as [|s1 s2 s3 Hstep _ IH]; [done|].
  intros H. apply IH. by eapply system_step_invariant.
Qed.

Lemma all_generated_start calls :
  all_generated (uncurry start_call <$> calls) = [].
Proof.
  unfold all_generated. induction calls as [|[t o] calls IH]; [done|].
  simpl. exact IH.
Qed.

Lemma generated_never_collide calls G0 ths G :
  (gUniqId G0 < size_t_modulus)%N ->
  rtc system_step (uncurry start_call <$> calls, G0) (ths, G) ->
  (N.of_nat (length (all_generated ths)) <= size_t_modulus)%N ->
  NoDup (all_generated ths) /\
  exists types, all_generated ths ≡ₚ names_of (gUniqId G0) types.
Proof.
  intros HG0 Hsteps Hlen.
  apply (system_steps_invariant (gUniqId G0)) in Hsteps.
  - destruct Hsteps as (types & Hperm & _). simpl in Hperm.
    split; [|by exists types].
    rewrite Hperm. apply names_of_NoDup.
    rewrite Hperm in Hlen. unfold names_of in Hlen.
    by rewrite length_imap in Hlen.
  - exists []. simpl. rewrite all_generated_start. split; [done|].
    by rewrite N.add_0_r, N.mod_small.
Qed.

(** The sequential loop is a run of one call, element after element. *)
Lemma call_steps_run type rest : forall done gen G G' rest',
  rename_temporaries type rest G = (G', Ok rest') ->
  exists gen',
    rtc call_step (mkTempCall type (done ++ rest) (length done) gen, G)
      (mkTempCall type (done ++ rest') (length (done ++ rest)) gen', G').
Proof.
  induction rest as [|o rest IH]; intros done gen G G' rest'.
  - simpl. intros [= <- <-]. exists gen. by rewrite app_nil_r.
  - rewrite rename_temporaries_cons.
    destruct (rename_temporary type o G) as [G1 [name|e]] eqn:E1; [|done].
    destruct (rename_temporaries type rest G1) as [G2 [r|e]] eqn:E2; [|done].
    intros [= <- <-].
    destruct (IH (done ++ [name])
                (gen ++ (if decide (o = TMP_VAR_NAME) then [name] else []))
                G1 G2 r E2) as [gen' Hrun].
    exists gen'. eapply rtc_l.
    + eapply (call_step_body (mkTempCall type (done ++ o :: rest)
                                (length done) gen) G o name G1); simpl.
      * by rewrite lookup_app_r, Nat.sub_diag by lia.
      * exact E1.
    + simpl. 
      replace (<[length done := name]> (done ++ o :: rest))
        with ((done ++ [name]) ++ rest).
      2:{ rewrite insert_app_r_alt, Nat.sub_diag by lia. simpl.
          by rewrite <-app_assoc. }
      replace (S (length done)) with (length (done ++ [name]))
        by (rewrite length_app; simpl; lia).
      replace (length (done ++ o :: rest))
        with (length ((done ++ [name]) ++ rest))
        by (rewrite !length_app; simpl; lia).
      replace (done ++ name :: r) with ((done ++ [name]) ++ r)
        by (by rewrite <-app_assoc).
      exact Hrun.
Qed.

(** ** CreateOp *)

Lemma CreateOp_not_found G type inputs outputs attrs :
  creators G !! type = None ->
  CreateOp type inputs outputs attrs G = (G, Throw (not_found type)).
Proof. intros H. unfold CreateOp. unfold_M. by rewrite H. Qed.

Lemma CreateOp_check_fails G type inputs outputs attrs c chk e :
  creators G !! type = Some c ->
  op_checkers G !! type = Some chk ->
  Check chk attrs = Throw e ->
  CreateOp type inputs outputs attrs G = (G, Throw e).
Proof.
  intros Hc Hk He. unfold CreateOp. unfold_M. rewrite Hc, Hk. simpl.
  by rewrite He.
Qed.

(** The loop over the outputs never throws and writes the counter only. *)
Lemma rename_temporaries_returns type outputs G :
  exists id outputs',
    rename_temporaries type outputs G = (set_gUniqId id G, Ok outputs') /\
    length outputs' = length outputs.
Proof.
  revert G. induction outputs as [|o outputs IH]; intros G.
  - exists (gUniqId G), []. split; [|done]. simpl. by destruct G.
  - rewrite rename_temporaries_cons, rename_temporary_eq.
    destruct (decide (o = TMP_VAR_NAME)).
    + destruct (IH (advance 1 G)) as (id & rest & -> & Hlen).
      eexists id, _. split; [reflexivity|]. simpl. by rewrite Hlen.
    + destruct (IH G) as (id & rest & -> & Hlen).
      eexists id, _. split; [reflexivity|]. simpl. by rewrite Hlen.
Qed.

(** [CreateOp] once the constructor is found and the attributes pass the
    checker: the node that reaches [Init]. *)
Lemma CreateOp_checked G type inputs outputs attrs c chk attrs' :
  creators G !! type = Some c ->
  op_checkers G !! type = Some chk ->
  Check chk attrs = Ok attrs' ->
  exists G' outputs',
    rename_temporaries type outputs G = (G', Ok outputs') /\
    CreateOp type inputs outputs attrs G =
      (G', Init c (mkOperatorBase type inputs outputs' attrs'
                     (VarIndexMaps G !! type))).
Proof.
  intros Hc Hk He.
  destruct (rename_temporaries_returns type outputs G)
    as (id & outputs' & Hren & _).
  exists (set_gUniqId id G), outputs'. split; [done|].
  unfold CreateOp, GenerateTempVariableName. unfold_M.
  rewrite Hc, Hk. simpl. rewrite He. simpl. rewrite Hren. simpl.
  by destruct (VarIndexMaps G !! type).
Qed.

Lemma CreateOp_renames_temporaries G type inputs outputs attrs c chk attrs' :
  creators G !! type = Some c ->
  op_checkers G !! type = Some chk ->
  Check chk attrs = Ok attrs' ->
  (gUniqId G < size_t_modulus)%N ->
  exists op,
    CreateOp type inputs outputs attrs G =
      (advance (count_temporaries outputs) G, Init c op) /\
    length (outputs_ op) = length outputs /\
    forall j o, outputs !! j = Some o ->
      outputs_ op !! j = Some (renamed_at type (gUniqId G) outputs j o).
Proof.
  intros Hc Hk He HG.
  destruct (CreateOp_checked G type inputs outputs attrs c chk attrs'
              Hc Hk He) as (G' & outputs' & Hren & ->).
  destruct (rename_temporaries_run type outputs G HG)
    as (outputs2 & Hren2 & Hlen & Hat).
  rewrite Hren in Hren2. injection Hren2 as -> ->.
  eexists. split; [reflexivity|]. done.
Qed.

(** C4. In [CreateOp], once the constructor is found and the attributes
    pass the checker, the node handed to [Init] has every output that was
    the sentinel replaced by the sentinel, the kind name, [@] and the
    decimal numeral of the value that [gUniqId] had at that moment, the
    other outputs being kept, and the counter has advanced by the number of
    sentinels. That loop is a run of the step relation of one call. For
    any number of calls of any kinds, and for every interleaving of the
    loop bodies of these calls, the names generated so far are pairwise
    distinct, as long as no more than [2^64] of them were generated, the
    range of the [size_t] counter; they are the names of the successive
    values of the counter. *)
Theorem temporaries_are_renamed_and_never_collide :
  (forall G type inputs outputs attrs c chk attrs',
     creators G !! type = Some c ->
     op_checkers G !! type = Some chk ->
     Check chk attrs = Ok attrs' ->
     (gUniqId G < size_t_modulus)%N ->
     exists op,
       CreateOp type inputs outputs attrs G =
         (advance (count_temporaries outputs) G, Init c op) /\
       length (outputs_ op) = length outputs /\
       forall j o, outputs !! j = Some o ->
         outputs_ op !! j = Some (renamed_at type (gUniqId G) outputs j o)) /\
  (forall type outputs G G' outputs',
     rename_temporaries type outputs G = (G', Ok outputs') ->
     exists generated,
       rtc call_step (start_call type outputs, G)
         (mkTempCall type outputs' (length outputs) generated, G')) /\
  (forall calls G0 ths G,
     (gUniqId G0 < size_t_modulus)%N ->
     rtc system_step (uncurry start_call <$> calls, G0) (ths, G) ->
     (N.of_nat (length (all_generated ths)) <= size_t_modulus)%N ->
     NoDup (all_generated ths) /\
     exists types, all_generated ths ≡ₚ names_of (gUniqId G0) types).
Proof.
  split; [exact CreateOp_renames_temporaries|]. split.
  - intros type outputs G G' outputs' H.
    exact (call_steps_run type outputs [] [] G G' outputs' H).
  - exact generated_never_collide.
Qed.

(** ** Decoding a descriptor *)

Lemma copy_repeated_prefix {A} (dflt : A) (src : list A) n :
  (n <= length src)%nat ->
  foldl (fun val i => <[i := default dflt (src !! i)]> val)
        (replicate (length src) dflt) (seq 0 n) =
  take n src ++ replicate (length src - n) dflt.
Proof.
  induction n as [|n IH]; intros Hn.
  - simpl. by rewrite Nat.sub_0_r.
  - rewrite seq_S, foldl_app, IH by lia. simpl.
    destruct (lookup_lt_is_Some_2 src n) as [x Hx]; [lia|].
    rewrite Hx. simpl.
    rewrite (take_S_r _ _ _ Hx).
    replace (length src - n)%nat with (S (length src - S n)) by lia.
    simpl. rewrite insert_app_r_alt by (rewrite length_take; lia).
    rewrite length_take, Nat.min_l, Nat.sub_diag by lia. simpl.
    by rewrite <-app_assoc.
Qed.

(** The copying loops of [GetAttrValue] copy. *)
Lemma copy_repeated_eq {A} (dflt : A) (src : list A) :
  copy_repeated dflt src = src.
Proof.
  unfold copy_repeated. rewrite copy_repeated_prefix by lia.
  by rewrite firstn_all, Nat.sub_diag, app_nil_r.
Qed.

Lemma GetAttrValue_enumerator attr_desc t :
  AttrDesc.type attr_desc = enumerator t ->
  GetAttrValue attr_desc =
  Ok match t with
     | INT => of_int (AttrDesc.i attr_desc)
     | FLOAT => of_float (AttrDesc.f attr_desc)
     | STRING => of_string (AttrDesc.s attr_desc)
     | INTS => of_ints (AttrDesc.ints attr_desc)
     | FLOATS => of_floats (AttrDesc.floats attr_desc)
     | STRINGS => of_strings (AttrDesc.strings attr_desc)
     end.
Proof.
  intros H. unfold GetAttrValue. rewrite H.
  destruct t; by rewrite ?copy_repeated_eq.
Qed.

(** ** The failures of the registry *)

Lemma GetAttrValue_throws attr e :
  GetAttrValue attr = Throw e -> e = unknown_type_tag.
Proof.
  unfold GetAttrValue. destruct (AttrDesc.type attr) as [[]|]; try done.
  simpl. by intros [= <-].
Qed.

Lemma GetAttrValue_unrecognized attr v :
  AttrDesc.type attr = unrecognized v ->
  GetAttrValue attr = Throw unknown_type_tag.
Proof. intros H. unfold GetAttrValue. by rewrite H. Qed.

Lemma decode_attrs_unrecognized descs attrs attr v :
  attr ∈ descs -> AttrDesc.type attr = unrecognized v ->
  decode_attrs descs attrs = Throw unknown_type_tag.
Proof.
  intros Hin Hty. revert attrs.
  induction descs as [|d descs IH]; intros attrs.
  - by apply elem_of_nil in Hin.
  - simpl. destruct (GetAttrValue d) as [x|e] eqn:E; simpl.
    + apply elem_of_cons in Hin as [->|Hin].
      * by rewrite (GetAttrValue_unrecognized _ _ Hty) in E.
      * by apply IH.
    + by rewrite (GetAttrValue_throws _ _ E).
Qed.

Lemma CreateOp_desc_unrecognized G op_desc attr v :
  attr ∈ OpDesc.attrs op_desc -> AttrDesc.type attr = unrecognized v ->
  CreateOp_desc op_desc G = (G, Throw unknown_type_tag).
Proof.
  intros Hin Hty. unfold CreateOp_desc. unfold_M.
  by rewrite (decode_attrs_unrecognized _ _ _ _ Hin Hty).
Qed.

Lemma CreateGradOp_not_registered G op :
  grad_creators G !! type_ op = None ->
  CreateGradOp op G = (G, Throw out_of_range).
Proof.
  intros Hc. unfold CreateGradOp. unfold_M. by rewrite Hc.
Qed.

(** C7. [CreateOp] of a kind without constructor throws the not-found
    failure; [CreateOp] whose attribute map the checker of the kind rejects
    throws what the checker throws; [GetAttrValue] of a descriptor with an
    unrecognised type tag throws the decode failure, and so does [CreateOp]
    of an operator descriptor that holds such an attribute; [CreateGradOp]
    of a kind without gradient constructor throws. Each call returns the
    exception in place of a node and leaves the tables as they were. *)
Theorem failures_are_raised_and_no_node_is_returned :
  (forall G type inputs outputs attrs,
     creators G !! type = None ->
     CreateOp type inputs outputs attrs G = (G, Throw (not_found type))) /\
  (forall G type inputs outputs attrs c chk e,
     creators G !! type = Some c ->
     op_checkers G !! type = Some chk ->
     Check chk attrs = Throw e ->
     CreateOp type inputs outputs attrs G = (G, Throw e)) /\
  (forall attr v,
     AttrDesc.type attr = unrecognized v ->
     GetAttrValue attr = Throw unknown_type_tag) /\
  (forall G op_desc attr v,
     attr ∈ OpDesc.attrs op_desc ->
     AttrDesc.type attr = unrecognized v ->
     CreateOp_desc op_desc G = (G, Throw unknown_type_tag)) /\
  (forall G op,
     grad_creators G !! type_ op = None ->
     CreateGradOp op G = (G, Throw out_of_range)).
Proof.
  split; [exact CreateOp_not_found|].
  split; [exact CreateOp_check_fails|].
  split; [exact GetAttrValue_unrecognized|].
  split; [exact CreateOp_desc_unrecognized|].
  exact CreateGradOp_not_registered.
Qed.

(** C10. When the constructor of the kind is found and the attributes pass
    its checker, a kind without entry in the index table makes [CreateOp]
    neither throw nor stop: the node bound to the given names and checked
    attributes goes to [Init] with its index unset, and what [Init] returns
    is returned. *)
Theorem CreateOp_tolerates_a_missing_index G type inputs outputs attrs
    c chk attrs' :
  creators G !! type = Some c ->
  op_checkers G !! type = Some chk ->
  Check chk attrs = Ok attrs' ->
  VarIndexMaps G !! type = None ->
  exists G' op,
    CreateOp type inputs outputs attrs G = (G', Init c op) /\
    in_out_idxs_ op = None /\
    type_ op = type /\ inputs_ op = inputs /\ attrs_ op = attrs'.
Proof.
  intros Hc Hk He Hidx.
  destruct (CreateOp_checked G type inputs outputs attrs c chk attrs'
              Hc Hk He) as (G' & outputs' & _ & ->).
  eexists _, _. split; [reflexivity|]. by rewrite Hidx.
Qed.

(** ** CreateGradOp *)

Lemma index_protos_eq key G :
  index_protos key G = (touch_protos key G, Ok (proto_of G key)).
Proof.
  unfold index_protos, touch_protos, proto_of.
  by destruct (protos G !! key).
Qed.

Lemma proto_of_touch key G : proto_of (touch_protos key G) key = proto_of G key.
Proof.
  unfold touch_protos, proto_of.
  destruct (protos G !! key) eqn:E; [by rewrite E|].
  simpl. by rewrite lookup_insert_eq.
Qed.

Lemma touch_protos_idem key G :
  touch_protos key (touch_protos key G) = touch_protos key G.
Proof.
  unfold touch_protos. destruct (protos G !! key) eqn:E; simpl.
  - by rewrite E.
  - by rewrite lookup_insert_eq.
Qed.

Lemma touch_protos_set_op_checkers key checkers G :
  touch_protos key (set_op_checkers checkers G) =
  set_op_checkers checkers (touch_protos key G).
Proof. unfold touch_protos. simpl. by destruct (protos G !! key). Qed.

Lemma foldl_push_inputs (f : string -> string) l g :
  foldl (fun g name => set_inputs_ (inputs_ g ++ [f name]) g) g l =
  set_inputs_ (inputs_ g ++ (f <$> l)) g.
Proof.
  revert g. induction l as [|x l IH]; intros g; simpl.
  - rewrite app_nil_r. by destruct g.
  - rewrite IH. unfold set_inputs_. simpl. by rewrite <-app_assoc.
Qed.

Lemma foldl_push_outputs (f : string -> string) l g :
  foldl (fun g name => set_outputs_ (outputs_ g ++ [f name]) g) g l =
  set_outputs_ (outputs_ g ++ (f <$> l)) g.
Proof.
  revert g. induction l as [|x l IH]; intros g; simpl.
  - rewrite app_nil_r. by destruct g.
  - rewrite IH. unfold set_outputs_. simpl. by rewrite <-app_assoc.
Qed.

Lemma AssembleGradInOut_eq op grad_op :
  AssembleGradInOut op grad_op =
  mkOperatorBase (type_ grad_op)
    (inputs_ grad_op ++ inputs_ op ++ outputs_ op
       ++ (grad_name <$> outputs_ op))
    (outputs_ grad_op ++ (grad_name <$> inputs_ op))
    (attrs_ grad_op) (in_out_idxs_ grad_op).
Proof.
  unfold AssembleGradInOut.
  rewrite foldl_push_inputs, foldl_push_outputs.
  unfold set_inputs_, set_outputs_. simpl. by rewrite <-!app_assoc.
Qed.

(** [CreateGradOp] of a kind with a gradient constructor: the schema entry
    of the kind is read (and made, when missing), the attributes are
    derived on the wired node and the result goes to [Init]. *)
Lemma CreateGradOp_eq G op c :
  grad_creators G !! type_ op = Some c ->
  CreateGradOp op G =
  (touch_protos (type_ op) G,
   fill_grad_attrs (proto_of G (type_ op)) op
     (wired_grad_op op (proto_of G (type_ op))) ≫= Init c).
Proof.
  intros Hc. unfold CreateGradOp, GenerateGradArgOffset, GenerateGradAttr.
  unfold_M. rewrite Hc. rewrite index_protos_eq.
  rewrite index_protos_eq, touch_protos_idem, proto_of_touch.
  rewrite AssembleGradInOut_eq. simpl.
  unfold wired_grad_op, set_in_out_idxs_. simpl.
  destruct (fill_grad_attrs _ _ _); done.
Qed.

Lemma emplace_back_shifted_eq src base dst :
  emplace_back_shifted src base dst = dst ++ shifted base src.
Proof.
  unfold emplace_back_shifted, shifted. revert dst.
  induction src as [|x src IH]; intros dst; simpl.
  - by rewrite app_nil_r.
  - rewrite IH. by rewrite <-app_assoc.
Qed.

Lemma iota_seqZ l value : iota l value = seqZ value (Z.of_nat (length l)).
Proof.
  revert value. induction l as [|x l IH]; intros value; [done|].
  simpl iota. rewrite IH. simpl length.
  rewrite (seqZ_cons value) by lia. do 2 f_equal; lia.
Qed.

Lemma iota_length l value : length (iota l value) = length l.
Proof. revert value. induction l; intros; simpl; auto. Qed.

Lemma GetAttr_ints_typed op name v :
  attrs_ op !! name = Some (of_ints v) -> GetAttr_ints op name = Ok v.
Proof. intros H. unfold GetAttr_ints. by rewrite H. Qed.

Lemma in_format_eq (oi oo : list Z) (p q : Z) :
  (([] ++ shifted 0 oi) ++ shifted (0 + p) oo) ++ shifted (0 + p + q) oi =
  oi ++ shifted p oo ++ shifted (p + q) oi.
Proof.
  rewrite app_nil_l, <-app_assoc. unfold shifted.
  assert (E0 : (fun idx => idx + 0) <$> oi = oi).
  { rewrite <-(list_fmap_id oi) at 2. apply list_fmap_ext.
    intros. simpl. lia. }
  assert (E1 : (fun idx => idx + (0 + p)) <$> oo =
               (fun idx => idx + p) <$> oo).
  { apply list_fmap_ext. intros. lia. }
  assert (E2 : (fun idx => idx + (0 + p + q)) <$> oi =
               (fun idx => idx + (p + q)) <$> oi).
  { apply list_fmap_ext. intros. lia. }
  by rewrite E0, E1, E2.
Qed.

Lemma fill_grad_attrs_typed op_proto op grad_op fi fo :
  attrs_ op !! "input_format" = of_ints <$> fi ->
  attrs_ op !! "output_format" = of_ints <$> fo ->
  fill_grad_attrs op_proto op grad_op =
  Ok (set_attrs_ (derived_attrs op_proto op fi fo) grad_op).
Proof.
  intros Hi Ho.
  unfold fill_grad_attrs, derived_attrs, old_format, grad_in_format.
  rewrite Hi, Ho.
  destruct fi as [fi|], fo as [fo|]; simpl;
    rewrite ?(GetAttr_ints_typed _ _ _ Hi), ?(GetAttr_ints_typed _ _ _ Ho);
    simpl; rewrite ?emplace_back_shifted_eq, ?in_format_eq; reflexivity.
Qed.

(** [GenerateGradAttr] writes the attribute map only. *)
Lemma fill_grad_attrs_frame op_proto op grad_op grad_op' :
  fill_grad_attrs op_proto op grad_op = Ok grad_op' ->
  type_ grad_op' = type_ grad_op /\
  inputs_ grad_op' = inputs_ grad_op /\
  outputs_ grad_op' = outputs_ grad_op /\
  in_out_idxs_ grad_op' = in_out_idxs_ grad_op.
Proof.
  unfold fill_grad_attrs.
  destruct (bool_decide (is_Some (attrs_ op !! "input_format")));
    destruct (bool_decide (is_Some (attrs_ op !! "output_format"))); simpl;
    try destruct (GetAttr_ints op "input_format"); simpl;
    try destruct (GetAttr_ints op "output_format"); simpl;
    intros [= <-]; done.
Qed.

Lemma typed_formats op :
  format_attrs_typed op ->
  exists fi fo,
    attrs_ op !! "input_format" = of_ints <$> fi /\
    attrs_ op !! "output_format" = of_ints <$> fo.
Proof.
  intros [Hi Ho]. unfold int_list_or_absent in *.
  destruct (attrs_ op !! "input_format") as [[]|] eqn:Ei; try done;
    destruct (attrs_ op !! "output_format") as [[]|] eqn:Eo; try done.
  - by eexists (Some _), (Some _).
  - by eexists (Some _), None.
  - by eexists None, (Some _).
  - by exists None, None.
Qed.

Lemma CreateGradOp_typed G op c fi fo :
  grad_creators G !! type_ op = Some c ->
  attrs_ op !! "input_format" = of_ints <$> fi ->
  attrs_ op !! "output_format" = of_ints <$> fo ->
  CreateGradOp op G =
    (touch_protos (type_ op) G, Init c (derived_grad_op G op fi fo)).
Proof.
  intros Hc Hi Ho. rewrite (CreateGradOp_eq _ _ _ Hc).
  by rewrite (fill_grad_attrs_typed _ _ _ _ _ Hi Ho).
Qed.

(** Whatever [CreateGradOp] returns came out of [Init], run on a node with
    the wiring, kind name and index of the wired node. *)
Lemma CreateGradOp_returned G op c G' g :
  grad_creators G !! type_ op = Some c ->
  CreateGradOp op G = (G', Ok g) ->
  exists grad_op,
    Init c grad_op = Ok g /\
    type_ grad_op = type_ op /\
    grad_wiring op grad_op /\
    in_out_idxs_ grad_op = Some (fill_grad_varmap (proto_of G (type_ op))).
Proof.
  intros Hc. rewrite (CreateGradOp_eq _ _ _ Hc).
  destruct (fill_grad_attrs _ _ _) as [grad_op|e] eqn:E; simpl; [|done].
  intros [= _ H]. exists grad_op. split; [done|].
  apply fill_grad_attrs_frame in E as (-> & Hin & Hout & ->).
  unfold grad_wiring. rewrite Hin, Hout. done.
Qed.


(** C9. The node that [CreateGradOp] hands to [Init], and so the node it
    returns when [Init] is the empty one of [OperatorBase], has the kind
    name of the forward node, although it was made by the gradient
    constructor. No attribute checker takes part: with any other table of
    checkers in place of [op_checkers], [CreateGradOp] returns the same and
    leaves the other tables the same. *)
Theorem CreateGradOp_keeps_type_and_runs_no_checker G op c :
  grad_creators G !! type_ op = Some c ->
  (forall G' g, CreateGradOp op G = (G', Ok g) ->
     exists grad_op, Init c grad_op = Ok g /\ type_ grad_op = type_ op) /\
  (format_attrs_typed op ->
   exists G' grad_op,
     CreateGradOp op G = (G', Init c grad_op) /\
     type_ grad_op = type_ op) /\
  (forall G' r checkers,
     CreateGradOp op G = (G', r) ->
     CreateGradOp op (set_op_checkers checkers G) =
     (set_op_checkers checkers G', r)).
Proof.
  intros Hc. split; [|split].
  - intros G' g H.
    destruct (CreateGradOp_returned G op c G' g Hc H) as (x & ? & ? & ? & ?).
    by exists x.
  - intros Ht. destruct (typed_formats op Ht) as (fi & fo & Hi & Ho).
    rewrite (CreateGradOp_typed G op c fi fo Hc Hi Ho).
    eexists _, _. split; [reflexivity|]. done.
  - intros G' r checkers.
    rewrite (CreateGradOp_eq _ _ _ Hc).
    rewrite (CreateGradOp_eq (set_op_checkers checkers G) _ _ Hc).
    rewrite touch_protos_set_op_checkers.
    change (proto_of (set_op_checkers checkers G) (type_ op))
      with (proto_of G (type_ op)).
    by intros [= <- <-].
Qed.

Lemma old_format_like fmt n : offsets_like fmt n (old_format fmt n).
Proof.
  unfold offsets_like, old_format. destruct fmt as [l|]; simpl.
  - apply iota_length.
  - by rewrite iota_seqZ, length_replicate.
Qed.

Lemma derived_attrs_format_attrs op_proto op fi fo :
  derived_format_attrs op_proto op
    (set_attrs_ (derived_attrs op_proto op fi fo)
                (wired_grad_op op op_proto)) fi fo.
Proof.
  unfold derived_format_attrs, derived_attrs, grad_in_format. simpl.
  split.
  - intros name H1 H2.
    destruct fi, fo; rewrite ?lookup_insert_ne, !lookup_delete_ne by done;
      done.
  - destruct fi as [fi|], fo as [fo|].
    + exists (old_format (Some fi) (OpProto.inputs_size op_proto)),
             (old_format (Some fo) (OpProto.outputs_size op_proto)).
      split; [apply old_format_like|]. split; [apply old_format_like|].
      rewrite lookup_insert_ne, !lookup_insert_eq by done. done.
    + exists (old_format (Some fi) (OpProto.inputs_size op_proto)),
             (old_format None (OpProto.outputs_size op_proto)).
      split; [apply old_format_like|]. split; [apply old_format_like|].
      rewrite lookup_insert_ne, !lookup_insert_eq by done. done.
    + exists (old_format None (OpProto.inputs_size op_proto)),
             (old_format (Some fo) (OpProto.outputs_size op_proto)).
      split; [apply old_format_like|]. split; [apply old_format_like|].
      rewrite lookup_insert_eq, lookup_insert_ne, lookup_delete_eq by done.
      done.
    + rewrite lookup_delete_ne, !lookup_delete_eq by done. done.
Qed.

(** C1, as amended. For a forward node whose kind has a gradient
    constructor and whose format attributes, when bound, are lists of
    integers, [CreateGradOp] hands to [Init] a node that copies every
    other attribute of the forward node and, when the forward node has
    neither format attribute, has none. When the forward node has one of
    them, the [input_format] of the gradient node is made of three
    segments: offsets for the forward inputs, offsets for the forward
    outputs shifted by the number of bound forward inputs, and the first
    segment again, shifted by the number of bound forward inputs and
    outputs. A side of the forward node without format attribute gives the
    offsets [0, 1, ..., n-1] of its [n] declared slots; a side with one
    gives as many offsets as the attribute holds. The gradient node has an
    [output_format] exactly when the forward node has an [input_format],
    and it is the first segment. *)
Theorem CreateGradOp_format_attrs G op c fi fo :
  grad_creators G !! type_ op = Some c ->
  attrs_ op !! "input_format" = of_ints <$> fi ->
  attrs_ op !! "output_format" = of_ints <$> fo ->
  exists G' grad_op,
    CreateGradOp op G = (G', Init c grad_op) /\
    derived_format_attrs (proto_of G (type_ op)) op grad_op fi fo.
Proof.
  intros Hc Hi Ho. rewrite (CreateGradOp_typed G op c fi fo Hc Hi Ho).
  eexists _, _. split; [reflexivity|].
  apply derived_attrs_format_attrs.
Qed.

(** X1. A bound [input_format] is read and then overwritten by
    [std::iota], which runs after both branches of the conditional
    expression: only its length reaches the gradient node, whose
    [output_format] is [0, 1, ..., n-1] for an [input_format] of [n]
    entries, whatever the entries are. *)
Lemma GenerateGradAttr_keeps_the_length_only G op c fi fo :
  grad_creators G !! type_ op = Some c ->
  attrs_ op !! "input_format" = Some (of_ints fi) ->
  attrs_ op !! "output_format" = of_ints <$> fo ->
  exists G' grad_op,
    CreateGradOp op G = (G', Init c grad_op) /\
    attrs_ grad_op !! "output_format" =
      Some (of_ints (seqZ 0 (Z.of_nat (length fi)))).
Proof.
  intros Hc Hi Ho.
  rewrite (CreateGradOp_typed G op c (Some fi) fo Hc Hi Ho).
  eexists _, _. split; [reflexivity|].
  unfold derived_grad_op, derived_attrs, old_format. simpl.
  rewrite lookup_insert_eq. by rewrite iota_seqZ.
Qed.

Lemma assign_offsets_snd names varmap idx :
  (assign_offsets names varmap idx).2 = idx + Z.of_nat (length names).
Proof.
  revert varmap idx. induction names as [|x names IH]; intros; simpl.
  - lia.
  - rewrite IH. lia.
Qed.

Lemma assign_offsets_other names varmap idx x :
  x ∉ names -> (assign_offsets names varmap idx).1 !! x = varmap !! x.
Proof.
  revert varmap idx. induction names as [|y names IH]; intros varmap idx Hx;
    simpl; [done|].
  apply not_elem_of_cons in Hx as [Hxy Hx].
  rewrite IH by done. by rewrite lookup_insert_ne.
Qed.

Lemma assign_offsets_lookup names varmap idx i x :
  NoDup names -> names !! i = Some x ->
  (assign_offsets names varmap idx).1 !! x = Some (idx + Z.of_nat i).
Proof.
  revert varmap idx i. induction names as [|y names IH];
    intros varmap idx i Hnd Hi; [done|].
  apply NoDup_cons in Hnd as [Hy Hnd]. destruct i as [|i]; simpl in *.
  - injection Hi as ->. rewrite assign_offsets_other by done.
    rewrite lookup_insert_eq. f_equal. lia.
  - rewrite (IH _ _ i) by done. f_equal. lia.
Qed.

Lemma fill_grad_varmap_eq op_proto :
  fill_grad_varmap op_proto =
  let ins := OpProto.input_names op_proto in
  let outs := OpProto.output_names op_proto in
  let p := Z.of_nat (length ins) in
  let q := Z.of_nat (length outs) in
  (assign_offsets (grad_name <$> ins)
     (assign_offsets (grad_name <$> outs)
        (assign_offsets outs (assign_offsets ins ∅ 0).1 p).1 (p + q)).1 0).1.
Proof.
  unfold fill_grad_varmap. cbv zeta.
  destruct (assign_offsets (OpProto.input_names op_proto) ∅ 0)
    as [m1 i1] eqn:E1.
  pose proof (assign_offsets_snd (OpProto.input_names op_proto) ∅ 0) as H1.
  rewrite E1, Z.add_0_l in H1. simpl in H1. subst i1. cbn [fst].
  destruct (assign_offsets (OpProto.output_names op_proto) m1 _)
    as [m2 i2] eqn:E2.
  pose proof (assign_offsets_snd (OpProto.output_names op_proto) m1
                (Z.of_nat (length (OpProto.input_names op_proto)))) as H2.
  rewrite E2 in H2. simpl in H2. subst i2. cbn [fst].
  destruct (assign_offsets (grad_name <$> OpProto.output_names op_proto)
              m2 _) as [m3 i3] eqn:E3. cbn [fst].
  destruct (assign_offsets (grad_name <$> OpProto.input_names op_proto)
              m3 0) as [m4 i4] eqn:E4.
  reflexivity.
Qed.

Lemma append_length s1 s2 :
  String.length (s1 +:+ s2) = (String.length s1 + String.length s2)%nat.
Proof.
  induction s1 as [|c s1 IH]; [done|].
  change (S (String.length (s1 +:+ s2)) =
          S (String.length s1 + String.length s2)).
  by rewrite IH.
Qed.

Lemma append_inv_tail s1 s2 t : s1 +:+ t = s2 +:+ t -> s1 = s2.
Proof.
  revert s2. induction s1 as [|c s1 IH]; intros [|c' s2] H.
  - done.
  - apply (f_equal String.length) in H.
    rewrite !append_length in H. simpl in H. lia.
  - apply (f_equal String.length) in H.
    rewrite !append_length in H. simpl in H. lia.
  - change (String c (s1 +:+ t) = String c' (s2 +:+ t)) in H.
    injection H as -> H. f_equal. by apply IH.
Qed.

Global Instance grad_name_inj : Inj (=) (=) grad_name.
Proof. intros x y. apply append_inv_tail. Qed.

Lemma fill_grad_varmap_continuous op_proto :
  NoDup (OpProto.input_names op_proto ++ OpProto.output_names op_proto) ->
  no_slot_named_like_a_gradient op_proto ->
  continuous_offsets op_proto (fill_grad_varmap op_proto).
Proof.
  intros Hnd Hforall. rewrite fill_grad_varmap_eq.
  unfold continuous_offsets, no_slot_named_like_a_gradient in *.
  set (ins := OpProto.input_names op_proto) in *.
  set (outs := OpProto.output_names op_proto) in *.
  cbv zeta in *.
  assert (Hgrad : forall x y, x ∈ ins ++ outs -> y ∈ ins ++ outs ->
                              x <> grad_name y).
  { intros x y Hx Hy. rewrite Forall_forall in Hforall.
    specialize (Hforall x Hx). rewrite Forall_forall in Hforall. auto. }
  apply NoDup_app in Hnd as (Hins & Hdisj & Houts).
  assert (Hgi : NoDup (grad_name <$> ins)).
  { apply NoDup_fmap_2; [apply _|done]. }
  assert (Hgo : NoDup (grad_name <$> outs)).
  { apply NoDup_fmap_2; [apply _|done]. }
  assert (Hplain : forall x, x ∈ ins ++ outs ->
            (x ∉ (grad_name <$> ins)) /\ (x ∉ (grad_name <$> outs))).
  { intros x Hx. split; intros (y & -> & Hy)%list_elem_of_fmap;
      eapply (Hgrad (grad_name y) y); auto; apply elem_of_app; auto. }
  split.
  - intros i x Hi.
    assert (Hx : x ∈ ins) by (eapply list_elem_of_lookup_2; eauto).
    destruct (Hplain x) as [Hx1 Hx2]; [apply elem_of_app; auto|].
    split.
    + rewrite !assign_offsets_other by auto.
      rewrite (assign_offsets_lookup ins _ _ i) by done. f_equal; lia.
    + rewrite (assign_offsets_lookup _ _ _ i); [f_equal; lia|done|].
      by rewrite list_lookup_fmap, Hi.
  - intros j y Hj.
    assert (Hy : y ∈ outs) by (eapply list_elem_of_lookup_2; eauto).
    destruct (Hplain y) as [Hy1 Hy2]; [apply elem_of_app; auto|].
    split.
    + rewrite !assign_offsets_other by auto.
      rewrite (assign_offsets_lookup outs _ _ j) by done. f_equal; lia.
    + rewrite assign_offsets_other.
      * rewrite (assign_offsets_lookup _ _ _ j); [f_equal; lia|done|].
        by rewrite list_lookup_fmap, Hj.
      * intros (x & E & Hx)%list_elem_of_fmap. apply (inj _) in E. subst x.
        by apply (Hdisj y).
Qed.

(** C2, as amended. For a forward node of a registered kind whose slot
    names are distinct (as [Validate] requires) and none of which is named
    like the gradient of a slot, the index that [CreateGradOp] attaches to
    the node it hands to [Init] maps the input slots to [0..p-1], the
    output slots to [p..p+q-1], the output slots with the gradient suffix
    to [p+q..p+2q-1] and the input slots with the gradient suffix to
    [0..p-1]. *)
Theorem CreateGradOp_arg_offsets G op c op_proto :
  grad_creators G !! type_ op = Some c ->
  format_attrs_typed op ->
  protos G !! type_ op = Some op_proto ->
  NoDup (OpProto.input_names op_proto ++ OpProto.output_names op_proto) ->
  no_slot_named_like_a_gradient op_proto ->
  exists G' grad_op idxs,
    CreateGradOp op G = (G', Init c grad_op) /\
    in_out_idxs_ grad_op = Some idxs /\
    continuous_offsets op_proto idxs.
Proof.
  intros Hc Ht Hp Hnd Hgrad.
  destruct (typed_formats op Ht) as (fi & fo & Hi & Ho).
  rewrite (CreateGradOp_typed G op c fi fo Hc Hi Ho).
  eexists _, _, _. split; [reflexivity|]. split; [reflexivity|].
  unfold proto_of. rewrite Hp. simpl.
  by apply fill_grad_varmap_continuous.
Qed.

(** ** PlainNet *)

Section PlainNet_facts.

Context {Operator Scope DeviceContext World : Type}.
Variable Operator_InferShape : Operator -> World -> World * result unit.
Variable Operator_Run :
  Operator -> DeviceContext -> World -> World * result unit.

Lemma invoke_InferShape_calls_once :
  calls_once (DeviceContext := DeviceContext)
    (invoke_InferShape Operator_InferShape) call_InferShape.
Proof.
  intros op [w calls]. unfold invoke_InferShape. simpl.
  by destruct (Operator_InferShape op w).
Qed.

Lemma invoke_Run_calls_once (ctx : DeviceContext) :
  calls_once (fun op => invoke_Run Operator_Run op ctx)
             (fun op => call_Run op ctx).
Proof.
  intros op [w calls]. unfold invoke_Run. simpl.
  by destruct (Operator_Run op ctx w).
Qed.

(** The loop calls the body on the nodes in the order of the list and stops
    at the first that throws. *)
Lemma for_each_op_prefix
    (body : Operator -> @Pass Operator DeviceContext World unit) mk ops st :
  calls_once body mk ->
  exists k, (k <= length ops)%nat /\
    (for_each_op body ops st).1.2 = st.2 ++ (mk <$> take k ops) /\
    (is_Ok (for_each_op body ops st).2 = true -> k = length ops).
Proof.
  intros Hbody. revert st. induction ops as [|op ops IH]; intros st; simpl.
  - exists 0%nat. rewrite app_nil_r. done.
  - specialize (Hbody op st) as Hop.
    destruct (body op st) as [st1 [[]|e]] eqn:E; simpl in Hop.
    + destruct (IH st1) as (k & Hk & Hcalls & Hok).
      exists (S k). split; [lia|]. split.
      * rewrite Hcalls, Hop. simpl. by rewrite <-app_assoc.
      * intros H. by rewrite Hok.
    + exists 1%nat. split; [lia|]. split; [|done].
      simpl. by rewrite Hop, ?take_0.
Qed.

Lemma for_each_op_returns
    (body : Operator -> @Pass Operator DeviceContext World unit) ops st :
  (forall op st, is_Ok (body op st).2 = true) ->
  (for_each_op body ops st).2 = Ok tt.
Proof.
  intros Hbody. revert st. induction ops as [|op ops IH]; intros st; simpl.
  - done.
  - specialize (Hbody op st).
    destruct (body op st) as [st1 [[]|e]]; [apply IH|done].
Qed.

Lemma last_cons_default {A} (x d : A) l :
  default d (last (x :: l)) = default x (last l).
Proof. rewrite last_cons. by destruct (last l). Qed.

(** The loop runs the nodes in turn: every node works on the state that the
    node before it left, and the loop stops at the first that throws, with
    what it throws and in the state it left. *)
Lemma for_each_op_visits
    (body : Operator -> @Pass Operator DeviceContext World unit)
    (f : Operator -> World -> World * result unit) mk ops st :
  (forall op st,
     body op st = ((f op st.1).1, st.2 ++ [mk op], (f op st.1).2)) ->
  match for_each_op body ops st with
  | (st', Ok _) =>
      exists ws,
        run_in_turn f ops st.1 ws /\
        st'.1 = default st.1 (last ws) /\
        st'.2 = st.2 ++ (mk <$> ops)
  | (st', Throw e) =>
      exists k op ws,
        ops !! k = Some op /\
        run_in_turn f (take k ops) st.1 ws /\
        f op (default st.1 (last ws)) = (st'.1, Throw e) /\
        st'.2 = st.2 ++ (mk <$> take (S k) ops)
  end.
Proof.
  intros Hbody. revert st. induction ops as [|op ops IH]; intros st.
  - simpl. exists []. by rewrite app_nil_r.
  - simpl. rewrite Hbody.
    destruct (f op st.1) as [w [[]|e]] eqn:E; simpl.
    + specialize (IH (w, st.2 ++ [mk op])).
      destruct (for_each_op body ops _) as [st' [[]|e]]; simpl in IH.
      * destruct IH as (ws & Hrun & Hw & Hcalls).
        exists (w :: ws). split; [done|]. split.
        -- by rewrite last_cons_default.
        -- by rewrite Hcalls, <-app_assoc.
      * destruct IH as (k & op' & ws & Hk & Hrun & Hop & Hcalls).
        exists (S k), op', (w :: ws). split; [done|]. split; [done|].
        split.
        -- by rewrite last_cons_default.
        -- rewrite Hcalls, <-app_assoc. done.
    + exists 0%nat, op, []. simpl. split; [done|]. split; [done|].
      split; [done|]. done.
Qed.

Lemma PlainNet_InferShape_visits (this : PlainNet) (scope : Scope)
    (st : World * list (@member_call Operator DeviceContext)) :
  pass_visits Operator_InferShape call_InferShape this st
    (PlainNet_InferShape Operator_InferShape this scope st).
Proof.
  pose proof (for_each_op_visits (invoke_InferShape Operator_InferShape)
                Operator_InferShape call_InferShape (ops_ this) st) as H.
  unfold pass_visits, PlainNet_InferShape.
  destruct (for_each_op _ (ops_ this) st) as [st' [[]|e]]; simpl.
  - split; [done|]. apply H. intros op [w calls].
    unfold invoke_InferShape. simpl. by destruct (Operator_InferShape op w).
  - apply H. intros op [w calls].
    unfold invoke_InferShape. simpl. by destruct (Operator_InferShape op w).
Qed.

Lemma PlainNet_Run_visits (this : PlainNet) (scope : Scope)
    (ctx : DeviceContext) (st : World * list member_call) :
  pass_visits (fun op => Operator_Run op ctx) (fun op => call_Run op ctx)
    this st (PlainNet_Run Operator_Run this scope ctx st).
Proof.
  pose proof (for_each_op_visits (fun op => invoke_Run Operator_Run op ctx)
                (fun op => Operator_Run op ctx) (fun op => call_Run op ctx)
                (ops_ this) st) as H.
  unfold pass_visits, PlainNet_Run.
  destruct (for_each_op _ (ops_ this) st) as [st' [[]|e]]; simpl.
  - split; [done|]. apply H. intros op [w calls].
    unfold invoke_Run. simpl. by destruct (Operator_Run op ctx w).
  - apply H. intros op [w calls].
    unfold invoke_Run. simpl. by destruct (Operator_Run op ctx w).
Qed.

(** C8, as amended. For every net, whatever its nodes do, [InferShape]
    calls [InferShape()] on every node of [ops_], once each and in the
    order of the list, without the store: the scope that the pass receives
    is handed to no node, and the pass does the same for every scope. The
    first node works on the state the pass starts in and every other node
    on the state that the node before it left; when the pass returns, the
    state is the one the last node left and the net is as it was. A pass
    that a throwing node stops has run the nodes before that one, throws
    what the node threw and leaves the state the node left; when no node
    throws, the pass returns. The same holds for [Run], whose calls pass
    the device context that the net was given, and not the scope. *)
Theorem PlainNet_passes_visit_in_order (this : PlainNet) (scope : Scope)
    (ctx : DeviceContext) (st : World * list member_call) :
  ((visited_a_prefix call_InferShape (ops_ this) st.2
     (PlainNet_InferShape Operator_InferShape this scope st).1.2 /\
   (forall net,
      (PlainNet_InferShape Operator_InferShape this scope st).2 = Ok net ->
      net = this /\
      visited_in_order call_InferShape (ops_ this) st.2
        (PlainNet_InferShape Operator_InferShape this scope st).1.2) /\
   ((forall op w, is_Ok (Operator_InferShape op w).2 = true) ->
    (PlainNet_InferShape Operator_InferShape this scope st).2 = Ok this)) /\
  (visited_a_prefix (fun op => call_Run op ctx) (ops_ this) st.2
     (PlainNet_Run Operator_Run this scope ctx st).1.2 /\
   (forall net,
      (PlainNet_Run Operator_Run this scope ctx st).2 = Ok net ->
      net = this /\
      visited_in_order (fun op => call_Run op ctx) (ops_ this) st.2
        (PlainNet_Run Operator_Run this scope ctx st).1.2) /\
   ((forall op w, is_Ok (Operator_Run op ctx w).2 = true) ->
    (PlainNet_Run Operator_Run this scope ctx st).2 = Ok this))) /\
  pass_visits Operator_InferShape call_InferShape this st
    (PlainNet_InferShape Operator_InferShape this scope st) /\
  pass_visits (fun op => Operator_Run op ctx) (fun op => call_Run op ctx)
    this st (PlainNet_Run Operator_Run this scope ctx st) /\
  (forall scope' : Scope,
     PlainNet_InferShape Operator_InferShape this scope' st =
       PlainNet_InferShape Operator_InferShape this scope st /\
     PlainNet_Run Operator_Run this scope' ctx st =
       PlainNet_Run Operator_Run this scope ctx st).
Proof.
  split; [|split; [apply PlainNet_InferShape_visits|
    split; [apply PlainNet_Run_visits|done]]].
  split.
  - destruct (for_each_op_prefix _ _ (ops_ this) st
                invoke_InferShape_calls_once) as (k & Hk & Hcalls & Hok).
    pose proof (for_each_op_returns
                  (invoke_InferShape Operator_InferShape) (ops_ this) st)
      as Hret.
    unfold PlainNet_InferShape.
    destruct (for_each_op _ (ops_ this) st) as [st1 [[]|e]]; simpl in *.
    + split; [by exists k|]. split.
      * intros net [= <-]. split; [done|].
        unfold visited_in_order. rewrite Hcalls, Hok by done.
        by rewrite firstn_all.
      * done.
    + split; [by exists k|]. split; [done|].
      intros Hall. exfalso.
      assert (@Throw unit e = Ok tt) as Habs; [|done].
      apply Hret. intros op [w calls]. unfold invoke_InferShape. simpl.
      specialize (Hall op w). by destruct (Operator_InferShape op w).
  - destruct (for_each_op_prefix _ _ (ops_ this) st
                (invoke_Run_calls_once ctx)) as (k & Hk & Hcalls & Hok).
    pose proof (for_each_op_returns
                  (fun op => invoke_Run Operator_Run op ctx) (ops_ this) st)
      as Hret.
    unfold PlainNet_Run.
    destruct (for_each_op _ (ops_ this) st) as [st1 [[]|e]]; simpl in *.
    + split; [by exists k|]. split.
      * intros net [= <-]. split; [done|].
        unfold visited_in_order. rewrite Hcalls, Hok by done.
        by rewrite firstn_all.
      * done.
    + split; [by exists k|]. split; [done|].
      intros Hall. exfalso.
      assert (@Throw unit e = Ok tt) as Habs; [|done].
      apply Hret. intros op [w calls]. unfold invoke_Run. simpl.
      specialize (Hall op w). by destruct (Operator_Run op ctx w).
Qed.

End PlainNet_facts.

(** ** The name that Validate reports *)

Lemma for_each_checker_first l names e :
  for_each_checker l names = Throw e ->
  exists (i : nat) name,
    l !! i = Some name /\ e = duplicated_error name /\
    (name ∈ names \/ name ∈ take i l) /\
    NoDup (take i l) /\ (forall x, x ∈ take i l -> x ∉ names).
Proof.
  revert names. induction l as [|x l IH]; intros names; simpl; [done|].
  destruct (decide (x ∈ names)) as [Hin|Hin].
  - rewrite checker_seen by done. simpl. intros [= <-].
    exists 0%nat, x. simpl. split; [done|]. split; [done|].
    split; [by left|]. split; [constructor|].
    intros y Hy. by apply elem_of_nil in Hy.
  - rewrite checker_fresh by done. simpl. intros H.
    apply IH in H as (i & name & Hi & -> & Hor & Hnd & Hdisj).
    exists (S i), name. simpl. split; [done|]. split; [done|].
    assert (Hx : x ∉ take i l).
    { intros Hx. apply (Hdisj x Hx). apply elem_of_union. left.
      by apply elem_of_singleton. }
    split; [|split].
    + destruct Hor as [[Hn|Hn]%elem_of_union|Hn].
      * right. apply elem_of_singleton in Hn as ->. left.
      * by left.
      * right. by right.
    + by constructor.
    + intros y [->|Hy]%elem_of_cons; [done|].
      intros Hyn. apply (Hdisj y Hy). apply elem_of_union. by right.
Qed.

Lemma first_repeated_unique l n1 n2 :
  first_repeated n1 l -> first_repeated n2 l -> n1 = n2.
Proof.
  intros (i1 & H1 & Hin1 & Hnd1) (i2 & H2 & Hin2 & Hnd2).
  assert (Hlt : forall i j n (Hi : l !! i = Some n),
            n ∈ take i l -> (i < j)%nat -> ~ NoDup (take j l)).
  { intros i j n Hi Hin Hij Hnd.
    apply list_elem_of_lookup in Hin as [k Hk].
    assert (Hki : (k < i)%nat).
    { apply lookup_lt_Some in Hk. rewrite length_take in Hk. lia. }
    rewrite lookup_take_lt in Hk by done.
    assert (k = i); [|lia].
    eapply (NoDup_lookup (take j l)); [done| |].
    - rewrite lookup_take_lt by lia. exact Hk.
    - rewrite lookup_take_lt by lia. exact Hi. }
  destruct (Nat.lt_trichotomy i1 i2) as [Hc|[Hc|Hc]].
  - by destruct (Hlt i1 i2 n1 H1 Hin1 Hc).
  - subst. rewrite H1 in H2. by injection H2.
  - by destruct (Hlt i2 i1 n2 H2 Hin2 Hc).
Qed.

(** X19. The failure of [Validate] names one name, the one that the walk
    over the attributes, then the inputs, then the outputs meets first with
    an earlier occurrence: the names before it are distinct, and no other
    name of the schema is in that position. *)
Theorem Validate_reports_the_first_repeated_name
    (m : OpProtoAndCheckerMaker) (e : exn) :
  (Validate m).2 = Throw e ->
  exists name,
    e = duplicated_error name /\
    first_repeated name (declared_names m) /\
    forall name', first_repeated name' (declared_names m) -> name' = name.
Proof.
  unfold Validate. simpl. rewrite CheckNoDuplicatedInOutAttrs_eq.
  change (declared_names (set_validated_ true m)) with (declared_names m).
  destruct (for_each_checker _ ∅) as [s|e'] eqn:E; simpl; [done|].
  intros [= <-].
  apply for_each_checker_first in E as (i & name & Hi & -> & Hor & Hnd & _).
  assert (Hfirst : first_repeated name (declared_names m)).
  { exists i. split; [done|]. split; [|done].
    destruct Hor as [Hn|Hn]; [by apply not_elem_of_empty in Hn|done]. }
  exists name. split; [done|]. split; [done|].
  intros name' H'. by apply (first_repeated_unique (declared_names m)).
Qed.

(** ** What a maker builds *)

(** One declaration: the slot it appends, the comment it sets; it writes
    neither the kind name nor the mark of [Validate]. *)
Lemma declare_slots m d :
  OpProto.inputs (proto_ (declare m d)) =
    OpProto.inputs (proto_ m) ++ option_list (input_declared d) /\
  OpProto.outputs (proto_ (declare m d)) =
    OpProto.outputs (proto_ m) ++ option_list (output_declared d) /\
  OpProto.comment (proto_ (declare m d)) =
    match comment_declared d with
    | Some c => Some c
    | None => OpProto.comment (proto_ m)
    end /\
  OpProto.type (proto_ (declare m d)) = OpProto.type (proto_ m) /\
  validated_ (declare m d) = validated_ m.
Proof.
  destruct m as [[ins outs ats cm ty] ks v f1 f2 f3].
  destruct d as [n c mu|n c|n c te mu|n c te|T n c g chain|c];
    unfold declare, AddInputs, AddOutputs,
      AddInput, AddOutput, AddComment, SetHasMultipleInput,
      SetHasMultipleOutput, SetHasMultiple, SetHasTemporaryOutput; simpl.
  all: try (destruct mu); try (destruct te);
    try (destruct f1); try (destruct f2); try (destruct f3); simpl;
    try (unfold AddAttr, set_op_checker_, set_proto_, AddAttrChecker; simpl;
         rewrite chained_fold; simpl);
    rewrite ?app_nil_r; done.
Qed.

Lemma foldl_declare_slots ds m :
  OpProto.inputs (proto_ (foldl declare m ds)) =
    OpProto.inputs (proto_ m) ++ omap input_declared ds /\
  OpProto.outputs (proto_ (foldl declare m ds)) =
    OpProto.outputs (proto_ m) ++ omap output_declared ds /\
  OpProto.comment (proto_ (foldl declare m ds)) =
    match last (omap comment_declared ds) with
    | Some c => Some c
    | None => OpProto.comment (proto_ m)
    end /\
  OpProto.type (proto_ (foldl declare m ds)) = OpProto.type (proto_ m) /\
  validated_ (foldl declare m ds) = validated_ m.
Proof.
  revert m. induction ds as [|d ds IH]; intros m; simpl.
  - by rewrite !app_nil_r.
  - destruct (IH (declare m d)) as (-> & -> & -> & -> & ->).
    destruct (declare_slots m d) as (-> & -> & -> & -> & ->).
    rewrite <-!app_assoc.
    split; [by destruct (input_declared d)|].
    split; [by destruct (output_declared d)|].
    split; [|done].
    destruct (comment_declared d) as [c|]; [|done].
    rewrite last_cons. by destruct (last _).
Qed.

(** X13. The schema that a maker leaves lists the slots it held followed
    by the slots of the maker's declarations, in the order of the
    declarations, inputs and outputs apart: [AddInputs] and [AddOutputs]
    are [AddInput] and [AddOutput] with [multiple] set, an output carries
    the [temporary] and [multiple] flags it was declared with and an input
    is never temporary. The comment is that of the last [AddComment], or
    the one the schema had; the kind name is not written. No declaration
    sets the mark of [Validate]. *)
Theorem construct_keeps_the_declaration_order (maker : ProtoMakerType)
    (proto : OpProto.t) (op_checker : OpAttrChecker) :
  let m := construct maker proto op_checker in
  OpProto.inputs (proto_ m) =
    OpProto.inputs proto ++ omap input_declared maker /\
  OpProto.outputs (proto_ m) =
    OpProto.outputs proto ++ omap output_declared maker /\
  OpProto.comment (proto_ m) =
    match last (omap comment_declared maker) with
    | Some c => Some c
    | None => OpProto.comment proto
    end /\
  OpProto.type (proto_ m) = OpProto.type proto /\
  validated_ m = false.
Proof.
  cbv zeta. unfold construct.
  destruct (foldl_declare_slots maker
              (new_OpProtoAndCheckerMaker proto op_checker))
    as (Hi & Ho & Hc & Ht & Hv).
  done.
Qed.

Lemma foldl_declare_attrs ds m :
  exists added,
    OpProto.attrs (proto_ (foldl declare m ds)) =
      OpProto.attrs (proto_ m) ++ added /\
    forall T n c g chain, call_AddAttr T n c g chain ∈ ds ->
      AttrProto.mk n T c g ∈ added.
Proof.
  revert m. induction ds as [|d ds IH]; intros m; simpl.
  - exists []. split; [by rewrite app_nil_r|].
    intros T n c g chain H. by apply elem_of_nil in H.
  - destruct (IH (declare m d)) as (added & -> & Hadded).
    destruct (declare_step m d) as (-> & _).
    exists (attrs_added m d ++ added). split; [by rewrite app_assoc|].
    intros T n c g chain [E|H]%elem_of_cons; subst; apply elem_of_app.
    + left. unfold attrs_added. rewrite !elem_of_app. do 3 right.
      by apply list_elem_of_singleton.
    + right. eauto.
Qed.

(** The names of the schema that a maker has built are the names the schema
    held and the names added, those of the maker's declarations among
    them. *)
Lemma construct_names maker proto op_checker :
  exists added,
    schema_names (proto_ (construct maker proto op_checker))
      ≡ₚ schema_names proto ++ added /\
    forall d x, d ∈ maker -> name_declared d = Some x -> x ∈ added.
Proof.
  unfold schema_names, construct.
  set (m := new_OpProtoAndCheckerMaker proto op_checker).
  destruct (foldl_declare_slots maker m) as (Hi & Ho & _).
  destruct (foldl_declare_attrs maker m) as (added & Ha & Hadded).
  unfold OpProto.attr_names, OpProto.input_names, OpProto.output_names.
  rewrite Hi, Ho, Ha. simpl. rewrite !fmap_app.
  exists ((AttrProto.name <$> added)
          ++ (VarProto.name <$> omap input_declared maker)
          ++ (VarProto.name <$> omap output_declared maker)).
  split; [solve_Permutation|].
  intros d x Hd Hx. rewrite !elem_of_app, !list_elem_of_fmap.
  destruct d as [n c mu|n c|n c te mu|n c te|T n c g chain|c];
    simplify_eq/=.
  - right. left. eexists. split; [|apply list_elem_of_omap; eexists;
      split; [exact Hd|reflexivity]]. done.
  - right. left. eexists. split; [|apply list_elem_of_omap; eexists;
      split; [exact Hd|reflexivity]]. done.
  - right. right. eexists. split; [|apply list_elem_of_omap; eexists;
      split; [exact Hd|reflexivity]]. done.
  - right. right. eexists. split; [|apply list_elem_of_omap; eexists;
      split; [exact Hd|reflexivity]]. done.
  - left. eexists. split; [|eapply Hadded; exact Hd]. done.
Qed.

Lemma named_twice {A} (f : A -> string) name (l : list A) :
  (2 <= length (filter (fun a => f a = name) l))%nat -> ~ NoDup (f <$> l).
Proof.
  induction l as [|a l IH]; simpl; [lia|].
  rewrite filter_cons. intros H Hnd. apply NoDup_cons in Hnd as [Ha Hnd].
  destruct (decide (f a = name)) as [E|E]; [|by apply IH].
  simpl in H. destruct (filter _ l) as [|b k] eqn:Ef; [simpl in H; lia|].
  assert (Hb : b ∈ filter (fun a => f a = name) l) by (rewrite Ef; left).
  apply list_elem_of_filter in Hb as [Hb1 Hb2].
  apply Ha. rewrite E, <-Hb1. by apply list_elem_of_fmap_2.
Qed.

Lemma existsb_filter {A} (f : A -> bool) (l : list A) :
  existsb f l = true -> (1 <= length (filter (fun d => f d) l))%nat.
Proof.
  induction l as [|a l IH]; simpl; [done|].
  rewrite filter_cons. destruct (decide _) as [Hd|Hd]; simpl; [lia|].
  destruct (f a); [by destruct Hd|done].
Qed.

Lemma bookkeeping_count maker proto op_checker :
  injected_once "input_format" declares_multiple_input
    (format_attr "input") (format_checker "input") maker proto op_checker /\
  injected_once "output_format" declares_multiple_output
    (format_attr "output") (format_checker "output") maker proto op_checker /\
  injected_once "temporary_index" declares_temporary_output
    temporary_index_attr temporary_index_checker maker proto op_checker.
Proof.
  split; [|split].
  - apply (injected_once_of has_multiple_input_); try done.
    + intros m d. apply declare_step.
    + apply input_format_added.
    + apply input_format_member.
  - apply (injected_once_of has_multiple_output_); try done.
    + intros m d. apply declare_step.
    + apply output_format_added.
    + apply output_format_member.
  - apply (injected_once_of has_temporary_output_); try done.
    + intros m d. apply declare_step.
    + apply temporary_index_added.
    + apply temporary_index_member.
Qed.

Lemma reserved_name_twice maker proto op_checker :
  declares_a_reserved_name maker = true ->
  ~ NoDup (declared_names (construct maker proto op_checker)).
Proof.
  unfold declares_a_reserved_name. intros H Hnd.
  unfold declared_names in Hnd. apply NoDup_app in Hnd as (Hnd & _).
  revert Hnd. unfold OpProto.attr_names.
  destruct (bookkeeping_count maker proto op_checker)
    as ([H1 _] & [H2 _] & [H3 _]).
  apply orb_true_iff in H as [H|H]; [apply orb_true_iff in H as [H|H]|];
    apply andb_true_iff in H as [Hs Ha]; apply existsb_filter in Ha.
  - apply (named_twice _ "input_format"). fold (attrs_named "input_format"
      (construct maker proto op_checker)). rewrite H1, Hs. simpl. lia.
  - apply (named_twice _ "output_format"). fold (attrs_named "output_format"
      (construct maker proto op_checker)). rewrite H2, Hs. simpl. lia.
  - apply (named_twice _ "temporary_index").
    fold (attrs_named "temporary_index" (construct maker proto op_checker)).
    rewrite H3, Hs. simpl. lia.
Qed.

(** ** RegisterOp *)

Lemma Validate_Ok_NoDup m : (Validate m).2 = Ok tt -> NoDup (declared_names m).
Proof.
  unfold Validate. simpl. rewrite CheckNoDuplicatedInOutAttrs_eq.
  change (declared_names (set_validated_ true m)) with (declared_names m).
  destruct (for_each_checker _ ∅) as [s|e'] eqn:E'; simpl; [|done].
  intros _. by apply for_each_checker_Ok in E'.
Qed.

Lemma Validate_NoDup_Ok m : NoDup (declared_names m) -> (Validate m).2 = Ok tt.
Proof. intros H. by rewrite Validate_returns. Qed.

(** [RegisterOp] in one piece: what it stores before [Validate] decides,
    and what it stores after. *)
Lemma RegisterOp_eq c maker op_type G :
  RegisterOp c maker op_type G =
  let m := schema_built maker op_type G in
  let G1 := half_registered c maker op_type G in
  match (Validate m).2 with
  | Throw e => (G1, Throw e)
  | Ok _ =>
      let p := with_type op_type (proto_ m) in
      let G2 := set_protos (<[op_type := p]> (protos G)) G1 in
      if OpProto.IsInitialized p
      then (set_VarIndexMaps
              (<[op_type := forward_index p]> (VarIndexMaps G)) G2, Ok tt)
      else (G2, Throw (not_initialized op_type p))
  end.
Proof.
  unfold RegisterOp, half_registered, schema_built, index_op_checkers,
    index_protos, proto_of. unfold_M.
  unfold set_creators, set_op_checkers, set_protos, set_VarIndexMaps.
  cbn [creators op_checkers protos VarIndexMaps grad_creators gUniqId].
  destruct (op_checkers G !! op_type) as [k0|] eqn:Ek;
    destruct (protos G !! op_type) as [p0|] eqn:Ep;
    cbn [creators op_checkers protos VarIndexMaps grad_creators gUniqId
         default from_option id];
    rewrite ?Ep; cbn [default from_option id].
  all: unfold Validate; cbn [fst snd proto_ op_checker_ set_validated_].
  all: destruct (CheckNoDuplicatedInOutAttrs _) as [[]|e];
    cbn [creators op_checkers protos VarIndexMaps grad_creators gUniqId];
    rewrite ?insert_insert_eq; [|reflexivity].
  all: unfold forward_index, with_type, not_initialized, PADDLE_ENFORCE,
    destroy_OpProtoAndCheckerMaker;
    cbn [creators op_checkers protos VarIndexMaps grad_creators gUniqId
         proto_ validated_ set_validated_].
  all: rewrite ?insert_insert_eq.
  all: destruct (OpProto.IsInitialized _); [|reflexivity].
  all: destruct (assign_offsets (OpProto.input_names _) ∅ 0) as [m1 i1];
    cbn [fst]; destruct (assign_offsets (OpProto.output_names _) m1 0)
      as [m2 i2]; reflexivity.
Qed.

(** X2. [RegisterOp] returns exactly when the names of the schema that the
    maker has built, the names that the tables held for the kind and the
    injected attributes included, are distinct and the schema, once it
    carries the kind name, is initialised. When it throws, it throws the
    failure of [Validate] that names a duplicated name, or else, the names
    being distinct, the failure that names the fields which are not
    initialised; the destructor of the maker never throws there. *)
Theorem RegisterOp_outcome (c : OpType) (maker : ProtoMakerType)
    (op_type : string) (G : Globals) :
  let m := schema_built maker op_type G in
  let p := with_type op_type (proto_ m) in
  ((RegisterOp c maker op_type G).2 = Ok tt <->
   NoDup (declared_names m) /\ OpProto.IsInitialized p = true) /\
  (forall e, (RegisterOp c maker op_type G).2 = Throw e ->
     (exists name, occurs_twice name (declared_names m) /\
                   e = duplicated_error name) \/
     (NoDup (declared_names m) /\ OpProto.IsInitialized p = false /\
      e = not_initialized op_type p)).
Proof.
  intros m p. rewrite RegisterOp_eq. cbv zeta. fold m. fold p.
  destruct (Validate m).2 as [[]|e0] eqn:EV.
  - apply Validate_Ok_NoDup in EV.
    destruct (OpProto.IsInitialized p) eqn:EI; simpl.
    + split; [done|]. intros e [=].
    + split; [split; [done|by intros [_ [=]]]|].
      intros e [= <-]. by right.
  - simpl. split.
    + split; [done|]. intros [Hnd _].
      apply Validate_NoDup_Ok in Hnd. by rewrite Hnd in EV.
    + intros e [= <-]. left. by apply Validate_throws.
Qed.

Lemma forward_index_inputs p i x :
  NoDup (OpProto.input_names p ++ OpProto.output_names p) ->
  OpProto.input_names p !! i = Some x ->
  forward_index p !! x = Some (Z.of_nat i).
Proof.
  intros (Hi & Hdisj & Ho)%NoDup_app Hx. unfold forward_index.
  rewrite assign_offsets_other.
  - by rewrite (assign_offsets_lookup _ _ _ i).
  - apply Hdisj. by eapply list_elem_of_lookup_2.
Qed.

Lemma forward_index_outputs p j y :
  NoDup (OpProto.output_names p) ->
  OpProto.output_names p !! j = Some y ->
  forward_index p !! y = Some (Z.of_nat j).
Proof.
  intros Ho Hy. unfold forward_index.
  by rewrite (assign_offsets_lookup _ _ _ j).
Qed.

Lemma forward_index_dom p z :
  is_Some (forward_index p !! z) ->
  z ∈ OpProto.input_names p \/ z ∈ OpProto.output_names p.
Proof.
  unfold forward_index. intros H.
  destruct (decide (z ∈ OpProto.output_names p)) as [|Ho]; [by right|].
  destruct (decide (z ∈ OpProto.input_names p)) as [|Hi]; [by left|].
  rewrite !assign_offsets_other in H by done.
  rewrite lookup_empty in H. by destruct H.
Qed.

Lemma schema_built_slots maker op_type G :
  let p := proto_ (schema_built maker op_type G) in
  OpProto.input_names p =
    OpProto.input_names (proto_of G op_type)
      ++ (VarProto.name <$> omap input_declared maker) /\
  OpProto.output_names p =
    OpProto.output_names (proto_of G op_type)
      ++ (VarProto.name <$> omap output_declared maker).
Proof.
  unfold schema_built, construct, OpProto.input_names, OpProto.output_names.
  destruct (foldl_declare_slots maker
              (new_OpProtoAndCheckerMaker (proto_of G op_type)
                 (default [] (op_checkers G !! op_type))))
    as (-> & -> & _).
  simpl. by rewrite !fmap_app.
Qed.

(** X3. When [RegisterOp] returns, the tables hold for the kind the schema
    with its kind name set, whose slots are the ones it held followed by
    the ones the maker declared, in the order of the declarations, and an
    index that maps the input slots to [0..p-1] and the output slots to
    [0..q-1], two spaces that both start at zero, and holds no other name.
    A node that [CreateOp] then makes for the kind carries that index. *)
Theorem RegisterOp_index (c : OpType) (maker : ProtoMakerType)
    (op_type : string) (G G' : Globals) :
  RegisterOp c maker op_type G = (G', Ok tt) ->
  registered_with_index c maker op_type G G'.
Proof.
  rewrite RegisterOp_eq. cbv zeta.
  destruct (Validate _).2 as [[]|e0] eqn:EV; [|done].
  destruct (OpProto.IsInitialized _); [|done].
  intros [= <-]. apply Validate_Ok_NoDup in EV.
  unfold declared_names in EV. apply NoDup_app in EV as (_ & _ & Hnd).
  eexists _, _. simpl.
  split; [apply lookup_insert_eq|]. split; [apply lookup_insert_eq|].
  split; [done|].
  destruct (schema_built_slots maker op_type G) as [Hi Ho].
  split; [exact Hi|]. split; [exact Ho|]. split.
  - split; [|split].
    + intros i x. by apply forward_index_inputs.
    + intros j y. apply forward_index_outputs.
      by apply NoDup_app in Hnd as (_ & _ & ?).
    + apply forward_index_dom.
  - intros inputs outputs attrs attrs' HC.
    edestruct (CreateOp_checked) as (G'' & outputs' & _ & ->);
      [| |exact HC|]; [apply lookup_insert_eq..|].
    eexists _, _. split; [reflexivity|]. simpl. apply lookup_insert_eq.
Qed.

(** X4. [RegisterOp] is not undone when it throws: the constructor, the
    checker list and the schema that the maker has built are in the tables,
    the index table and the other tables are as before. [CreateOp] of the
    kind finds the constructor, and a node whose attributes the stored
    checker list accepts goes to [Init], with the index that the kind had
    before the call: none for a kind that was new. *)
Theorem RegisterOp_failure_is_partial (c : OpType) (maker : ProtoMakerType)
    (op_type : string) (G G' : Globals) (e : exn) :
  RegisterOp c maker op_type G = (G', Throw e) ->
  registered_without_index c maker op_type G G'.
Proof.
  rewrite RegisterOp_eq. intros H. unfold registered_without_index.
  cbv zeta in *. set (m := schema_built maker op_type G) in *.
  assert (HG : (G' = half_registered c maker op_type G \/
                G' = set_protos (<[op_type := with_type op_type (proto_ m)]>
                                   (protos G))
                       (half_registered c maker op_type G))).
  { destruct (Validate _).2 as [[]|e0]; [|left; congruence].
    destruct (OpProto.IsInitialized _); [done|right; congruence]. }
  clear H.
  assert (Hc : creators G' !! op_type = Some c).
  { destruct HG as [->| ->]; simpl; apply lookup_insert_eq. }
  assert (Hk : op_checkers G' !! op_type = Some (op_checker_ m)).
  { destruct HG as [->| ->]; simpl; apply lookup_insert_eq. }
  assert (Hv : VarIndexMaps G' = VarIndexMaps G).
  { by destruct HG as [->| ->]. }
  split; [done|]. split; [done|]. split.
  { destruct HG as [->| ->]; simpl; eexists;
      (split; [apply lookup_insert_eq|done]). }
  split; [done|]. split; [by destruct HG as [->| ->]|].
  split; [by destruct HG as [->| ->]|].
  intros inputs outputs attrs attrs' HC.
  destruct (CreateOp_checked G' op_type inputs outputs attrs c _ attrs'
              Hc Hk HC) as (G'' & outputs' & _ & ->).
  eexists _, _. split; [reflexivity|]. simpl. by rewrite Hv.
Qed.

(** X5. A kind is registered once: after a [RegisterOp] that returned, a
    [RegisterOp] of the same kind name, by the same maker or by another
    that declares one of the first maker's names, runs the maker on the
    stored schema and throws the failure of [Validate] for a name that the
    schema now holds twice. The constructor is replaced all the same, the
    schema with the repeated slots stays in the tables, and the index is
    the one of the first registration. *)
Theorem RegisterOp_again_throws (c1 c2 : OpType)
    (maker1 maker2 : ProtoMakerType) (op_type : string) (G G1 : Globals)
    (i1 i2 : nat) (d1 d2 : declaration) (x : string) :
  RegisterOp c1 maker1 op_type G = (G1, Ok tt) ->
  maker1 !! i1 = Some d1 -> name_declared d1 = Some x ->
  maker2 !! i2 = Some d2 -> name_declared d2 = Some x ->
  exists name G2,
    RegisterOp c2 maker2 op_type G1 = (G2, Throw (duplicated_error name)) /\
    creators G2 !! op_type = Some c2 /\
    VarIndexMaps G2 = VarIndexMaps G1 /\
    protos G2 !! op_type = Some (proto_ (schema_built maker2 op_type G1)) /\
    occurs_twice name (schema_names (proto_ (schema_built maker2 op_type G1))).
Proof.
  intros H1 Hd1 Hx1 Hd2 Hx2.
  apply list_elem_of_lookup_2 in Hd1, Hd2.
  assert (Hin : x ∈ schema_names (proto_of G1 op_type)).
  { rewrite RegisterOp_eq in H1. cbv zeta in H1.
    destruct (Validate _).2 as [[]|e0]; [|done].
    destruct (OpProto.IsInitialized _); [|done].
    injection H1 as <-. unfold proto_of. simpl. rewrite lookup_insert_eq.
    simpl.
    destruct (construct_names maker1 (proto_of G op_type)
                (default [] (op_checkers G !! op_type)))
      as (added & Hperm & Hadded).
    change (schema_names (with_type op_type
              (proto_ (schema_built maker1 op_type G))))
      with (schema_names (proto_ (schema_built maker1 op_type G))).
    unfold schema_built. rewrite Hperm. apply elem_of_app. right. eauto. }
  rewrite RegisterOp_eq. cbv zeta.
  destruct (Validate _).2 as [[]|e0] eqn:EV.
  - exfalso. apply Validate_Ok_NoDup in EV.
    change (declared_names (schema_built maker2 op_type G1))
      with (schema_names (proto_ (schema_built maker2 op_type G1))) in EV.
    destruct (construct_names maker2 (proto_of G1 op_type)
                (default [] (op_checkers G1 !! op_type)))
      as (added & Hperm & Hadded).
    unfold schema_built in EV. rewrite Hperm in EV.
    apply NoDup_app in EV as (_ & Hdisj & _).
    apply (Hdisj x Hin). eauto.
  - apply Validate_throws in EV as (name & Htwice & ->).
    exists name, (half_registered c2 maker2 op_type G1).
    split; [done|]. simpl.
    split; [apply lookup_insert_eq|]. split; [done|].
    split; [apply lookup_insert_eq|]. exact Htwice.
Qed.

(** X17. The names of the bookkeeping attributes are reserved: a maker that
    declares a multiple input and, by itself, an attribute called
    [input_format] does not register, on any tables: [Validate] finds a
    name twice. The same holds for a multiple output with [output_format]
    and for a temporary output with [temporary_index]. *)
Theorem bookkeeping_names_are_reserved (c : OpType) (maker : ProtoMakerType)
    (op_type : string) (G : Globals) :
  declares_a_reserved_name maker = true ->
  exists name,
    RegisterOp c maker op_type G =
      (half_registered c maker op_type G, Throw (duplicated_error name)) /\
    occurs_twice name (declared_names (schema_built maker op_type G)).
Proof.
  intros H. rewrite RegisterOp_eq. cbv zeta.
  destruct (Validate _).2 as [[]|e0] eqn:EV.
  - apply Validate_Ok_NoDup in EV. by apply reserved_name_twice in EV.
  - apply Validate_throws in EV as (name & Htwice & ->). by exists name.
Qed.

(** [RegisterOp] reads and writes the entries of its own kind only. *)
Lemma RegisterOp_other c maker op_type G other :
  op_type <> other ->
  let G' := (RegisterOp c maker op_type G).1 in
  creators G' !! other = creators G !! other /\
  op_checkers G' !! other = op_checkers G !! other /\
  protos G' !! other = protos G !! other /\
  VarIndexMaps G' !! other = VarIndexMaps G !! other /\
  grad_creators G' = grad_creators G /\
  gUniqId G' = gUniqId G.
Proof.
  intros Hne. rewrite RegisterOp_eq. cbv zeta.
  destruct (Validate _).2 as [[]|e0]; [|simpl; by rewrite !lookup_insert_ne].
  destruct (OpProto.IsInitialized _); simpl; by rewrite !lookup_insert_ne.
Qed.

Lemma schema_built_ext maker op_type G G' :
  op_checkers G' !! op_type = op_checkers G !! op_type ->
  proto_of G' op_type = proto_of G op_type ->
  schema_built maker op_type G' = schema_built maker op_type G.
Proof. intros Hk Hp. unfold schema_built. by rewrite Hk, Hp. Qed.

(** X6. The registrations of two kinds of different names do not see each
    other: run in either order, on any tables, they leave the same tables,
    and each returns or throws the same as when it runs alone. (The order
    in which objects of static storage of different translation units are
    initialised is not fixed.) *)
Theorem RegisterOp_of_two_kinds_commutes (c1 : OpType)
    (maker1 : ProtoMakerType) (t1 : string) (c2 : OpType)
    (maker2 : ProtoMakerType) (t2 : string) (G : Globals) :
  t1 <> t2 ->
  (RegisterOp c2 maker2 t2 (RegisterOp c1 maker1 t1 G).1).1 =
  (RegisterOp c1 maker1 t1 (RegisterOp c2 maker2 t2 G).1).1 /\
  (RegisterOp c1 maker1 t1 (RegisterOp c2 maker2 t2 G).1).2 =
  (RegisterOp c1 maker1 t1 G).2 /\
  (RegisterOp c2 maker2 t2 (RegisterOp c1 maker1 t1 G).1).2 =
  (RegisterOp c2 maker2 t2 G).2.
Proof.
  intros Hne.
  destruct (RegisterOp_other c1 maker1 t1 G t2 Hne) as (_ & Hk1 & Hp1 & _).
  destruct (RegisterOp_other c2 maker2 t2 G t1 (not_eq_sym Hne))
    as (_ & Hk2 & Hp2 & _).
  cbv zeta in *.
  pose proof (schema_built_ext maker2 t2 _ _ Hk1
                (f_equal (default OpProto.empty) Hp1)) as E2.
  pose proof (schema_built_ext maker1 t1 _ _ Hk2
                (f_equal (default OpProto.empty) Hp2)) as E1.
  rewrite (RegisterOp_eq c2 maker2 t2 (RegisterOp c1 maker1 t1 G).1).
  rewrite (RegisterOp_eq c1 maker1 t1 (RegisterOp c2 maker2 t2 G).1).
  cbv zeta. unfold half_registered. rewrite E1, E2.
  rewrite (RegisterOp_eq c1 maker1 t1 G), (RegisterOp_eq c2 maker2 t2 G).
  cbv zeta. unfold half_registered.
  destruct (Validate (schema_built maker1 t1 G)).2 as [[]|e1];
    destruct (Validate (schema_built maker2 t2 G)).2 as [[]|e2];
    try destruct (OpProto.IsInitialized
                    (with_type t1 (proto_ (schema_built maker1 t1 G))));
    try destruct (OpProto.IsInitialized
                    (with_type t2 (proto_ (schema_built maker2 t2 G))));
    simpl; (split; [|done]);
    unfold set_VarIndexMaps, set_protos; simpl;
    rewrite ?insert_insert_eq; f_equal;
    rewrite ?(insert_insert_ne _ t2 t1) by done; try done.
Qed.

(** ** The tables of a running program *)

(** Without a sentinel among the outputs the loop writes nothing. *)
Lemma rename_temporaries_none type outputs G :
  count_temporaries outputs = 0%nat ->
  rename_temporaries type outputs G = (G, Ok outputs).
Proof.
  induction outputs as [|o outputs IH]; [done|].
  rewrite count_temporaries_cons, rename_temporaries_cons, rename_temporary_eq.
  destruct (decide (o = TMP_VAR_NAME)); [done|].
  intros H. by rewrite IH.
Qed.

(** [CreateOp] writes the counter, and nothing when it throws before the
    loop over the outputs. *)
Lemma CreateOp_tables G type inputs outputs attrs :
  exists id,
    (CreateOp type inputs outputs attrs G).1 = set_gUniqId id G /\
    ((gUniqId G < size_t_modulus)%N -> (id < size_t_modulus)%N) /\
    (count_temporaries outputs = 0%nat -> id = gUniqId G).
Proof.
  assert (Hsame : set_gUniqId (gUniqId G) G = G) by (by destruct G).
  destruct (creators G !! type) as [c|] eqn:Ec.
  2:{ exists (gUniqId G). by rewrite CreateOp_not_found. }
  destruct (op_checkers G !! type) as [chk|] eqn:Ek.
  2:{ exists (gUniqId G). unfold CreateOp. unfold_M. by rewrite Ec, Ek. }
  destruct (Check chk attrs) as [attrs'|e] eqn:E.
  2:{ exists (gUniqId G).
      by rewrite (CreateOp_check_fails G type inputs outputs attrs c chk e). }
  destruct (CreateOp_checked G type inputs outputs attrs c chk attrs'
              Ec Ek E) as (G' & outputs' & Hren & ->).
  destruct (rename_temporaries_returns type outputs G)
    as (id & o1 & Hren1 & _).
  rewrite Hren in Hren1. injection Hren1 as -> ->.
  exists id. split; [done|]. split.
  - intros HG.
    destruct (rename_temporaries_run type outputs G HG) as (o2 & Hren2 & _).
    rewrite Hren in Hren2. injection Hren2 as E2 _.
    rewrite E2. apply N.mod_lt. done.
  - intros H0. rewrite (rename_temporaries_none _ _ _ H0) in Hren.
    by apply (f_equal (fun x => gUniqId x.1)) in Hren.
Qed.

Lemma CreateOp_desc_tables G op_desc :
  exists id,
    (CreateOp_desc op_desc G).1 = set_gUniqId id G /\
    ((gUniqId G < size_t_modulus)%N -> (id < size_t_modulus)%N) /\
    (count_temporaries (OpDesc.outputs op_desc) = 0%nat -> id = gUniqId G).
Proof.
  unfold CreateOp_desc. unfold_M.
  destruct (decode_attrs _ ∅) as [attrs|e].
  - simpl. apply CreateOp_tables.
  - exists (gUniqId G). simpl. by destruct G.
Qed.

Lemma CreateGradOp_tables G op :
  (CreateGradOp op G).1 = G \/
  (CreateGradOp op G).1 = touch_protos (type_ op) G.
Proof.
  destruct (grad_creators G !! type_ op) as [c|] eqn:E.
  - right. by rewrite (CreateGradOp_eq _ _ _ E).
  - left. by rewrite CreateGradOp_not_registered.
Qed.

Lemma consistent_at_startup : tables_consistent at_startup.
Proof.
  split; [|split; [|split]]; simpl.
  - intros type. rewrite !lookup_empty. done.
  - intros type. rewrite !lookup_empty. done.
  - intros type. rewrite !lookup_empty. done.
  - reflexivity.
Qed.

Lemma consistent_set_gUniqId id G :
  (id < size_t_modulus)%N -> tables_consistent G ->
  tables_consistent (set_gUniqId id G).
Proof. intros Hid (H1 & H2 & H3 & _). done. Qed.

Lemma is_Some_insert_iff {A B} (m1 : gmap string A) (m2 : gmap string B)
    key a b :
  (forall k, is_Some (m1 !! k) <-> is_Some (m2 !! k)) ->
  forall k, is_Some (<[key := a]> m1 !! k) <-> is_Some (<[key := b]> m2 !! k).
Proof.
  intros H k. destruct (decide (key = k)) as [->|Hne].
  - rewrite !lookup_insert_eq. split; eauto.
  - by rewrite !lookup_insert_ne.
Qed.

Lemma is_Some_insert_impl {A B} (m1 : gmap string A) (m2 : gmap string B)
    key a b :
  (forall k, is_Some (m1 !! k) -> is_Some (m2 !! k)) ->
  forall k, is_Some (<[key := a]> m1 !! k) -> is_Some (<[key := b]> m2 !! k).
Proof.
  intros H k. destruct (decide (key = k)) as [->|Hne].
  - rewrite !lookup_insert_eq. eauto.
  - rewrite !lookup_insert_ne by done. auto.
Qed.

Lemma is_Some_insert_r {A B} (m1 : gmap string A) (m2 : gmap string B)
    key b :
  (forall k, is_Some (m1 !! k) -> is_Some (m2 !! k)) ->
  forall k, is_Some (m1 !! k) -> is_Some (<[key := b]> m2 !! k).
Proof.
  intros H k Hk. destruct (decide (key = k)) as [->|Hne].
  - rewrite lookup_insert_eq. eauto.
  - rewrite lookup_insert_ne by done. auto.
Qed.

(** Every call keeps the tables consistent, whether it returns or throws. *)
Lemma consistent_call G call :
  tables_consistent G -> tables_consistent (tables_after_call G call).
Proof.
  intros HG. destruct call as [c maker t|c t|type ins outs attrs|desc|op];
    simpl.
  - destruct HG as (H1 & H2 & H3 & H4).
    rewrite RegisterOp_eq. cbv zeta. unfold half_registered.
    destruct (Validate _).2 as [[]|e0];
      [destruct (OpProto.IsInitialized _)|]; simpl;
      (split; [by apply is_Some_insert_iff|]);
      (split; [by apply is_Some_insert_impl|]);
      (split; [|done]).
    + by apply is_Some_insert_impl.
    + by apply is_Some_insert_r.
    + by apply is_Some_insert_r.
  - by destruct HG as (H1 & H2 & H3 & H4).
  - destruct (CreateOp_tables G type ins outs attrs) as (id & -> & Hid & _).
    destruct HG as (H1 & H2 & H3 & H4). apply consistent_set_gUniqId; auto.
    done.
  - destruct (CreateOp_desc_tables G desc) as (id & -> & Hid & _).
    destruct HG as (H1 & H2 & H3 & H4). apply consistent_set_gUniqId; auto.
    done.
  - destruct (CreateGradOp_tables G op) as [-> | ->]; [done|].
    destruct HG as (H1 & H2 & H3 & H4). unfold touch_protos.
    destruct (protos G !! type_ op); [done|]. simpl.
    split; [done|]. split; [|done]. by apply is_Some_insert_r.
Qed.

Lemma reachable_consistent G : reachable G -> tables_consistent G.
Proof.
  intros [calls ->]. induction calls as [|call calls IH] using rev_ind.
  - apply consistent_at_startup.
  - rewrite foldl_app. simpl. by apply consistent_call.
Qed.

(** X7. Whatever calls of [RegisterOp], [RegisterGradOp], [CreateOp] and
    [CreateGradOp] a program has made since its start, in any order and
    whether they returned or threw, the kinds with a constructor are the
    kinds with a checker list and have a schema, a kind with an index has
    a constructor, and the counter is below [2^64]. So the [at] of
    [CreateOp] never throws: for a kind with a constructor [CreateOp]
    throws what [Check] throws and leaves the tables, or reaches [Init]
    with the checked attributes. *)
Theorem reachable_tables_are_consistent (G : Globals) :
  reachable G -> tables_consistent G /\ CreateOp_finds_the_checker G.
Proof.
  intros HG. apply reachable_consistent in HG as HC. split; [done|].
  destruct HC as (H1 & _ & _ & H4).
  intros type inputs outputs attrs c Hc.
  destruct (proj1 (H1 type)) as [chk Hk]; [eauto|].
  exists chk. split; [done|].
  destruct (Check chk attrs) as [attrs'|e] eqn:E.
  - destruct (CreateOp_checked G type inputs outputs attrs c chk attrs'
                Hc Hk E) as (G' & outputs' & Hren & ->).
    destruct (rename_temporaries_run type outputs G H4) as (o2 & Hren2 & _).
    rewrite Hren in Hren2. injection Hren2 as -> _.
    eexists. split; [reflexivity|]. done.
  - by apply (CreateOp_check_fails G type inputs outputs attrs c chk e).
Qed.

(** X8. [CreateOp], from argument lists or from a descriptor, registers
    nothing: on every path, the throwing ones included, the five tables
    are as they were, and so is the counter when no output is the
    sentinel. *)
Theorem CreateOp_writes_the_counter_only (G : Globals) (type : string)
    (inputs outputs : VarNameList) (attrs : AttributeMap)
    (op_desc : OpDesc.t) :
  (let G' := (CreateOp type inputs outputs attrs G).1 in
   creators G' = creators G /\ op_checkers G' = op_checkers G /\
   protos G' = protos G /\ VarIndexMaps G' = VarIndexMaps G /\
   grad_creators G' = grad_creators G /\
   (count_temporaries outputs = 0%nat -> G' = G)) /\
  (let G' := (CreateOp_desc op_desc G).1 in
   creators G' = creators G /\ op_checkers G' = op_checkers G /\
   protos G' = protos G /\ VarIndexMaps G' = VarIndexMaps G /\
   grad_creators G' = grad_creators G /\
   (count_temporaries (OpDesc.outputs op_desc) = 0%nat -> G' = G)).
Proof.
  split; cbv zeta.
  - destruct (CreateOp_tables G type inputs outputs attrs)
      as (id & -> & _ & H0).
    repeat (split; [done|]). intros H. rewrite (H0 H). by destruct G.
  - destruct (CreateOp_desc_tables G op_desc) as (id & -> & _ & H0).
    repeat (split; [done|]). intros H. rewrite (H0 H). by destruct G.
Qed.

(** ** The sentinel and the counter *)

Lemma temp_name_not_sentinel type id : temp_name type id <> TMP_VAR_NAME.
Proof.
  intros H. apply (f_equal String.length) in H. unfold temp_name in H.
  rewrite !append_length in H. simpl in H. lia.
Qed.

Lemma rename_temporaries_no_sentinel type outputs G :
  exists G' outputs',
    rename_temporaries type outputs G = (G', Ok outputs') /\
    count_temporaries outputs' = 0%nat.
Proof.
  revert G. induction outputs as [|o outputs IH]; intros G.
  - by exists G, [].
  - rewrite rename_temporaries_cons, rename_temporary_eq.
    destruct (decide (o = TMP_VAR_NAME)) as [->|Ho].
    + destruct (IH (advance 1 G)) as (G' & rest & -> & Hrest).
      eexists _, _. split; [reflexivity|].
      rewrite count_temporaries_cons, Hrest.
      rewrite decide_False; [done|apply temp_name_not_sentinel].
    + destruct (IH G) as (G' & rest & -> & Hrest).
      eexists _, _. split; [reflexivity|].
      rewrite count_temporaries_cons, Hrest. by rewrite decide_False.
Qed.

Lemma count_temporaries_0 outputs :
  count_temporaries outputs = 0%nat <-> TMP_VAR_NAME ∉ outputs.
Proof.
  induction outputs as [|o outputs IH].
  - split; [|done]. intros _. apply not_elem_of_nil.
  - rewrite count_temporaries_cons, not_elem_of_cons.
    destruct (decide (o = TMP_VAR_NAME)) as [->|Ho].
    + split; [done|]. by intros [? _].
    + rewrite <-IH. simpl. split; [|tauto]. intros H. split; [congruence|done].
Qed.

(** X9. [GenerateTempVariableName] returns on every node and on every
    state of the counter; no output of the node it leaves is the sentinel,
    a generated name being longer than the sentinel; it writes the outputs
    only and keeps their number; and run again on its result it changes
    neither the node nor the counter. *)
Theorem GenerateTempVariableName_leaves_no_sentinel (op : OperatorBase)
    (G : Globals) :
  exists G' op',
    GenerateTempVariableName op G = (G', Ok op') /\
    (TMP_VAR_NAME ∉ outputs_ op') /\
    length (outputs_ op') = length (outputs_ op) /\
    type_ op' = type_ op /\ inputs_ op' = inputs_ op /\
    attrs_ op' = attrs_ op /\ in_out_idxs_ op' = in_out_idxs_ op /\
    GenerateTempVariableName op' G' = (G', Ok op').
Proof.
  unfold GenerateTempVariableName. unfold_M.
  destruct (rename_temporaries_no_sentinel (type_ op) (outputs_ op) G)
    as (G' & outputs' & Hren & H0).
  destruct (rename_temporaries_returns (type_ op) (outputs_ op) G)
    as (id & o1 & Hren1 & Hlen).
  rewrite Hren in Hren1. injection Hren1 as -> <-.
  rewrite Hren. eexists _, _. split; [reflexivity|]. simpl.
  split; [by apply count_temporaries_0|]. split; [done|].
  do 4 (split; [done|]).
  rewrite (rename_temporaries_none _ _ _ H0). done.
Qed.

Lemma system_step_tables s s' :
  system_step s s' -> exists id, s'.2 = set_gUniqId id s.2.
Proof.
  intros [ths G i th th' G' Hi Hcall].
  inversion Hcall as [th0 G0 outname name G0' Hout Hbody]; subst.
  rewrite rename_temporary_eq in Hbody. simpl.
  destruct (decide (outname = TMP_VAR_NAME)).
  - injection Hbody as <- _. by eexists.
  - injection Hbody as <- _. exists (gUniqId G). by destruct G.
Qed.

Lemma system_steps_tables s s' :
  rtc system_step s s' -> exists id, s'.2 = set_gUniqId id s.2.
Proof.
  induction 1 as [s|s1 s2 s3 Hstep _ IH].
  - exists (gUniqId s.2). by destruct s.2.
  - destruct IH as [id ->].
    destruct (system_step_tables _ _ Hstep) as [id' ->]. by exists id.
Qed.

(** X15. Concurrent calls lose no value of the counter and skip none: for
    any calls of [GenerateTempVariableName] in flight and every
    interleaving of their loop bodies, the tables are those of the start
    with the counter advanced by the number of names generated so far,
    modulo [2^64]; the five tables are not written. *)
Theorem interleaved_calls_lose_no_counter_value
    (calls : list (string * VarNameList)) (G0 : Globals)
    (ths : list temp_call) (G : Globals) :
  (gUniqId G0 < size_t_modulus)%N ->
  rtc system_step (uncurry start_call <$> calls, G0) (ths, G) ->
  G = advance (length (all_generated ths)) G0.
Proof.
  intros HG0 Hsteps.
  destruct (system_steps_tables _ _ Hsteps) as [id Hid]. simpl in Hid.
  apply (system_steps_invariant (gUniqId G0)) in Hsteps.
  - destruct Hsteps as (types & Hperm & Hcount). simpl in *.
    rewrite Hperm. unfold names_of. rewrite length_imap.
    unfold advance. rewrite <-Hcount. rewrite Hid. done.
  - exists []. simpl. rewrite all_generated_start. split; [done|].
    by rewrite N.add_0_r, N.mod_small.
Qed.

(** ** Nodes from descriptors *)

Lemma GetAttrValue_field attr v :
  field_selected attr = Some v -> GetAttrValue attr = Ok v.
Proof.
  unfold field_selected.
  destruct (AttrDesc.type attr) as [t|] eqn:E; [|done].
  rewrite (GetAttrValue_enumerator _ _ E). destruct t; by intros [= <-].
Qed.

Lemma decode_attrs_last descs attrs :
  Forall (fun attr => is_Some (field_selected attr)) descs ->
  exists attrs',
    decode_attrs descs attrs = Ok attrs' /\
    forall name,
      attrs' !! name =
      match last_named name descs with
      | Some attr => field_selected attr
      | None => attrs !! name
      end.
Proof.
  intros H. revert attrs. induction H as [|d descs [v Hv] _ IH]; intros attrs.
  - by exists attrs.
  - simpl. rewrite (GetAttrValue_field _ _ Hv). simpl.
    destruct (IH (<[AttrDesc.name d := v]> attrs)) as (attrs' & -> & Hl).
    exists attrs'. split; [done|]. intros name. rewrite Hl.
    unfold last_named. rewrite filter_cons.
    destruct (decide (AttrDesc.name d = name)) as [<-|Hne].
    + rewrite last_cons. destruct (last _); [done|].
      by rewrite lookup_insert_eq.
    + destruct (last _); [done|]. by rewrite lookup_insert_ne.
Qed.

(** X10. [CreateOp] of a descriptor whose attributes all carry a type tag
    of the enumeration is [CreateOp] of its kind name, its inputs and its
    outputs, in their order, and of the attribute map that binds each name
    to the field that the tag of the attribute selects, the other fields
    being ignored; a list is copied element by element; of several
    attributes of one name the last is bound. *)
Theorem CreateOp_desc_decodes (G : Globals) (op_desc : OpDesc.t) :
  Forall (fun attr => is_Some (field_selected attr)) (OpDesc.attrs op_desc) ->
  exists attrs,
    CreateOp_desc op_desc G =
      CreateOp (OpDesc.type op_desc) (OpDesc.inputs op_desc)
        (OpDesc.outputs op_desc) attrs G /\
    forall name,
      attrs !! name = last_named name (OpDesc.attrs op_desc) ≫= field_selected.
Proof.
  intros H. destruct (decode_attrs_last _ ∅ H) as (attrs & Hd & Hl).
  exists attrs. split.
  - unfold CreateOp_desc. unfold_M. rewrite Hd. reflexivity.
  - intros name. rewrite Hl.
    destruct (last_named name _); [done|]. apply lookup_empty.
Qed.

(** ** Gradient nodes and the tables *)

(** X11. [CreateGradOp] reads the schema with [protos()[type]], which
    writes: for a kind with a gradient constructor and no schema, the call
    leaves an empty schema, without kind name, in [protos()], and the
    gradient node it hands to [Init] has the wiring and an empty index.
    For a kind with a schema the tables are as they were. The schema left
    behind does not change what a later [RegisterOp] of the kind does. *)
Theorem CreateGradOp_writes_a_missing_schema (G : Globals)
    (op : OperatorBase) (c : OpType) :
  grad_creators G !! type_ op = Some c ->
  (CreateGradOp op G).1 =
    match protos G !! type_ op with
    | Some _ => G
    | None => set_protos (<[type_ op := OpProto.empty]> (protos G)) G
    end /\
  (protos G !! type_ op = None -> format_attrs_typed op ->
   exists grad_op,
     (CreateGradOp op G).2 = Init c grad_op /\
     in_out_idxs_ grad_op = Some ∅ /\
     grad_wiring op grad_op) /\
  (forall c' maker,
     RegisterOp c' maker (type_ op) (CreateGradOp op G).1 =
     RegisterOp c' maker (type_ op) G).
Proof.
  intros Hc. rewrite (CreateGradOp_eq _ _ _ Hc). simpl.
  split; [done|]. split.
  - intros Hp Ht. destruct (typed_formats op Ht) as (fi & fo & Hi & Ho).
    rewrite (fill_grad_attrs_typed _ _ _ _ _ Hi Ho). simpl.
    eexists. split; [reflexivity|]. simpl. split; [|done].
    unfold proto_of. by rewrite Hp.
  - intros c' maker. rewrite !RegisterOp_eq. cbv zeta.
    unfold half_registered.
    rewrite (schema_built_ext maker (type_ op) G (touch_protos (type_ op) G)).
    2:{ unfold touch_protos. by destruct (protos G !! type_ op). }
    2:{ apply proto_of_touch. }
    unfold touch_protos. destruct (protos G !! type_ op); [done|]. simpl.
    unfold set_protos, set_VarIndexMaps. simpl. rewrite !insert_insert_eq.
    done.
Qed.

(** X12. [RegisterGradOp] never throws and writes one entry of
    [grad_creators]: a constructor that was registered for the kind is
    replaced without notice, and the kind needs no [RegisterOp].
    [CreateGradOp] of a node of the kind then hands the wired node, under
    the kind name, to the [Init] of the class registered last. It leaves
    the same tables before or after a [RegisterOp], of this kind or of
    another. *)
Theorem RegisterGradOp_replaces (c : OpType) (op_type : string)
    (G : Globals) :
  let G' := (RegisterGradOp c op_type G).1 in
  (RegisterGradOp c op_type G).2 = Ok tt /\
  (forall other, op_type <> other ->
     grad_creators G' !! other = grad_creators G !! other) /\
  creators G' = creators G /\ op_checkers G' = op_checkers G /\
  protos G' = protos G /\ VarIndexMaps G' = VarIndexMaps G /\
  gUniqId G' = gUniqId G /\
  (forall op, type_ op = op_type -> format_attrs_typed op ->
     exists G'' grad_op,
       CreateGradOp op G' = (G'', Init c grad_op) /\
       type_ grad_op = op_type /\ grad_wiring op grad_op) /\
  (forall c' maker other,
     (RegisterOp c' maker other G').1 =
     (RegisterGradOp c op_type (RegisterOp c' maker other G).1).1).
Proof.
  cbv zeta. unfold RegisterGradOp. unfold_M. simpl.
  split; [done|].
  split; [intros other Hne; by rewrite lookup_insert_ne|].
  do 5 (split; [done|]). split.
  - intros op <- Ht. destruct (typed_formats op Ht) as (fi & fo & Hi & Ho).
    erewrite (CreateGradOp_typed _ op c fi fo); [|apply lookup_insert_eq|done..].
    eexists _, _. split; [reflexivity|]. done.
  - intros c' maker other. rewrite !RegisterOp_eq. cbv zeta.
    unfold half_registered.
    change (schema_built maker other
              (set_grad_creators (<[op_type:=c]> (grad_creators G)) G))
      with (schema_built maker other G).
    destruct (Validate _).2 as [[]|e0]; [|done].
    by destruct (OpProto.IsInitialized _).
Qed.

(** X16. The offsets written last win: when the input slots of the schema
    have distinct names, the index of the gradient node maps the gradient
    of the [i]-th input slot to [i], also for a schema with a slot named
    like the gradient of another, where the offsets of the input side are
    overwritten. *)
Theorem CreateGradOp_input_gradient_offsets (G : Globals)
    (op : OperatorBase) (c : OpType) (op_proto : OpProto.t) :
  grad_creators G !! type_ op = Some c ->
  format_attrs_typed op ->
  protos G !! type_ op = Some op_proto ->
  NoDup (OpProto.input_names op_proto) ->
  exists G' grad_op idxs,
    CreateGradOp op G = (G', Init c grad_op) /\
    in_out_idxs_ grad_op = Some idxs /\
    forall i x, OpProto.input_names op_proto !! i = Some x ->
      idxs !! grad_name x = Some (Z.of_nat i).
Proof.
  intros Hc Ht Hp Hnd.
  destruct (typed_formats op Ht) as (fi & fo & Hi & Ho).
  rewrite (CreateGradOp_typed G op c fi fo Hc Hi Ho).
  eexists _, _, _. split; [reflexivity|]. split; [reflexivity|].
  unfold proto_of. rewrite Hp. simpl. intros i x Hx.
  rewrite fill_grad_varmap_eq. cbv zeta.
  rewrite (assign_offsets_lookup _ _ _ i); [f_equal; lia| |].
  - apply NoDup_fmap_2; [apply _|done].
  - by rewrite list_lookup_fmap, Hx.
Qed.

(** X18. The index and the wiring of a gradient node agree. For a forward
    node that binds one variable to each slot of its schema, the slot names
    being distinct and none named like the gradient of another, the index
    of the gradient node finds, in the inputs of the gradient node, the
    variable of every forward input slot and of every forward output slot
    and the gradient of the latter, and, in its outputs, the gradient of
    the variable of every forward input slot. *)
Theorem gradient_index_matches_the_wiring (G : Globals) (op : OperatorBase)
    (c : OpType) (op_proto : OpProto.t) :
  grad_creators G !! type_ op = Some c ->
  format_attrs_typed op ->
  protos G !! type_ op = Some op_proto ->
  NoDup (OpProto.input_names op_proto ++ OpProto.output_names op_proto) ->
  no_slot_named_like_a_gradient op_proto ->
  length (inputs_ op) = length (OpProto.input_names op_proto) ->
  length (outputs_ op) = length (OpProto.output_names op_proto) ->
  exists G' grad_op idxs,
    CreateGradOp op G = (G', Init c grad_op) /\
    in_out_idxs_ grad_op = Some idxs /\
    index_matches_wiring op_proto op grad_op idxs.
Proof.
  intros Hc Ht Hp Hnd Hgrad Hli Hlo.
  destruct (typed_formats op Ht) as (fi & fo & Hi & Ho).
  rewrite (CreateGradOp_typed G op c fi fo Hc Hi Ho).
  eexists _, _, _. split; [reflexivity|]. split; [reflexivity|].
  unfold index_matches_wiring, derived_grad_op, wired_grad_op, proto_of.
  rewrite Hp. simpl.
  destruct (fill_grad_varmap_continuous op_proto Hnd Hgrad) as [Hins Houts].
  cbv zeta in *. split.
  - intros i x v Hx Hv. destruct (Hins i x Hx) as [H1 H2]. split.
    + exists i. split; [done|].
      rewrite lookup_app_l by (by eapply lookup_lt_Some). done.
    + exists i. split; [done|]. by rewrite list_lookup_fmap, Hv.
  - intros j y w Hy Hw. destruct (Houts j y Hy) as [H1 H2]. split.
    + exists (length (OpProto.input_names op_proto) + j)%nat.
      split; [done|]. rewrite <-Hli.
      rewrite lookup_app_r by lia.
      replace (length (inputs_ op) + j - length (inputs_ op))%nat with j
        by lia.
      rewrite lookup_app_l by (by eapply lookup_lt_Some). done.
    + exists (length (OpProto.input_names op_proto)
              + length (OpProto.output_names op_proto) + j)%nat.
      split; [done|]. rewrite <-Hli, <-Hlo.
      rewrite lookup_app_r by lia. rewrite lookup_app_r by lia.
      replace (length (inputs_ op) + length (outputs_ op) + j
               - length (inputs_ op) - length (outputs_ op))%nat with j
        by lia.
      by rewrite list_lookup_fmap, Hw.
Qed.

(** ** A pass that a node stops *)

Section PlainNet_failures.

Context {Operator Scope DeviceContext World : Type}.
Variable Operator_InferShape : Operator -> World -> World * result unit.
Variable Operator_Run :
  Operator -> DeviceContext -> World -> World * result unit.

Lemma for_each_op_first_failure
    (body : Operator -> @Pass Operator DeviceContext World unit) ops st st' e :
  for_each_op body ops st = (st', Throw e) ->
  exists k op st_k,
    ops !! k = Some op /\
    for_each_op body (take k ops) st = (st_k, Ok tt) /\
    body op st_k = (st', Throw e).
Proof.
  revert st. induction ops as [|op ops IH]; intros st; simpl; [done|].
  destruct (body op st) as [st1 [[]|e1]] eqn:E.
  - intros H. destruct (IH _ H) as (k & op' & st_k & Hk & Hpre & Hop).
    exists (S k), op', st_k. simpl. by rewrite E.
  - intros [= <- <-]. by exists 0%nat, op, st.
Qed.

(** X14. A pass catches nothing and undoes nothing. When [InferShape] of a
    net throws, there is a node of [ops_] such that the net cut before
    that node passes, the call of the node on the state that this left
    threw the exception that the pass throws, and the pass leaves the
    state that the node left, its call being the last one made. The same
    holds for [Run]. *)
Theorem PlainNet_passes_rethrow_the_first_failure (this : PlainNet)
    (scope : Scope) (ctx : DeviceContext) (st : World * list member_call) :
  (forall st' e,
     PlainNet_InferShape Operator_InferShape this scope st = (st', Throw e) ->
     exists k op st_k,
       ops_ this !! k = Some op /\
       PlainNet_InferShape Operator_InferShape
         (mkPlainNet (take k (ops_ this))) scope st =
         (st_k, Ok (mkPlainNet (take k (ops_ this)))) /\
       Operator_InferShape op st_k.1 = (st'.1, Throw e) /\
       st'.2 = st_k.2 ++ [call_InferShape op]) /\
  (forall st' e,
     PlainNet_Run Operator_Run this scope ctx st = (st', Throw e) ->
     exists k op st_k,
       ops_ this !! k = Some op /\
       PlainNet_Run Operator_Run
         (mkPlainNet (take k (ops_ this))) scope ctx st =
         (st_k, Ok (mkPlainNet (take k (ops_ this)))) /\
       Operator_Run op ctx st_k.1 = (st'.1, Throw e) /\
       st'.2 = st_k.2 ++ [call_Run op ctx]).
Proof.
  split; intros st' e.
  - unfold PlainNet_InferShape.
    destruct (for_each_op _ (ops_ this) st) as [st1 [[]|e1]] eqn:E; [done|].
    intros [= <- <-].
    apply for_each_op_first_failure in E as (k & op & st_k & Hk & Hpre & Hop).
    exists k, op, st_k. split; [done|]. simpl. rewrite Hpre. split; [done|].
    unfold invoke_InferShape in Hop.
    destruct (Operator_InferShape op st_k.1) as [w r].
    by injection Hop as <- ->.
  - unfold PlainNet_Run.
    destruct (for_each_op _ (ops_ this) st) as [st1 [[]|e1]] eqn:E; [done|].
    intros [= <- <-].
    apply for_each_op_first_failure in E as (k & op & st_k & Hk & Hpre & Hop).
    exists k, op, st_k. split; [done|]. simpl. rewrite Hpre. split; [done|].
    unfold invoke_Run in Hop.
    destruct (Operator_Run op ctx st_k.1) as [w r].
    by injection Hop as <- ->.
Qed.

End PlainNet_failures.

(** * Examples *)

(** The forward node of section 8 of the spec, with inputs [a], [b] and
    output [c] (bound here to [x], [y] and [z]), and its gradient node. *)
Example two_one_gradient :
  (CreateGradOp two_one_op two_one_tables).2 =
  Ok (mkOperatorBase "two_one" ["x"; "y"; "z"; "z@GRAD"]
        ["x@GRAD"; "y@GRAD"] ∅
        (Some (<["a" := 0]> (<["b" := 1]> (<["c" := 2]> (<["c@GRAD" := 3]>
                 (<["a@GRAD" := 0]> (<["b@GRAD" := 1]> ∅)))))))).
Proof. vm_compute. reflexivity. Qed.

(** The grouped forward node of section 8 of the spec, with groups of two
    and three inputs: the format [0, 2, 5] is read and overwritten with
    [0, 1, 2]. *)
Example grouped_2_3_gradient :
  attrs_ grouped_op_2_3 !! "input_format" = Some (of_ints [0; 2; 5]) /\
  (CreateGradOp grouped_op_2_3 grouped_tables).2 = Ok grouped_grad_2_3 /\
  attrs_ grouped_grad_2_3 !! "input_format" =
    Some (of_ints [0; 1; 2; 5; 6; 7; 8]) /\
  attrs_ grouped_grad_2_3 !! "output_format" = Some (of_ints [0; 1; 2]).
Proof. repeat split; vm_compute; reflexivity. Qed.

(** [CreateGradOp] returns under a checker that rejects the attributes. *)
Example gradient_under_a_rejecting_checker :
  is_Ok (Check strict_checker (attrs_ two_one_op)) = false /\
  is_Ok (CreateGradOp two_one_op
           (set_op_checkers {[ "two_one" := strict_checker ]}
              two_one_tables)).2 = true.
Proof. split; vm_compute; reflexivity. Qed.

(** [Validate] on a maker that declares [a] twice. *)
Example twice_is_rejected :
  (RegisterOp plain_op twice_maker "twice" at_startup).2 =
  Throw (duplicated_error "a").
Proof. vm_compute. reflexivity. Qed.

(** Temporaries of one call, and the wrap of the counter. *)
Example temporaries_of_one_call :
  (CreateOp "two_one" ["p"] ["@TEMP@"; "r"; "@TEMP@"] ∅
     (set_gUniqId (2 ^ 64 - 1)%N two_one_tables)).2 =
  Ok (mkOperatorBase "two_one" ["p"]
        ["@TEMP@two_one@18446744073709551615"; "r"; "@TEMP@two_one@0"] ∅
        (Some (<["a" := 0]> (<["b" := 1]> (<["c" := 0]> ∅))))).
Proof. vm_compute. reflexivity. Qed.

(** A descriptor that binds [scale] twice, first as an integer and then as
    a list: the node holds the list. *)
Example a_descriptor_binds_the_last_attribute :
  (CreateOp_desc two_one_desc two_one_tables).2 =
  Ok (mkOperatorBase "two_one" ["x"; "y"] ["z"]
        {[ "scale" := of_ints [2; 3] ]}
        (Some (<["a" := 0]> (<["b" := 1]> (<["c" := 0]> ∅))))).
Proof. vm_compute. reflexivity. Qed.

(** [two_one] registered a second time: the call throws, the schema holds
    every slot twice and the index is the one of the first registration. *)
Example two_one_registered_again :
  let again := RegisterOp plain_op two_one_maker "two_one" two_one_registered in
  again.2 = Throw (duplicated_error "a") /\
  OpProto.input_names (proto_of again.1 "two_one") = ["a"; "b"; "a"; "b"] /\
  OpProto.output_names (proto_of again.1 "two_one") = ["c"; "c"] /\
  VarIndexMaps again.1 !! "two_one" =
    Some (<["a" := 0]> (<["b" := 1]> (<["c" := 0]> ∅))).
Proof. repeat split; vm_compute; reflexivity. Qed.

(** The gradient of a node whose kind has a gradient constructor only: an
    empty schema appears in [protos()]. *)
Example gradient_of_an_unregistered_kind :
  protos only_grad_tables = ∅ /\
  CreateGradOp only_grad_op only_grad_tables =
    (set_protos {[ "only_grad" := OpProto.empty ]} only_grad_tables,
     Ok (mkOperatorBase "only_grad" ["x"; "y"; "y@GRAD"] ["x@GRAD"] ∅
           (Some ∅))).
Proof. split; vm_compute; reflexivity. Qed.

(** * Instances of the theorems *)

(** C8 as the specification words it fails: [InferShape] of a net does not
    invoke the shape inference of its node against the store. For a node
    whose shape inference writes to the state the dimension that the store
    holds, the pass as worded leaves 1 with the store that holds 1 and 2
    with the store that holds 2; the pass of the code, whatever member
    function the node has, does the same with the two stores, and so
    agrees with the worded one for no member function. *)
Lemma InferShape_is_not_given_the_store :
  claimed_InferShape store_reading_InferShape (ops_ one_node_net) 1%nat 0%nat
    = (1%nat, Ok tt) /\
  claimed_InferShape store_reading_InferShape (ops_ one_node_net) 2%nat 0%nat
    = (2%nat, Ok tt) /\
  (forall f : unit -> nat -> nat * result unit,
     PlainNet_InferShape (DeviceContext := unit) f one_node_net 1%nat
       (0%nat, []) =
     PlainNet_InferShape (DeviceContext := unit) f one_node_net 2%nat
       (0%nat, [])) /\
  ~ (exists f : unit -> nat -> nat * result unit,
       forall scope : nat,
         (PlainNet_InferShape (DeviceContext := unit) f one_node_net scope
            (0%nat, [])).1.1 =
         (claimed_InferShape store_reading_InferShape (ops_ one_node_net)
            scope 0%nat).1).
Proof.
  split; [reflexivity|]. split; [reflexivity|]. split; [reflexivity|].
  intros [f H]. pose proof (H 1%nat) as H1. pose proof (H 2%nat) as H2.
  change (PlainNet_InferShape f one_node_net 2%nat (0%nat, []))
    with (PlainNet_InferShape (DeviceContext := unit) f one_node_net 1%nat
            (0%nat, [])) in H2.
  rewrite H1 in H2. discriminate H2.
Qed.

(** C1 as the specification words it fails: a forward node of the kind
    [grouped], with one variable in each of its two input groups and one
    output, has the gradient [input_format] [0,1,2] ++ [2] ++ [3,4,5]: the
    middle segment is made from the one output, not from a second copy of
    the input offsets. *)
Lemma grad_input_format_is_not_three_input_copies :
  attrs_ grouped_op_1_1 !! "input_format" = Some (of_ints [0; 1; 2]) /\
  attrs_ grouped_op_1_1 !! "output_format" = None /\
  length (inputs_ grouped_op_1_1) = 2%nat /\
  length (outputs_ grouped_op_1_1) = 1%nat /\
  (CreateGradOp grouped_op_1_1 grouped_tables).2 = Ok grouped_grad_1_1 /\
  attrs_ grouped_grad_1_1 !! "input_format" =
    Some (of_ints [0; 1; 2; 2; 3; 4; 5]) /\
  attrs_ grouped_grad_1_1 !! "input_format" <>
    Some (of_ints (claimed_grad_input_format [0; 1; 2] 2 1)).
Proof.
  repeat split; try (vm_compute; reflexivity).
  vm_compute. discriminate.
Qed.

Lemma CreateGradOp_format_attrs_witness :
  grad_creators grouped_tables !! type_ grouped_op_2_3 = Some plain_op /\
  attrs_ grouped_op_2_3 !! "input_format" = of_ints <$> Some [0; 2; 5] /\
  attrs_ grouped_op_2_3 !! "output_format" = of_ints <$> None /\
  exists G' grad_op,
    CreateGradOp grouped_op_2_3 grouped_tables = (G', Init plain_op grad_op) /\
    derived_format_attrs (proto_of grouped_tables (type_ grouped_op_2_3))
      grouped_op_2_3 grad_op (Some [0; 2; 5]) None.
Proof.
  assert (H1 : grad_creators grouped_tables !! type_ grouped_op_2_3
               = Some plain_op) by reflexivity.
  assert (H2 : attrs_ grouped_op_2_3 !! "input_format"
               = of_ints <$> Some [0; 2; 5]) by reflexivity.
  assert (H3 : attrs_ grouped_op_2_3 !! "output_format"
               = of_ints <$> None) by reflexivity.
  split; [exact H1|]. split; [exact H2|]. split; [exact H3|].
  exact (CreateGradOp_format_attrs grouped_tables grouped_op_2_3 plain_op
           (Some [0; 2; 5]) None H1 H2 H3).
Defined.

(** C2 as the specification words it fails: the kind [colliding] registers
    (its names are distinct), its output slot [x@GRAD] is position 1 of
    the continuous space, and the index of the gradient node maps it to 0,
    the offset written last for the gradient of the input slot [x]. *)
Lemma colliding_slot_names_break_the_offsets :
  (RegisterOp plain_op colliding_maker "colliding" at_startup).2 = Ok tt /\
  protos colliding_tables !! "colliding" = Some colliding_proto /\
  OpProto.input_names colliding_proto = ["x"] /\
  OpProto.output_names colliding_proto = ["x@GRAD"] /\
  (CreateGradOp colliding_op colliding_tables).2 = Ok colliding_grad /\
  in_out_idxs_ colliding_grad = Some colliding_idxs /\
  colliding_idxs !! "x@GRAD" = Some 0 /\
  ~ continuous_offsets colliding_proto colliding_idxs.
Proof.
  repeat split; try (vm_compute; reflexivity).
  intros [_ H]. specialize (H 0%nat "x@GRAD" eq_refl) as [H _].
  vm_compute in H. discriminate H.
Qed.

Lemma CreateGradOp_arg_offsets_witness :
  grad_creators two_one_tables !! type_ two_one_op = Some plain_op /\
  format_attrs_typed two_one_op /\
  protos two_one_tables !! type_ two_one_op = Some two_one_proto /\
  NoDup (OpProto.input_names two_one_proto
           ++ OpProto.output_names two_one_proto) /\
  no_slot_named_like_a_gradient two_one_proto /\
  exists G' grad_op idxs,
    CreateGradOp two_one_op two_one_tables = (G', Init plain_op grad_op) /\
    in_out_idxs_ grad_op = Some idxs /\
    continuous_offsets two_one_proto idxs.
Proof.
  assert (H1 : grad_creators two_one_tables !! type_ two_one_op
               = Some plain_op) by reflexivity.
  assert (H2 : format_attrs_typed two_one_op) by (vm_compute; tauto).
  assert (H3 : protos two_one_tables !! type_ two_one_op
               = Some two_one_proto) by reflexivity.
  assert (H4 : NoDup (OpProto.input_names two_one_proto
                        ++ OpProto.output_names two_one_proto))
    by (apply (bool_decide_unpack _); vm_compute; exact I).
  assert (H5 : no_slot_named_like_a_gradient two_one_proto).
  { unfold no_slot_named_like_a_gradient. cbv zeta.
    apply (bool_decide_unpack _). vm_compute. exact I. }
  split; [exact H1|]. split; [exact H2|]. split; [exact H3|].
  split; [exact H4|]. split; [exact H5|].
  exact (CreateGradOp_arg_offsets two_one_tables two_one_op plain_op
           two_one_proto H1 H2 H3 H4 H5).
Defined.


Lemma CreateGradOp_keeps_type_and_runs_no_checker_witness :
  grad_creators grouped_tables !! type_ grouped_op_2_3 = Some plain_op /\
  (forall G' g,
     CreateGradOp grouped_op_2_3 grouped_tables = (G', Ok g) ->
     exists grad_op,
       Init plain_op grad_op = Ok g /\
       type_ grad_op = type_ grouped_op_2_3) /\
  (format_attrs_typed grouped_op_2_3 ->
   exists G' grad_op,
     CreateGradOp grouped_op_2_3 grouped_tables
       = (G', Init plain_op grad_op) /\
     type_ grad_op = type_ grouped_op_2_3) /\
  (forall G' r checkers,
     CreateGradOp grouped_op_2_3 grouped_tables = (G', r) ->
     CreateGradOp grouped_op_2_3 (set_op_checkers checkers grouped_tables) =
     (set_op_checkers checkers G', r)).
Proof.
  assert (H1 : grad_creators grouped_tables !! type_ grouped_op_2_3
               = Some plain_op) by reflexivity.
  split; [exact H1|].
  exact (CreateGradOp_keeps_type_and_runs_no_checker grouped_tables
           grouped_op_2_3 plain_op H1).
Defined.

Lemma CreateOp_tolerates_a_missing_index_witness :
  creators twice_tables !! "twice" = Some plain_op /\
  op_checkers twice_tables !! "twice" = Some [] /\
  Check [] (∅ : AttributeMap) = Ok ∅ /\
  VarIndexMaps twice_tables !! "twice" = None /\
  exists G' op,
    CreateOp "twice" ["p"] ["q"] ∅ twice_tables = (G', Init plain_op op) /\
    in_out_idxs_ op = None /\
    type_ op = "twice" /\ inputs_ op = ["p"] /\ attrs_ op = ∅.
Proof.
  assert (H1 : creators twice_tables !! "twice" = Some plain_op)
    by reflexivity.
  assert (H2 : op_checkers twice_tables !! "twice" = Some []) by reflexivity.
  assert (H3 : Check [] (∅ : AttributeMap) = Ok ∅) by reflexivity.
  assert (H4 : VarIndexMaps twice_tables !! "twice" = None) by reflexivity.
  split; [exact H1|]. split; [exact H2|]. split; [exact H3|].
  split; [exact H4|].
  exact (CreateOp_tolerates_a_missing_index twice_tables "twice" ["p"] ["q"]
           ∅ plain_op [] ∅ H1 H2 H3 H4).
Defined.

Ltac run_thread i :=
  eapply rtc_l;
  [ eapply (system_step_thread _ _ i); [reflexivity|];
    eapply call_step_body; [reflexivity|];
    rewrite rename_temporary_eq; reflexivity
  | ].

Lemma two_calls_interleaved :
  rtc system_step (uncurry start_call <$> two_calls, at_startup)
                  (two_calls_end, advance 3 at_startup).
Proof.
  assert (H : exists s,
             rtc system_step (uncurry start_call <$> two_calls, at_startup) s
             /\ s = (two_calls_end, advance 3 at_startup)).
  { eexists. split.
    - run_thread 0%nat. run_thread 1%nat. run_thread 0%nat. run_thread 0%nat.
      apply rtc_refl.
    - vm_compute. reflexivity. }
  destruct H as (s & Hs & ->). exact Hs.
Qed.

Lemma temporaries_never_collide_witness :
  (gUniqId at_startup < size_t_modulus)%N /\
  rtc system_step (uncurry start_call <$> two_calls, at_startup)
                  (two_calls_end, advance 3 at_startup) /\
  (N.of_nat (length (all_generated two_calls_end)) <= size_t_modulus)%N /\
  all_generated two_calls_end = ["@TEMP@t1@0"; "@TEMP@t1@2"; "@TEMP@t2@1"] /\
  NoDup (all_generated two_calls_end) /\
  exists types,
    all_generated two_calls_end ≡ₚ names_of (gUniqId at_startup) types.
Proof.
  assert (H1 : (gUniqId at_startup < size_t_modulus)%N) by reflexivity.
  assert (H2 := two_calls_interleaved).
  assert (H3 : (N.of_nat (length (all_generated two_calls_end))
                <= size_t_modulus)%N) by (vm_compute; discriminate).
  split; [exact H1|]. split; [exact H2|]. split; [exact H3|].
  split; [reflexivity|].
  exact (proj2 (proj2 temporaries_are_renamed_and_never_collide)
           two_calls at_startup two_calls_end (advance 3 at_startup)
           H1 H2 H3).
Defined.

Lemma GenerateGradAttr_keeps_the_length_only_witness :
  grad_creators grouped_tables !! type_ grouped_op_2_3 = Some plain_op /\
  attrs_ grouped_op_2_3 !! "input_format" = Some (of_ints [0; 2; 5]) /\
  attrs_ grouped_op_2_3 !! "output_format" = of_ints <$> None /\
  exists G' grad_op,
    CreateGradOp grouped_op_2_3 grouped_tables = (G', Init plain_op grad_op) /\
    attrs_ grad_op !! "output_format" =
      Some (of_ints (seqZ 0 (Z.of_nat (length [0; 2; 5])))).
Proof.
  assert (H1 : grad_creators grouped_tables !! type_ grouped_op_2_3
               = Some plain_op) by reflexivity.
  assert (H2 : attrs_ grouped_op_2_3 !! "input_format"
               = Some (of_ints [0; 2; 5])) by reflexivity.
  assert (H3 : attrs_ grouped_op_2_3 !! "output_format"
               = of_ints <$> None) by reflexivity.
  split; [exact H1|]. split; [exact H2|]. split; [exact H3|].
  exact (GenerateGradAttr_keeps_the_length_only grouped_tables
           grouped_op_2_3 plain_op [0; 2; 5] None H1 H2 H3).
Defined.

Lemma RegisterOp_index_witness :
  RegisterOp plain_op two_one_maker "two_one" at_startup =
    (two_one_registered, Ok tt) /\
  VarIndexMaps two_one_registered !! "two_one" =
    Some (<["a" := 0]> (<["b" := 1]> (<["c" := 0]> ∅))) /\
  registered_with_index plain_op two_one_maker "two_one" at_startup
    two_one_registered.
Proof.
  assert (H : RegisterOp plain_op two_one_maker "two_one" at_startup =
              (two_one_registered, Ok tt)) by (vm_compute; reflexivity).
  split; [exact H|]. split; [vm_compute; reflexivity|].
  exact (RegisterOp_index plain_op two_one_maker "two_one" at_startup
           two_one_registered H).
Defined.

Lemma RegisterOp_failure_is_partial_witness :
  RegisterOp plain_op twice_maker "twice" at_startup =
    (twice_tables, Throw (duplicated_error "a")) /\
  registered_without_index plain_op twice_maker "twice" at_startup
    twice_tables.
Proof.
  assert (H : RegisterOp plain_op twice_maker "twice" at_startup =
              (twice_tables, Throw (duplicated_error "a")))
    by (vm_compute; reflexivity).
  split; [exact H|].
  exact (RegisterOp_failure_is_partial plain_op twice_maker "twice"
           at_startup twice_tables (duplicated_error "a") H).
Defined.

Lemma RegisterOp_again_throws_witness :
  RegisterOp plain_op two_one_maker "two_one" at_startup =
    (two_one_registered, Ok tt) /\
  two_one_maker !! 0%nat = Some (call_AddInput "a" "first input" false) /\
  name_declared (call_AddInput "a" "first input" false) = Some "a" /\
  exists name G2,
    RegisterOp plain_op two_one_maker "two_one" two_one_registered =
      (G2, Throw (duplicated_error name)) /\
    creators G2 !! "two_one" = Some plain_op /\
    VarIndexMaps G2 = VarIndexMaps two_one_registered /\
    protos G2 !! "two_one" =
      Some (proto_ (schema_built two_one_maker "two_one"
                      two_one_registered)) /\
    occurs_twice name
      (schema_names (proto_ (schema_built two_one_maker "two_one"
                               two_one_registered))).
Proof.
  assert (H1 : RegisterOp plain_op two_one_maker "two_one" at_startup =
               (two_one_registered, Ok tt)) by (vm_compute; reflexivity).
  assert (H2 : two_one_maker !! 0%nat =
               Some (call_AddInput "a" "first input" false)) by reflexivity.
  assert (H3 : name_declared (call_AddInput "a" "first input" false) =
               Some "a") by reflexivity.
  split; [exact H1|]. split; [exact H2|]. split; [exact H3|].
  exact (RegisterOp_again_throws plain_op plain_op two_one_maker
           two_one_maker "two_one" at_startup two_one_registered 0 0
           (call_AddInput "a" "first input" false)
           (call_AddInput "a" "first input" false) "a" H1 H2 H3 H2 H3).
Defined.

Lemma RegisterOp_of_two_kinds_commutes_witness :
  "two_one" <> "grouped" /\
  (RegisterOp plain_op grouped_maker "grouped"
     (RegisterOp plain_op two_one_maker "two_one" at_startup).1).1 =
  (RegisterOp plain_op two_one_maker "two_one"
     (RegisterOp plain_op grouped_maker "grouped" at_startup).1).1 /\
  (RegisterOp plain_op two_one_maker "two_one"
     (RegisterOp plain_op grouped_maker "grouped" at_startup).1).2 =
  (RegisterOp plain_op two_one_maker "two_one" at_startup).2 /\
  (RegisterOp plain_op grouped_maker "grouped"
     (RegisterOp plain_op two_one_maker "two_one" at_startup).1).2 =
  (RegisterOp plain_op grouped_maker "grouped" at_startup).2.
Proof.
  assert (H : "two_one" <> "grouped") by discriminate.
  split; [exact H|].
  exact (RegisterOp_of_two_kinds_commutes plain_op two_one_maker "two_one"
           plain_op grouped_maker "grouped" at_startup H).
Defined.

Lemma reachable_tables_are_consistent_witness :
  reachable two_one_tables /\
  tables_consistent two_one_tables /\
  CreateOp_finds_the_checker two_one_tables.
Proof.
  assert (H : reachable two_one_tables)
    by (exists two_one_startup; vm_compute; reflexivity).
  split; [exact H|].
  exact (reachable_tables_are_consistent two_one_tables H).
Defined.

Lemma CreateOp_desc_decodes_witness :
  Forall (fun attr => is_Some (field_selected attr))
    (OpDesc.attrs two_one_desc) /\
  exists attrs,
    CreateOp_desc two_one_desc two_one_tables =
      CreateOp (OpDesc.type two_one_desc) (OpDesc.inputs two_one_desc)
        (OpDesc.outputs two_one_desc) attrs two_one_tables /\
    forall name,
      attrs !! name =
      last_named name (OpDesc.attrs two_one_desc) ≫= field_selected.
Proof.
  assert (H : Forall (fun attr => is_Some (field_selected attr))
                (OpDesc.attrs two_one_desc))
    by (repeat constructor; eexists; reflexivity).
  split; [exact H|].
  exact (CreateOp_desc_decodes two_one_tables two_one_desc H).
Defined.

Lemma CreateGradOp_writes_a_missing_schema_witness :
  grad_creators only_grad_tables !! type_ only_grad_op = Some plain_op /\
  protos only_grad_tables !! type_ only_grad_op = None /\
  (CreateGradOp only_grad_op only_grad_tables).1 =
    match protos only_grad_tables !! type_ only_grad_op with
    | Some _ => only_grad_tables
    | None =>
        set_protos (<[type_ only_grad_op := OpProto.empty]>
                      (protos only_grad_tables)) only_grad_tables
    end /\
  (protos only_grad_tables !! type_ only_grad_op = None ->
   format_attrs_typed only_grad_op ->
   exists grad_op,
     (CreateGradOp only_grad_op only_grad_tables).2 = Init plain_op grad_op /\
     in_out_idxs_ grad_op = Some ∅ /\
     grad_wiring only_grad_op grad_op) /\
  (forall c' maker,
     RegisterOp c' maker (type_ only_grad_op)
       (CreateGradOp only_grad_op only_grad_tables).1 =
     RegisterOp c' maker (type_ only_grad_op) only_grad_tables).
Proof.
  assert (H : grad_creators only_grad_tables !! type_ only_grad_op
              = Some plain_op) by reflexivity.
  split; [exact H|]. split; [reflexivity|].
  exact (CreateGradOp_writes_a_missing_schema only_grad_tables only_grad_op
           plain_op H).
Defined.

Lemma PlainNet_passes_rethrow_the_first_failure_witness :
  PlainNet_Run counting_Run stopping_net tt tt (0%nat, []) =
    ((2%nat, [call_Run false tt; call_Run true tt]),
     Throw (EnforceNotMet "no kernel")) /\
  exists k op st_k,
    ops_ stopping_net !! k = Some op /\
    PlainNet_Run counting_Run (mkPlainNet (take k (ops_ stopping_net))) tt tt
      (0%nat, []) = (st_k, Ok (mkPlainNet (take k (ops_ stopping_net)))) /\
    counting_Run op tt st_k.1 = (2%nat, Throw (EnforceNotMet "no kernel")) /\
    [call_Run false tt; call_Run true tt] = st_k.2 ++ [call_Run op tt].
Proof.
  assert (H : PlainNet_Run counting_Run stopping_net tt tt (0%nat, []) =
    ((2%nat, [call_Run false tt; call_Run true tt]),
     Throw (EnforceNotMet "no kernel"))) by reflexivity.
  split; [exact H|].
  exact (proj2 (PlainNet_passes_rethrow_the_first_failure
                  counting_InferShape counting_Run stopping_net tt tt
                  (0%nat, [])) _ _ H).
Defined.

Lemma interleaved_calls_lose_no_counter_value_witness :
  (gUniqId at_startup < size_t_modulus)%N /\
  rtc system_step (uncurry start_call <$> two_calls, at_startup)
                  (two_calls_end, advance 3 at_startup) /\
  advance 3 at_startup =
    advance (length (all_generated two_calls_end)) at_startup.
Proof.
  assert (H1 : (gUniqId at_startup < size_t_modulus)%N) by reflexivity.
  assert (H2 := two_calls_interleaved).
  split; [exact H1|]. split; [exact H2|].
  exact (interleaved_calls_lose_no_counter_value two_calls at_startup
           two_calls_end (advance 3 at_startup) H1 H2).
Defined.

Lemma CreateGradOp_input_gradient_offsets_witness :
  grad_creators colliding_tables !! type_ colliding_op = Some plain_op /\
  format_attrs_typed colliding_op /\
  protos colliding_tables !! type_ colliding_op = Some colliding_proto /\
  NoDup (OpProto.input_names colliding_proto) /\
  exists G' grad_op idxs,
    CreateGradOp colliding_op colliding_tables = (G', Init plain_op grad_op) /\
    in_out_idxs_ grad_op = Some idxs /\
    forall i x, OpProto.input_names colliding_proto !! i = Some x ->
      idxs !! grad_name x = Some (Z.of_nat i).
Proof.
  assert (H1 : grad_creators colliding_tables !! type_ colliding_op
               = Some plain_op) by reflexivity.
  assert (H2 : format_attrs_typed colliding_op) by (vm_compute; tauto).
  assert (H3 : protos colliding_tables !! type_ colliding_op
               = Some colliding_proto) by reflexivity.
  assert (H4 : NoDup (OpProto.input_names colliding_proto))
    by (apply (bool_decide_unpack _); vm_compute; exact I).
  split; [exact H1|]. split; [exact H2|]. split; [exact H3|].
  split; [exact H4|].
  exact (CreateGradOp_input_gradient_offsets colliding_tables colliding_op
           plain_op colliding_proto H1 H2 H3 H4).
Defined.

Lemma bookkeeping_names_are_reserved_witness :
  declares_a_reserved_name reserved_maker = true /\
  exists name,
    RegisterOp plain_op reserved_maker "reserved" at_startup =
      (half_registered plain_op reserved_maker "reserved" at_startup,
       Throw (duplicated_error name)) /\
    occurs_twice name
      (declared_names (schema_built reserved_maker "reserved" at_startup)).
Proof.
  assert (H : declares_a_reserved_name reserved_maker = true) by reflexivity.
  split; [exact H|].
  exact (bookkeeping_names_are_reserved plain_op reserved_maker "reserved"
           at_startup H).
Defined.

Lemma gradient_index_matches_the_wiring_witness :
  grad_creators two_one_tables !! type_ two_one_op = Some plain_op /\
  format_attrs_typed two_one_op /\
  protos two_one_tables !! type_ two_one_op = Some two_one_proto /\
  NoDup (OpProto.input_names two_one_proto
           ++ OpProto.output_names two_one_proto) /\
  no_slot_named_like_a_gradient two_one_proto /\
  length (inputs_ two_one_op) = length (OpProto.input_names two_one_proto) /\
  length (outputs_ two_one_op) =
    length (OpProto.output_names two_one_proto) /\
  exists G' grad_op idxs,
    CreateGradOp two_one_op two_one_tables = (G', Init plain_op grad_op) /\
    in_out_idxs_ grad_op = Some idxs /\
    index_matches_wiring two_one_proto two_one_op grad_op idxs.
Proof.
  assert (H1 : grad_creators two_one_tables !! type_ two_one_op
               = Some plain_op) by reflexivity.
  assert (H2 : format_attrs_typed two_one_op) by (vm_compute; tauto).
  assert (H3 : protos two_one_tables !! type_ two_one_op
               = Some two_one_proto) by reflexivity.
  assert (H4 : NoDup (OpProto.input_names two_one_proto
                        ++ OpProto.output_names two_one_proto))
    by (apply (bool_decide_unpack _); vm_compute; exact I).
  assert (H5 : no_slot_named_like_a_gradient two_one_proto).
  { unfold no_slot_named_like_a_gradient. cbv zeta.
    apply (bool_decide_unpack _). vm_compute. exact I. }
  assert (H6 : length (inputs_ two_one_op)
               = length (OpProto.input_names two_one_proto)) by reflexivity.
  assert (H7 : length (outputs_ two_one_op)
               = length (OpProto.output_names two_one_proto)) by reflexivity.
  split; [exact H1|]. split; [exact H2|]. split; [exact H3|].
  split; [exact H4|]. split; [exact H5|]. split; [exact H6|].
  split; [exact H7|].
  exact (gradient_index_matches_the_wiring two_one_tables two_one_op plain_op
           two_one_proto H1 H2 H3 H4 H5 H6 H7).
Defined.

Lemma Validate_reports_the_first_repeated_name_witness :
  (Validate (construct repeating_maker OpProto.empty [])).2 =
    Throw (duplicated_error "b") /\
  exists name,
    duplicated_error "b" = duplicated_error name /\
    first_repeated name
      (declared_names (construct repeating_maker OpProto.empty [])) /\
    forall name',
      first_repeated name'
        (declared_names (construct repeating_maker OpProto.empty [])) ->
      name' = name.
Proof.
  assert (H : (Validate (construct repeating_maker OpProto.empty [])).2 =
              Throw (duplicated_error "b")) by (vm_compute; reflexivity).
  split; [exact H|].
  exact (Validate_reports_the_first_repeated_name
           (construct repeating_maker OpProto.empty [])
           (duplicated_error "b") H).
Defined.
